(** * The genji expression parser ([sql/parser/expr.go])

    A shallow embedding of the recursive expression parser: the token
    adapter with its capture buffer, the unary-expression dispatcher, the
    precedence climber, the path, document, list, function-call and CAST
    parsers and the bind-parameter counters, followed by the properties
    of the parser that the specification states, and by further
    properties of the code: the identifier lists and the parameters of
    the statement parsers, termination, where the parser stops, how
    lists, documents and calls end, and the numbers of the positional
    parameters. *)

From Stdlib Require Import ZArith NArith List String Ascii Bool Lia Arith.
From Stdlib Require Import Floats.SpecFloat.
Import ListNotations.

Local Open Scope string_scope.
Local Open Scope list_scope.
Local Set Warnings "-register-all".

(** ** Tokens *)

Module scanner.

(** Modelled from the spec: the token enumeration of the scanner package,
    of which the parser only sees the kinds named in [expr.go].  Every
    other token of the scanner (SELECT, WHERE, the semicolon, ...) is
    [KEYWORD] with its name. *)
Inductive Token : Type :=
  | ILLEGAL | EOF | WS
  | IDENT | NAMEDPARAM | POSITIONALPARAM
  | NUMBER | INTEGER | DURATION | STRING
  | TRUE | FALSE | NULL
  | ADD | SUB | MUL | DIV | MOD
  | BITWISEAND | BITWISEOR | BITWISEXOR
  | AND | OR
  | EQ | NEQ | LT | LTE | GT | GTE | IN | IS
  | LPAREN | RPAREN | LBRACKET | RBRACKET | LSBRACKET | RSBRACKET
  | COMMA | COLON | DOT
  | CAST | AS
  | TYPEBYTES | TYPESTRING | TYPEBOOL
  | TYPEINT8 | TYPEINT16 | TYPEINT32 | TYPEINT64 | TYPEINT | TYPEINTEGER
  | TYPEFLOAT64 | TYPENUMERIC | TYPETEXT | TYPEDURATION
  | KEYWORD (name : string).

Definition Token_eq_dec (a b : Token) : {a = b} + {a <> b}.
Proof. decide equality. apply string_dec. Defined.

Definition Token_eqb (a b : Token) : bool :=
  if Token_eq_dec a b then true else false.

(** Modelled from the spec: [Token.IsOperator] of the scanner, which is
    not among the sources.  The specification names eighteen binary
    operators, those of its precedence table, and does not say which
    tokens the scanner takes for operators: this definition takes those
    eighteen and no other.  What depends on the scanner taking no other
    is stated over [ParseExprWith], which has the test as a parameter. *)
Definition IsOperator (tok : Token) : bool :=
  match tok with
  | ADD | SUB | MUL | DIV | MOD
  | BITWISEAND | BITWISEOR | BITWISEXOR
  | AND | OR
  | EQ | NEQ | LT | LTE | GT | GTE | IN | IS => true
  | _ => false
  end.

(** Modelled from the spec: [Token.Precedence], the six tiers of the
    precedence table, a larger number binding tighter; 0 for every token
    that is not an operator. *)
Definition Precedence (tok : Token) : Z :=
  match tok with
  | MUL | DIV | MOD => 6
  | ADD | SUB => 5
  | BITWISEAND | BITWISEOR | BITWISEXOR => 4
  | EQ | NEQ | LT | LTE | GT | GTE | IN | IS => 3
  | AND => 2
  | OR => 1
  | _ => 0
  end%Z.

(** A source position (line, column). *)
Definition Pos : Type := (nat * nat)%type.

(** What the scanner delivers for one token: its kind, its position, the
    lexeme handed to the parser ([Lit]: quotes and backquotes stripped)
    and the source bytes it was read from ([Raw]). *)
Record TokenInfo : Type := mkTokenInfo {
  Tok : Token;
  TPos : Pos;
  Lit : string;
  Raw : string
}.

(** Past the end of the input the scanner answers [EOF], again and again. *)
Definition eofToken : TokenInfo := mkTokenInfo EOF (0, 0) "" "".

End scanner.

Import scanner.

(** ** Expressions *)

Module document.

(** The value types a CAST can name.  Go's [parseType] answers the zero
    [ValueType] for "no type"; here that is [None]. *)
Inductive ValueType : Type :=
  | BlobValue | TextValue | BoolValue
  | Int8Value | Int16Value | Int32Value | Int64Value
  | Float64Value | DurationValue.

End document.

Module expr.

(** The eighteen binary operators; a node remembers the token it was built
    from, which gives its precedence. *)
Inductive Operator : Type :=
  | OpEq | OpNeq | OpGt | OpGte | OpLt | OpLte
  | OpAnd | OpOr
  | OpAdd | OpSub | OpMul | OpDiv | OpMod
  | OpBitwiseAnd | OpBitwiseOr | OpBitwiseXor
  | OpIn | OpIs.

Definition opToken (o : Operator) : Token :=
  match o with
  | OpEq => EQ | OpNeq => NEQ | OpGt => GT | OpGte => GTE
  | OpLt => LT | OpLte => LTE
  | OpAnd => AND | OpOr => OR
  | OpAdd => ADD | OpSub => SUB | OpMul => MUL | OpDiv => DIV | OpMod => MOD
  | OpBitwiseAnd => BITWISEAND | OpBitwiseOr => BITWISEOR
  | OpBitwiseXor => BITWISEXOR
  | OpIn => IN | OpIs => IS
  end.

(** The closed sum of expression nodes; [NilExpr] is Go's nil interface
    value, which the dummy root of the climber holds. *)
Inductive Expr : Type :=
  | NilExpr
  | IntValue (v : Z)
  | Float64Value (v : spec_float)
  | TextValue (s : string)
  | BoolValue (b : bool)
  | NullValue
  | DurationValue (d : Z)
  | FieldSelector (path : list string)
  | KVPairs (pairs : list (string * Expr))
  | LiteralExprList (l : list Expr)
  | BinaryOp (o : Operator) (lhs rhs : Expr)
  | NamedParam (name : string)
  | PositionalParam (n : Z)
  | Cast (e : Expr) (ConvertTo : document.ValueType)
  | PKFunc
  | FuncCall (name : string) (args : list Expr).

Definition KVPair : Type := (string * Expr)%type.

Definition Eq := BinaryOp OpEq.
Definition Neq := BinaryOp OpNeq.
Definition Gt := BinaryOp OpGt.
Definition Gte := BinaryOp OpGte.
Definition Lt := BinaryOp OpLt.
Definition Lte := BinaryOp OpLte.
Definition And := BinaryOp OpAnd.
Definition Or := BinaryOp OpOr.
Definition Add := BinaryOp OpAdd.
Definition Sub := BinaryOp OpSub.
Definition Mul := BinaryOp OpMul.
Definition Div := BinaryOp OpDiv.
Definition Mod := BinaryOp OpMod.
Definition BitwiseAnd := BinaryOp OpBitwiseAnd.
Definition BitwiseOr := BinaryOp OpBitwiseOr.
Definition BitwiseXor := BinaryOp OpBitwiseXor.
Definition In := BinaryOp OpIn.
Definition Is := BinaryOp OpIs.

(** [Precedence] of an operator node: that of its token. *)
Definition Precedence (o : Operator) : Z := scanner.Precedence (opToken o).

End expr.

Import expr.

(** ** Strings and numbers of the Go library *)

Module strings.

(** The ASCII white space that [strings.TrimSpace] removes. *)
Definition isSpace (c : ascii) : bool :=
  let n := nat_of_ascii c in
  ((9 <=? n)%nat && (n <=? 13)%nat) || (n =? 32)%nat.

Fixpoint trimLeft (s : string) : string :=
  match s with
  | EmptyString => EmptyString
  | String c s' => if isSpace c then trimLeft s' else s
  end.

Fixpoint trimRight (s : string) : string :=
  match s with
  | EmptyString => EmptyString
  | String c s' =>
      match trimRight s' with
      | EmptyString => if isSpace c then EmptyString else String c EmptyString
      | r => String c r
      end
  end.

Definition TrimSpace (s : string) : string := trimRight (trimLeft s).

End strings.

Module strconv.

Definition digitOf (c : ascii) : option N :=
  let n := N_of_ascii c in
  if ((48 <=? n) && (n <=? 57))%N then Some (n - 48)%N else None.

(** The digits of a numeral, most significant first, onto an accumulator. *)
Fixpoint digits (s : string) (acc : N) : option N :=
  match s with
  | EmptyString => Some acc
  | String c s' =>
      match digitOf c with
      | Some d => digits s' (10 * acc + d)%N
      | None => None
      end
  end.

(** An optional sign followed by at least one decimal digit: the sign and
    the magnitude. *)
Definition decimal (s : string) : option (bool * N) :=
  match s with
  | EmptyString => None
  | String c s' =>
      if Ascii.eqb c "-" then
        match s' with
        | EmptyString => None
        | _ => option_map (pair true) (digits s' 0)
        end
      else if Ascii.eqb c "+" then
        match s' with
        | EmptyString => None
        | _ => option_map (pair false) (digits s' 0)
        end
      else option_map (pair false) (digits s 0)
  end.

Definition minInt64 : Z := (- 2 ^ 63)%Z.
Definition maxInt64 : Z := (2 ^ 63 - 1)%Z.

Definition signed (neg : bool) (m : N) : Z :=
  if neg then (- Z.of_N m)%Z else Z.of_N m.

(** [strconv.Atoi] where [int] has 64 bits: [None] stands for either of
    its errors, bad syntax and value out of range. *)
Definition Atoi (s : string) : option Z :=
  match decimal s with
  | Some (neg, m) =>
      let v := signed neg m in
      if ((minInt64 <=? v) && (v <=? maxInt64))%Z then Some v else None
  | None => None
  end.

(** The binary64 number nearest to an integer, ties to even; an integer
    too large for binary64 is a range error. *)
Definition roundInteger (neg : bool) (m : N) : option spec_float :=
  match m with
  | N0 => Some (S754_zero neg)
  | Npos q =>
      match binary_round 53 1024 neg q 0 with
      | S754_finite sg mm e => Some (S754_finite sg mm e)
      | S754_zero sg => Some (S754_zero sg)
      | _ => None
      end
  end.

End strconv.

(** ** What the parser takes from outside the package *)

(** The collaborators of the parser that live in other packages: the
    table of token names of the scanner, the function registry, and the
    parts of Go's library that have no integer model. *)
Record Extern : Type := mkExtern {
  (** [Token.String] of the scanner. *)
  tokenString : Token -> string;
  (** [strconv.ParseFloat s 64] on a lexeme that is not an optionally
      signed run of decimal digits: fractions, exponents and the like. *)
  parseFloatSyntax : string -> option spec_float;
  (** [time.ParseDuration], in nanoseconds. *)
  ParseDuration : string -> option Z;
  (** Whether the registry knows a function of that name and arity. *)
  registered : string -> nat -> bool
}.

(** ** The parser and its token adapter *)

(** A parse error: a message, or what was found against what was
    expected, at a position. *)
Record ParseError : Type := mkParseError {
  Message : string;
  Found : string;
  Expected : list string;
  ErrPos : Pos
}.

Definition newParseError (found : string) (expected : list string)
    (pos : Pos) : ParseError :=
  mkParseError "" found expected pos.

(** An error of the parser, or one of the function registry. *)
Inductive error : Type :=
  | ParseErr (e : ParseError)
  | ResolveErr (name : string).

Definition messageError (msg : string) : error :=
  ParseErr (mkParseError msg "" [] (0, 0)).

(** Modelled from the spec: the [Parser] struct of [parser.go]: the place
    of the buffered scanner in its input (the index of the next token to
    read, so that a pushback is a step back), the two parameter counters
    and the capture buffer ([None] is Go's nil buffer).  The input itself,
    which no function changes, is an argument of the parsing functions. *)
Record Parser : Type := mkParser {
  pos : nat;
  orderedParams : Z;
  namedParams : Z;
  buf : option string
}.

Definition NewParser : Parser := mkParser 0 0 0 None.

Definition setPos (p : Parser) (n : nat) (b : option string) : Parser :=
  mkParser n (orderedParams p) (namedParams p) b.

Definition setBuf (p : Parser) (b : option string) : Parser :=
  mkParser (pos p) (orderedParams p) (namedParams p) b.

Section Adapter.

Variable input : list TokenInfo.

(** The token at an index of the input. *)
Definition tokenAt (i : nat) : TokenInfo := nth i input eofToken.

(** Modelled from the spec: [Parser.Scan], the next token, whose source
    bytes go to the capture buffer when there is one. *)
Definition Scan (p : Parser) : TokenInfo * Parser :=
  let ti := tokenAt (pos p) in
  (ti, setPos p (S (pos p))
         (option_map (fun b => (b ++ Raw ti)%string) (buf p))).

(** Modelled from the spec: [Parser.Unscan], the most recent token pushed
    back and its bytes taken off the end of the capture buffer. *)
Definition Unscan (p : Parser) : Parser :=
  let ti := tokenAt (Nat.pred (pos p)) in
  setPos p (Nat.pred (pos p))
    (option_map
       (fun b => substring 0 (String.length b - String.length (Raw ti)) b)
       (buf p)).

(** The loop of [ScanIgnoreWhitespace] with a bound on its turns. *)
Fixpoint scanIgnoreWhitespaceLoop (n : nat) (p : Parser)
    : TokenInfo * Parser :=
  let (ti, p') := Scan p in
  match n with
  | O => (ti, p')
  | S n' =>
      if Token_eqb (Tok ti) WS then scanIgnoreWhitespaceLoop n' p'
      else (ti, p')
  end.

(** Modelled from the spec: [Parser.ScanIgnoreWhitespace], the next token
    that is not white space; the input left bounds the loop. *)
Definition ScanIgnoreWhitespace (p : Parser) : TokenInfo * Parser :=
  scanIgnoreWhitespaceLoop (List.length input - pos p) p.

End Adapter.

(** What a parsing function leaves: a value, an error, a panic, or the
    bound on the recursion reached.  The parser is kept in the first two,
    for a caller may go on after an error. *)
Inductive Outcome (A : Type) : Type :=
  | Ok (a : A) (p : Parser)
  | Fail (e : error) (p : Parser)
  | Panicked (msg : string)
  | OutOfFuel.

Arguments Ok {A} a p.
Arguments Fail {A} e p.
Arguments Panicked {A} msg.
Arguments OutOfFuel {A}.

Definition bind {A B : Type} (m : Outcome A)
    (k : A -> Parser -> Outcome B) : Outcome B :=
  match m with
  | Ok a p => k a p
  | Fail e p => Fail e p
  | Panicked msg => Panicked msg
  | OutOfFuel => OutOfFuel
  end.

Notation "'do' ( a , p ) <- m ; k" :=
  (bind m (fun a p => k))
  (at level 10, a name, p name, m at level 100, k at level 200).

(** [opToExpr]: the node of an operator token; any other token panics. *)
Definition opToExpr (op : Token) (lhs rhs : Expr) : option Expr :=
  match op with
  | EQ => Some (Eq lhs rhs)
  | NEQ => Some (Neq lhs rhs)
  | GT => Some (Gt lhs rhs)
  | GTE => Some (Gte lhs rhs)
  | LT => Some (Lt lhs rhs)
  | LTE => Some (Lte lhs rhs)
  | AND => Some (And lhs rhs)
  | OR => Some (Or lhs rhs)
  | ADD => Some (Add lhs rhs)
  | SUB => Some (Sub lhs rhs)
  | MUL => Some (Mul lhs rhs)
  | DIV => Some (Div lhs rhs)
  | MOD => Some (Mod lhs rhs)
  | BITWISEAND => Some (BitwiseAnd lhs rhs)
  | BITWISEOR => Some (BitwiseOr lhs rhs)
  | BITWISEXOR => Some (BitwiseXor lhs rhs)
  | IN => Some (In lhs rhs)
  | IS => Some (Is lhs rhs)
  | _ => None
  end.

(** The walk down the right spine in [ParseExpr].  [right] is the
    right-hand child of the node the walk stands on, and the result is
    the right-hand child that node has when the walk is over: the new
    operator node over [right] where the walk stops, [right] with its own
    right-hand child rebuilt where it descends.  [None] is the panic of
    [opToExpr]. *)
Fixpoint climb (op : Token) (rhs : Expr) (right : Expr) : option Expr :=
  match right with
  | BinaryOp o l r =>
      if (scanner.Precedence op <=? expr.Precedence o)%Z
      then opToExpr op right rhs
      else option_map (BinaryOp o l) (climb op rhs r)
  | _ => opToExpr op right rhs
  end.

Section Parsing.

Variable env : Extern.
Variable input : list TokenInfo.

(** Modelled from the spec: [scanner.Tokstr], the lexeme of a token, or
    the name of its kind when it has none. *)
Definition Tokstr (tok : Token) (lit : string) : string :=
  match lit with
  | EmptyString => tokenString env tok
  | _ => lit
  end.

(** [strconv.ParseFloat s 64]. *)
Definition ParseFloat (s : string) : option spec_float :=
  match strconv.decimal s with
  | Some (neg, m) => strconv.roundInteger neg m
  | None => parseFloatSyntax env s
  end.

(** Modelled from the spec: [expr.GetFunc], the resolution of a function
    name against the registry: [pk] without arguments is the primary-key
    node, a registered name and arity a call node, anything else an
    error. *)
Definition GetFunc (name : string) (args : list Expr) : option Expr :=
  if String.eqb name "pk" then
    match args with
    | [] => Some PKFunc
    | _ => None
    end
  else if registered env name (List.length args)
  then Some (FuncCall name args)
  else None.

Definition resolve (name : string) (args : list Expr) (p : Parser)
    : Outcome Expr :=
  match GetFunc name args with
  | Some e => Ok e p
  | None => Fail (ResolveErr name) p
  end.

Definition mixedParams : string :=
  "can't mix positional arguments with named arguments".

Definition expected (ti : TokenInfo) (what : list string) : error :=
  ParseErr (newParseError (Tokstr (Tok ti) (Lit ti)) what (TPos ti)).

(** [parseIdent] parses an identifier. *)
Definition parseIdent (p : Parser) : Outcome string :=
  let (ti, p1) := ScanIgnoreWhitespace input p in
  if negb (Token_eqb (Tok ti) IDENT)
  then Fail (expected ti ["identifier"]) p1
  else Ok (Lit ti) p1.

(** [parseType]: the type a type keyword names; any other token is
    pushed back. *)
Definition parseType (p : Parser) : option document.ValueType * Parser :=
  let (ti, p1) := ScanIgnoreWhitespace input p in
  match Tok ti with
  | TYPEBYTES => (Some document.BlobValue, p1)
  | TYPESTRING => (Some document.TextValue, p1)
  | TYPEBOOL => (Some document.BoolValue, p1)
  | TYPEINT8 => (Some document.Int8Value, p1)
  | TYPEINT16 => (Some document.Int16Value, p1)
  | TYPEINT32 => (Some document.Int32Value, p1)
  | TYPEINT64 | TYPEINT | TYPEINTEGER => (Some document.Int64Value, p1)
  | TYPEFLOAT64 | TYPENUMERIC => (Some document.Float64Value, p1)
  | TYPETEXT => (Some document.TextValue, p1)
  | TYPEDURATION => (Some document.DurationValue, p1)
  | _ => (None, Unscan input p1)
  end.

(** The loop of [parseFieldRef]: one segment for a dot and an identifier,
    one for a number that begins with a dot. *)
Fixpoint parseFieldRefLoop (fuel : nat) (fieldRef : list string)
    (p : Parser) : Outcome (list string) :=
  match fuel with
  | O => OutOfFuel
  | S fuel' =>
      let (ti, p1) := Scan input p in
      match Tok ti with
      | DOT =>
          let (ti2, p2) := Scan input p1 in
          if negb (Token_eqb (Tok ti2) IDENT)
          then Fail (ParseErr (newParseError (Lit ti2)
                                 ["array index"; "identifier"] (TPos ti2))) p2
          else parseFieldRefLoop fuel' (fieldRef ++ [Lit ti2]) p2
      | NUMBER =>
          match Lit ti with
          | EmptyString => Panicked "index out of range"
          | String c lit' =>
              if negb (Ascii.eqb c ".")
              then Ok fieldRef (Unscan input p1)
              else parseFieldRefLoop fuel' (fieldRef ++ [lit']) p1
          end
      | _ => Ok fieldRef (Unscan input p1)
      end
  end.

(** [parseFieldRef] parses a field reference: ident (.ident|integer)* *)
Definition parseFieldRef (fuel : nat) (p : Parser) : Outcome (list string) :=
  do (chunk, p1) <- parseIdent p;
  parseFieldRefLoop fuel [chunk] p1.

(** The deferred function of [ParseExpr]: the call that made the capture
    buffer drops it on the way out. *)
Definition release {A : Type} (own : bool) (o : Outcome A) : Outcome A :=
  if own then
    match o with
    | Ok a p => Ok a (setBuf p None)
    | Fail e p => Fail e (setBuf p None)
    | _ => o
    end
  else o.

(** [Buffer.String] of a possibly nil buffer. *)
Definition bufString (p : Parser) : string :=
  match buf p with
  | Some b => b
  | None => "<nil>"
  end.

(** The functions below call [ParseExpr], which calls them.  They are
    written over [recur], the [ParseExpr] they call, and [ParseExpr] is
    tied to them at the end. *)
Section Recursion.

Variable recur : Parser -> Outcome (Expr * string).

(** The turns every loop is given. *)
Variable bound : nat.

(** [parseKV] parses a key-value pair in the form IDENT : Expr. *)
Definition parseKV (p : Parser) : Outcome KVPair :=
  let (ti, p1) := ScanIgnoreWhitespace input p in
  if Token_eqb (Tok ti) IDENT || Token_eqb (Tok ti) STRING
  then
    let k := Lit ti in
    let (ti2, p2) := ScanIgnoreWhitespace input p1 in
    if negb (Token_eqb (Tok ti2) COLON)
    then Fail (expected ti2 [":"]) (Unscan input p2)
    else
      do (r, p3) <- recur p2;
      Ok (k, fst r) p3
  else Fail (expected ti ["ident"; "string"]) p1.

(** The loop of [parseDocument] over the pairs: it ends, without an
    error of its own, at the first pair that does not parse or that no
    comma follows. *)
Fixpoint parseDocumentLoop (fuel : nat) (pairs : list KVPair) (p : Parser)
    : Outcome (list KVPair) :=
  match fuel with
  | O => OutOfFuel
  | S fuel' =>
      match parseKV p with
      | Fail _ p1 => Ok pairs (Unscan input p1)
      | Ok kv p1 =>
          let pairs' := pairs ++ [kv] in
          let (ti, p2) := ScanIgnoreWhitespace input p1 in
          if negb (Token_eqb (Tok ti) COMMA)
          then Ok pairs' (Unscan input p2)
          else parseDocumentLoop fuel' pairs' p2
      | Panicked msg => Panicked msg
      | OutOfFuel => OutOfFuel
      end
  end.

(** [parseDocument] parses a document. *)
Definition parseDocument (p : Parser) : Outcome (Expr * bool) :=
  let (ti, p1) := ScanIgnoreWhitespace input p in
  if negb (Token_eqb (Tok ti) LBRACKET)
  then Ok (NilExpr, false) (Unscan input p1)
  else
    do (pairs, p2) <- parseDocumentLoop bound [] p1;
    let (ti3, p3) := ScanIgnoreWhitespace input p2 in
    if negb (Token_eqb (Tok ti3) RBRACKET)
    then Fail (expected ti3 ["}"]) p3
    else Ok (KVPairs pairs, true) p3.

(** The loop of [parseExprList] over the elements: it ends, without an
    error of its own, at the first element that does not parse or that no
    comma follows. *)
Fixpoint parseExprListLoop (fuel : nat) (exprList : list Expr) (p : Parser)
    : Outcome (list Expr) :=
  match fuel with
  | O => OutOfFuel
  | S fuel' =>
      match recur p with
      | Fail _ p1 => Ok exprList (Unscan input p1)
      | Ok r p1 =>
          let exprList' := exprList ++ [fst r] in
          let (ti, p2) := ScanIgnoreWhitespace input p1 in
          if negb (Token_eqb (Tok ti) COMMA)
          then Ok exprList' (Unscan input p2)
          else parseExprListLoop fuel' exprList' p2
      | Panicked msg => Panicked msg
      | OutOfFuel => OutOfFuel
      end
  end.

(** [parseExprList] parses a list of expressions between two delimiters. *)
Definition parseExprList (leftToken rightToken : Token) (p : Parser)
    : Outcome (list Expr) :=
  let (ti, p1) := ScanIgnoreWhitespace input p in
  if negb (Token_eqb (Tok ti) leftToken)
  then Fail (expected ti [tokenString env leftToken]) p1
  else
    do (exprList, p2) <- parseExprListLoop bound [] p1;
    let (ti3, p3) := ScanIgnoreWhitespace input p2 in
    if negb (Token_eqb (Tok ti3) rightToken)
    then Fail (expected ti3 [tokenString env rightToken]) p3
    else Ok exprList p3.

(** The loop of [parseFunction] over the arguments. *)
Fixpoint parseFunctionLoop (fuel : nat) (fname : string)
    (exprs : list Expr) (p : Parser) : Outcome Expr :=
  match fuel with
  | O => OutOfFuel
  | S fuel' =>
      do (r, p1) <- recur p;
      let exprs' := exprs ++ [fst r] in
      let (ti, p2) := ScanIgnoreWhitespace input p1 in
      if negb (Token_eqb (Tok ti) COMMA)
      then resolve fname exprs' (Unscan input p2)
      else parseFunctionLoop fuel' fname exprs' p2
  end.

(** [parseFunction] parses a function call: an identifier, a parenthesis,
    and the arguments. *)
Definition parseFunction (p : Parser) : Outcome Expr :=
  do (fname, p1) <- parseIdent p;
  let (ti, p2) := ScanIgnoreWhitespace input p1 in
  if negb (Token_eqb (Tok ti) LPAREN)
  then Fail (expected ti ["("]) p2
  else
    let (ti3, p3) := ScanIgnoreWhitespace input p2 in
    if Token_eqb (Tok ti3) RPAREN
    then resolve fname [] p3
    else parseFunctionLoop bound fname [] (Unscan input p3).

(** [parseCastExpression] parses CAST(expr AS type). *)
Definition parseCastExpression (p : Parser) : Outcome Expr :=
  let (ti, p1) := ScanIgnoreWhitespace input p in
  if negb (Token_eqb (Tok ti) CAST)
  then Fail (expected ti ["CAST"]) p1
  else
    let (ti2, p2) := ScanIgnoreWhitespace input p1 in
    if negb (Token_eqb (Tok ti2) LPAREN)
    then Fail (expected ti2 ["("]) p2
    else
      do (r, p3) <- recur p2;
      let (ti4, p4) := ScanIgnoreWhitespace input p3 in
      if negb (Token_eqb (Tok ti4) AS)
      then Fail (expected ti4 ["AS"]) p4
      else
        match parseType p4 with
        | (None, p5) =>
            let (ti6, p6) := ScanIgnoreWhitespace input p5 in
            Fail (expected ti6 ["type"]) (Unscan input p6)
        | (Some tp, p5) =>
            let (ti6, p6) := ScanIgnoreWhitespace input p5 in
            if negb (Token_eqb (Tok ti6) RPAREN)
            then Fail (expected ti6 [")"]) p6
            else Ok (Cast (fst r) tp) p6
        end.

(** [parseUnaryExpr] parses a non-binary expression. *)
Definition parseUnaryExpr (p : Parser) : Outcome Expr :=
  let (ti, p1) := ScanIgnoreWhitespace input p in
  match Tok ti with
  | CAST => parseCastExpression (Unscan input p1)
  | IDENT =>
      let (ti1, p2) := Scan input p1 in
      if Token_eqb (Tok ti1) LPAREN
      then parseFunction (Unscan input (Unscan input p2))
      else
        do (field, p3) <- parseFieldRef bound (Unscan input (Unscan input p2));
        Ok (FieldSelector field) p3
  | NAMEDPARAM =>
      if (String.length (Lit ti) =? 1)%nat
      then Fail (messageError "missing param name") p1
      else if (0 <? orderedParams p1)%Z
      then Fail (messageError mixedParams) p1
      else
        match Lit ti with
        | EmptyString => Panicked "slice bounds out of range"
        | String _ name =>
            Ok (NamedParam name)
               (mkParser (pos p1) (orderedParams p1)
                  (namedParams p1 + 1) (buf p1))
        end
  | POSITIONALPARAM =>
      if (0 <? namedParams p1)%Z
      then Fail (messageError mixedParams) p1
      else
        Ok (PositionalParam (orderedParams p1 + 1))
           (mkParser (pos p1) (orderedParams p1 + 1)
              (namedParams p1) (buf p1))
  | STRING => Ok (TextValue (Lit ti)) p1
  | NUMBER =>
      match ParseFloat (Lit ti) with
      | Some v => Ok (Float64Value v) p1
      | None =>
          Fail (ParseErr (mkParseError "unable to parse number"
                            EmptyString [] (TPos ti))) p1
      end
  | INTEGER =>
      match strconv.Atoi (Lit ti) with
      | Some v => Ok (IntValue v) p1
      | None =>
          match ParseFloat (Lit ti) with
          | Some v => Ok (Float64Value v) p1
          | None =>
              Fail (ParseErr (mkParseError "unable to parse integer"
                                EmptyString [] (TPos ti))) p1
          end
      end
  | TRUE | FALSE => Ok (BoolValue (Token_eqb (Tok ti) TRUE)) p1
  | NULL => Ok NullValue p1
  | DURATION =>
      match ParseDuration env (Lit ti) with
      | Some d => Ok (DurationValue d) p1
      | None =>
          Fail (ParseErr (mkParseError "unable to parse duration"
                            EmptyString [] (TPos ti))) p1
      end
  | LBRACKET =>
      do (r, p2) <- parseDocument (Unscan input p1);
      Ok (fst r) p2
  | LSBRACKET =>
      do (l, p2) <- parseExprList LSBRACKET RSBRACKET (Unscan input p1);
      Ok (LiteralExprList l) p2
  | LPAREN =>
      do (l, p2) <- parseExprList LPAREN RPAREN (Unscan input p1);
      Ok (LiteralExprList l) p2
  | _ =>
      Fail (expected ti ["identifier"; "string"; "number"; "bool"]) p1
  end.

(** The loop of [ParseExpr]; [root] is the right-hand child of the dummy
    root node. *)
Fixpoint parseExprLoop (fuel : nat) (root : Expr) (p : Parser)
    : Outcome (Expr * string) :=
  match fuel with
  | O => OutOfFuel
  | S fuel' =>
      let (op, p1) := ScanIgnoreWhitespace input p in
      if negb (IsOperator (Tok op))
      then
        let p2 := Unscan input p1 in
        Ok (root, strings.TrimSpace (bufString p2)) p2
      else
        do (rhs, p2) <- parseUnaryExpr p1;
        match climb (Tok op) rhs root with
        | Some root' => parseExprLoop fuel' root' p2
        | None => Panicked "unknown operator"
        end
  end.

(** The body of [ParseExpr]: the capture buffer is made if there is none,
    a first non-binary expression is parsed, and the loop takes over. *)
Definition parseExprBody (p : Parser) : Outcome (Expr * string) :=
  let own := match buf p with None => true | Some _ => false end in
  let p0 := if own then setBuf p (Some EmptyString) else p in
  release own
    (do (e, p1) <- parseUnaryExpr p0;
     parseExprLoop bound e p1).

End Recursion.

(** [ParseExpr] parses an expression.  [fuel] bounds the depth to which
    expressions nest and, inside each, the turns of the loops. *)
Fixpoint ParseExpr (fuel : nat) (p : Parser) : Outcome (Expr * string) :=
  match fuel with
  | O => OutOfFuel
  | S fuel' => parseExprBody (ParseExpr fuel') fuel' p
  end.

End Parsing.

Arguments Scan : simpl never.
Arguments Unscan : simpl never.
Arguments ScanIgnoreWhitespace : simpl never.
Arguments parseIdent : simpl never.
Arguments parseType : simpl never.
Arguments parseFieldRef : simpl never.
Arguments resolve : simpl never.
Arguments Tokstr : simpl never.
Arguments expected : simpl never.
Arguments bind {A B} !m k.
Arguments release {A} !own !o.
Arguments parseKV : simpl never.
Arguments parseDocument : simpl never.
Arguments parseExprList : simpl never.
Arguments parseFunction : simpl never.
Arguments parseCastExpression : simpl never.
Arguments parseUnaryExpr : simpl never.
Arguments parseExprBody : simpl never.

(** ** Inputs *)

(** Token streams are written with a few abbreviations: a token of a kind
    with its lexeme and source bytes, a blank, an identifier, an integer,
    and a token that has no lexeme of its own (punctuation, operators and
    keywords). *)
Definition tk (t : Token) (lit raw : string) : TokenInfo :=
  mkTokenInfo t (0, 0) lit raw.
Definition blank : TokenInfo := tk WS " " " ".
Definition ident (s : string) : TokenInfo := tk IDENT s s.
Definition integer (s : string) : TokenInfo := tk INTEGER s s.
Definition sym (t : Token) (raw : string) : TokenInfo := tk t "" raw.

(** An outcome other than the bound on the recursion reached. *)
Definition done {A : Type} (o : Outcome A) : Prop := o <> OutOfFuel.

(** [r'] answers as [r] wherever [r] does not run out of fuel. *)
Definition extends {A : Type} (r r' : Parser -> Outcome A) : Prop :=
  forall p, done (r p) -> r' p = r p.

(** An environment that knows no function and no number syntax beyond
    the decimal integers: enough for inputs that use neither. *)
Definition bareExtern : Extern :=
  mkExtern (fun _ => "token") (fun _ => None) (fun _ => None)
    (fun _ _ => false).

(** CAST(a.b.1.0 AS TEXT): the scanner reads [.1] and [.0] as numbers. *)
Definition castInput : list TokenInfo :=
  [sym CAST "CAST"; sym LPAREN "("; ident "a"; sym DOT "."; ident "b";
   tk NUMBER ".1" ".1"; tk NUMBER ".0" ".0"; blank; sym AS "AS"; blank;
   sym TYPETEXT "TEXT"; sym RPAREN ")"].

(** A double quote, and a string between two of them. *)
Definition dquote : string := String (ascii_of_nat 34) EmptyString.
Definition quoted (s : string) : string := (dquote ++ s ++ dquote)%string.

(** The document of three pairs under one key: a: 1, a: 2 and, its key
    between double quotes, a: 3. *)
Definition sameKeyInput : list TokenInfo :=
  [sym LBRACKET "{"; ident "a"; sym COLON ":"; blank; integer "1";
   sym COMMA ","; blank; ident "a"; sym COLON ":"; blank; integer "2";
   sym COMMA ","; blank; tk STRING "a" (quoted "a"); sym COLON ":"; blank;
   integer "3"; sym RBRACKET "}"].



(** (?, $foo) *)
Definition mixedListInput : list TokenInfo :=
  [sym LPAREN "("; sym POSITIONALPARAM "?"; sym COMMA ","; blank;
   tk NAMEDPARAM "$foo" "$foo"; sym RPAREN ")"].

(** The tokens a non-binary expression can begin with: on any other
    token [parseUnaryExpr] fails at once. *)
Definition startsPrimary (tok : Token) : bool :=
  match tok with
  | CAST | IDENT | NAMEDPARAM | POSITIONALPARAM | STRING | NUMBER | INTEGER
  | TRUE | FALSE | NULL | DURATION | LBRACKET | LSBRACKET | LPAREN => true
  | _ => false
  end.

(** [ParseExpr] as the parser of one element of a list. *)
Definition element (recur : Parser -> Outcome (Expr * string))
    (p : Parser) : Outcome Expr :=
  do (r, q) <- recur p; Ok (fst r) q.

(** From [p], the items [l] are parsed one after the other by [parseOne],
    a comma after each of them; the comma after the last one leaves the
    parser at [q]. *)
Inductive commaSeparated {A : Type} (input : list TokenInfo)
    (parseOne : Parser -> Outcome A) : Parser -> list A -> Parser -> Prop :=
  | cs_last p a p1 ti p2 :
      parseOne p = Ok a p1 ->
      ScanIgnoreWhitespace input p1 = (ti, p2) ->
      Tok ti = COMMA ->
      commaSeparated input parseOne p [a] p2
  | cs_more p a p1 ti p2 l q :
      parseOne p = Ok a p1 ->
      ScanIgnoreWhitespace input p1 = (ti, p2) ->
      Tok ti = COMMA ->
      commaSeparated input parseOne p2 l q ->
      commaSeparated input parseOne p (a :: l) q.

(** {a: 1,} *)
Definition trailingCommaDocument : list TokenInfo :=
  [sym LBRACKET "{"; ident "a"; sym COLON ":"; blank; integer "1";
   sym COMMA ","; sym RBRACKET "}"].

(** (1, 2,) *)
Definition trailingCommaList : list TokenInfo :=
  [sym LPAREN "("; integer "1"; sym COMMA ","; blank; integer "2";
   sym COMMA ","; sym RPAREN ")"].

(** [1,] *)
Definition trailingCommaArray : list TokenInfo :=
  [sym LSBRACKET "["; integer "1"; sym COMMA ","; sym RSBRACKET "]"].

(** The operators down the right spine of a tree, from its root. *)
Fixpoint rightSpine (e : Expr) : list Operator :=
  match e with
  | BinaryOp o _ r => o :: rightSpine r
  | _ => []
  end.

(** An expression that is no operator node. *)
Definition isLeaf (e : Expr) : Prop :=
  match e with
  | BinaryOp _ _ _ => False
  | _ => True
  end.

(** The shape the specification states: no operator node of a precedence
    strictly lower than that of an operator on the right spine below it. *)
Fixpoint noLowerAncestor (e : Expr) : Prop :=
  match e with
  | BinaryOp o l r =>
      Forall (fun d => ~ (expr.Precedence o < expr.Precedence d)%Z)
        (rightSpine r)
      /\ noLowerAncestor l /\ noLowerAncestor r
  | _ => True
  end.

(** The shape the climber builds: under an operator node, every operator
    down the right spine of its right operand binds strictly tighter, and
    every operator down the right spine of its left operand binds at
    least as tight. *)
Fixpoint climbed (e : Expr) : Prop :=
  match e with
  | BinaryOp o l r =>
      Forall (fun d => (expr.Precedence o < expr.Precedence d)%Z)
        (rightSpine r)
      /\ Forall (fun d => (expr.Precedence o <= expr.Precedence d)%Z)
           (rightSpine l)
      /\ climbed l /\ climbed r
  | _ => True
  end.

(** 4 > 1 + 2 *)
Definition precedenceInput : list TokenInfo :=
  [integer "4"; blank; sym GT ">"; blank; integer "1"; blank; sym ADD "+";
   blank; integer "2"].

(** a - b - c *)
Definition tieInput : list TokenInfo :=
  [ident "a"; blank; sym SUB "-"; blank; ident "b"; blank; sym SUB "-";
   blank; ident "c"].

(** The input has a NUMBER or a NAMEDPARAM token with no lexeme at all,
    which the scanner never delivers. *)
Definition emptyLexeme (input : list TokenInfo) : Prop :=
  exists i,
    (Tok (tokenAt input i) = NUMBER \/ Tok (tokenAt input i) = NAMEDPARAM)
    /\ Lit (tokenAt input i) = EmptyString.

(** The panics that are not the one of [opToExpr], and arise only from a
    token without a lexeme. *)
Definition lexemePanic (input : list TokenInfo) (msg : string) : Prop :=
  emptyLexeme input /\ msg <> "unknown operator".

(** The list of the list holding ? + in parentheses, and of ?. *)
Definition gapInput : list TokenInfo :=
  [sym LSBRACKET "["; sym LPAREN "("; sym POSITIONALPARAM "?"; blank;
   sym ADD "+"; blank; sym RPAREN ")"; sym COMMA ","; blank;
   sym POSITIONALPARAM "?"; sym RSBRACKET "]"].

(** ** The parser against its input, and two inputs against each other *)

(** Same counters, and a capture buffer in both or in neither. *)
Definition sameState (p q : Parser) : Prop :=
  orderedParams p = orderedParams q /\ namedParams p = namedParams q /\
  (buf p = None <-> buf q = None).

(** Where an outcome leaves the parser, against where it was: at least
    [dOk] tokens further after a value, [dFail] after an error. *)
Definition advances {A : Type} (dOk dFail : nat) (p : Parser)
    (o : Outcome A) : Prop :=
  match o with
  | Ok _ q => pos p + dOk <= pos q
  | Fail _ q => pos p + dFail <= pos q
  | _ => True
  end.

(** The source bytes of a run of tokens. *)
Definition raws (l : list TokenInfo) : string :=
  fold_right (fun ti s => (Raw ti ++ s)%string) EmptyString l.

(** The tokens that a parser at position [n] has read: the first [n] of
    the input, which the end-of-input token follows for ever. *)
Definition consumed (input : list TokenInfo) (n : nat) : list TokenInfo :=
  map (tokenAt input) (seq 0 n).

(** The capture buffer holds the source bytes of the tokens before the
    current position. *)
Definition captured (input : list TokenInfo) (p : Parser) : Prop :=
  buf p = Some (raws (consumed input (pos p))).

(** An outcome leaves the parser in a state of which [I] holds. *)
Definition leaves {A : Type} (I : Parser -> Prop) (o : Outcome A) : Prop :=
  match o with
  | Ok _ q => I q
  | Fail _ q => I q
  | _ => True
  end.

(** The parser has not taken parameters of both kinds. *)
Definition exclusive (p : Parser) : Prop :=
  (0 <= orderedParams p /\ 0 <= namedParams p /\
   (orderedParams p = 0 \/ namedParams p = 0))%Z.

(** Two outcomes of [ParseExpr] agree on the expression. *)
Definition sameExpr (a a' : Expr * string) : Prop := fst a = fst a'.

(** ** Two inputs, the second the trimmed slice of the first

    The first input has white space up to [k], tokens up to [E], white
    space again up to [B], and at [B] a token that is no white space.
    The second input has the tokens from [k] to [E] and nothing else. *)

(** The second parser is where the first is: [k] tokens to the left
    within the common part, or both are before what follows it, the
    first at [B] and the second at its end of input. *)
Definition synced (k E B : nat) (p1 p2 : Parser) : Prop :=
  sameState p1 p2 /\
  ((k <= pos p1 <= E /\ pos p1 = pos p2 + k) \/
   (pos p1 = B /\ pos p2 + k = E)).

(** The first parser is in the white space that the second input lacks,
    the second at the start of its input. *)
Definition leading (k : nat) (p1 p2 : Parser) : Prop :=
  sameState p1 p2 /\ pos p1 < k /\ pos p2 = 0.

Definition related (k E B : nat) (p1 p2 : Parser) : Prop :=
  synced k E B p1 p2 \/ leading k p1 p2.

(** The first parser has read a token after the common part, the second
    its end of input. *)
Definition crossed (k E B : nat) (q1 q2 : Parser) : Prop :=
  sameState q1 q2 /\ pos q2 + k = E + 1 /\
  (pos q1 = E + 1 \/ pos q1 = B + 1).

(** The outcome of the second parser mirrors that of the first, as far
    as the first stays within the slice: a value that leaves it before
    [n] is also the value of the second, up to [Rv], and an error that
    leaves it within the common part is also an error of the second; in
    both cases the parsers end related. *)
Definition mirrorsBelow {A : Type} (k E B n : nat) (Rv : A -> A -> Prop)
    (o1 o2 : Outcome A) : Prop :=
  match o1 with
  | Ok a q1 =>
      pos q1 < n ->
      exists a' q2, o2 = Ok a' q2 /\ Rv a a' /\ related k E B q1 q2
  | Fail _ q1 =>
      pos q1 <= E ->
      exists e' q2, o2 = Fail e' q2 /\ related k E B q1 q2
  | _ => True
  end.

(** An outcome that has left the slice. *)
Definition escapes {A : Type} (E B : nat) (o : Outcome A) : Prop :=
  match o with
  | Ok _ q => B < pos q
  | Fail _ q => E < pos q
  | _ => True
  end.

(** The white space at the front of a run of tokens dropped. *)
Fixpoint dropSpace (l : list TokenInfo) : list TokenInfo :=
  match l with
  | ti :: l' => if Token_eqb (Tok ti) WS then dropSpace l' else l
  | [] => []
  end.

(** Modelled from the spec: the tokens that the scanner reads from the
    text of a slice once [strings.TrimSpace] has taken the white space
    off its two ends, which are the tokens of the slice without the
    white-space tokens at its two ends. *)
Definition trimTokens (l : list TokenInfo) : list TokenInfo :=
  rev (dropSpace (rev (dropSpace l))).

(** What the scanner is expected to deliver: a white-space token is made
    of white space only, and any other token has source bytes that
    neither begin nor end with white space. *)
Definition lexed (ti : TokenInfo) : Prop :=
  if Token_eqb (Tok ti) WS
  then strings.trimLeft (Raw ti) = EmptyString
  else Raw ti <> EmptyString /\ strings.TrimSpace (Raw ti) = Raw ti.

(**  4 > 1 ) *)
Definition roundTripInput : list TokenInfo :=
  [blank; integer "4"; blank; sym GT ">"; blank; integer "1"; blank;
   sym RPAREN ")"].

(** ** The functions of [expr.go] that the statement parsers call *)

Section Statements.

Variable env : Extern.
Variable input : list TokenInfo.

(** The loop of [parseIdentList] over the identifiers that follow the
    first: it ends at the first token that is no comma, which it pushes
    back, and after a comma it asks for an identifier. *)
Fixpoint parseIdentListLoop (fuel : nat) (idents : list string)
    (p : Parser) : Outcome (list string) :=
  match fuel with
  | O => OutOfFuel
  | S fuel' =>
      let (ti, p1) := ScanIgnoreWhitespace input p in
      if negb (Token_eqb (Tok ti) COMMA)
      then Ok idents (Unscan input p1)
      else
        do (ident, p2) <- parseIdent env input p1;
        parseIdentListLoop fuel' (idents ++ [ident]) p2
  end.

(** [parseIdentList] parses a comma delimited list of identifiers. *)
Definition parseIdentList (fuel : nat) (p : Parser)
    : Outcome (list string) :=
  do (ident, p1) <- parseIdent env input p;
  parseIdentListLoop fuel [ident] p1.

(** [parseParam] parses a positional or named param; on any other token
    it returns Go's nil expression and no error. *)
Definition parseParam (p : Parser) : Outcome Expr :=
  let (ti, p1) := ScanIgnoreWhitespace input p in
  match Tok ti with
  | NAMEDPARAM =>
      if (String.length (Lit ti) =? 1)%nat
      then Fail (messageError "missing param name") p1
      else if (0 <? orderedParams p1)%Z
      then Fail (messageError mixedParams) p1
      else
        match Lit ti with
        | EmptyString => Panicked "slice bounds out of range"
        | String _ name =>
            Ok (NamedParam name)
               (mkParser (pos p1) (orderedParams p1)
                  (namedParams p1 + 1) (buf p1))
        end
  | POSITIONALPARAM =>
      if (0 <? namedParams p1)%Z
      then Fail (messageError mixedParams) p1
      else
        Ok (PositionalParam (orderedParams p1 + 1))
           (mkParser (pos p1) (orderedParams p1 + 1)
              (namedParams p1) (buf p1))
  | _ => Ok NilExpr p1
  end.

End Statements.

(** ** Where the parser stops, the numbers of the parameters, and the
    order of the operands *)

(** An outcome that is an answer within the input: a value at least [d]
    tokens further and not past the end of the input, an error at most
    one token past it, never the bound on the recursion reached. *)
Definition settles {A : Type} (input : list TokenInfo) (d : nat)
    (p : Parser) (o : Outcome A) : Prop :=
  match o with
  | Ok _ q => pos p + d <= pos q <= List.length input
  | Fail _ q => pos q <= S (List.length input)
  | Panicked _ => True
  | OutOfFuel => False
  end.

(** The indices of the positional parameters of an expression, in the
    order of the source. *)
Fixpoint positionals (e : Expr) : list Z :=
  match e with
  | PositionalParam n => [n]
  | BinaryOp _ l r => positionals l ++ positionals r
  | KVPairs pairs => flat_map (fun kv => positionals (snd kv)) pairs
  | LiteralExprList l => flat_map positionals l
  | Cast e _ => positionals e
  | FuncCall _ args => flat_map positionals args
  | _ => []
  end.

(** The numbers of [l] go up strictly, from above [lo] to [hi] at most. *)
Fixpoint numbered (lo : Z) (l : list Z) (hi : Z) : Prop :=
  match l with
  | [] => (lo <= hi)%Z
  | x :: l' => (lo < x)%Z /\ numbered x l' hi
  end.

(** An outcome whose value holds the positional parameters that [f]
    finds in it, numbered from above [lo] to the counter of the parser;
    after an error the counter is not below what it was at [p]. *)
Definition counts {A : Type} (f : A -> list Z) (lo : Z) (p : Parser)
    (o : Outcome A) : Prop :=
  match o with
  | Ok a q => numbered lo (f a) (orderedParams q)
  | Fail _ q => (orderedParams p <= orderedParams q)%Z
  | _ => True
  end.

(** The operands and the operators of an expression, from left to
    right. *)
Fixpoint inorder (e : Expr) : list (Operator + Expr) :=
  match e with
  | BinaryOp o l r => inorder l ++ inl o :: inorder r
  | _ => [inr e]
  end.

(** From [p], the operators and the operands in [l] are read one after
    the other, an operator token and then what [parseOne] parses, and
    the last operand leaves the parser at [q]. *)
Inductive operatorChain (input : list TokenInfo)
    (parseOne : Parser -> Outcome Expr)
    : Parser -> list (Operator + Expr) -> Parser -> Prop :=
  | oc_end p : operatorChain input parseOne p [] p
  | oc_step p ti p1 o rhs p2 l q :
      ScanIgnoreWhitespace input p = (ti, p1) ->
      opToken o = Tok ti ->
      parseOne p1 = Ok rhs p2 ->
      operatorChain input parseOne p2 l q ->
      operatorChain input parseOne p (inl o :: inr rhs :: l) q.

(** The parser that [ParseExpr] works with: the one it is given, with a
    capture buffer if it had none. *)
Definition buffered (p : Parser) : Parser :=
  match buf p with
  | None => setBuf p (Some EmptyString)
  | Some _ => p
  end.

(** The tokens a field reference is made of. *)
Definition pathToken (tok : Token) : bool :=
  match tok with
  | IDENT | DOT | NUMBER => true
  | _ => false
  end.

(** ** The parse with the operator test as a parameter *)

(** [ParseExpr] asks the scanner whether a token is an operator.  The
    scanner is not among the sources: here the loop of [ParseExpr], its
    body and [ParseExpr] itself are written over the test they ask for,
    and [ParseExpr] is [ParseExprWith IsOperator]. *)
Section OperatorTest.

Variable isOperator : Token -> bool.
Variable env : Extern.
Variable input : list TokenInfo.

Section Recursion.

Variable recur : Parser -> Outcome (Expr * string).
Variable bound : nat.

Fixpoint parseExprLoopWith (fuel : nat) (root : Expr) (p : Parser)
    : Outcome (Expr * string) :=
  match fuel with
  | O => OutOfFuel
  | S fuel' =>
      let (op, p1) := ScanIgnoreWhitespace input p in
      if negb (isOperator (Tok op))
      then
        let p2 := Unscan input p1 in
        Ok (root, strings.TrimSpace (bufString p2)) p2
      else
        do (rhs, p2) <- parseUnaryExpr env input recur bound p1;
        match climb (Tok op) rhs root with
        | Some root' => parseExprLoopWith fuel' root' p2
        | None => Panicked "unknown operator"
        end
  end.

Definition parseExprBodyWith (p : Parser) : Outcome (Expr * string) :=
  let own := match buf p with None => true | Some _ => false end in
  let p0 := if own then setBuf p (Some EmptyString) else p in
  release own
    (do (e, p1) <- parseUnaryExpr env input recur bound p0;
     parseExprLoopWith bound e p1).

End Recursion.

Fixpoint ParseExprWith (fuel : nat) (p : Parser)
    : Outcome (Expr * string) :=
  match fuel with
  | O => OutOfFuel
  | S fuel' => parseExprBodyWith (ParseExprWith fuel') fuel' p
  end.

End OperatorTest.

(** From [p], the input holds the pairs [l], one after the other and a
    comma between two of them: each is a key token, an identifier or a
    string, a colon and an expression, and stands in [l] as the lexeme
    of its key with the expression that [recur] parses after its colon.
    The last expression leaves the parser at [q]. *)
Inductive pairsFrom (input : list TokenInfo)
    (recur : Parser -> Outcome (Expr * string))
    : Parser -> list KVPair -> Parser -> Prop :=
  | pf_last p key p1 colon p2 r p3 :
      ScanIgnoreWhitespace input p = (key, p1) ->
      Tok key = IDENT \/ Tok key = STRING ->
      ScanIgnoreWhitespace input p1 = (colon, p2) ->
      Tok colon = COLON ->
      recur p2 = Ok r p3 ->
      pairsFrom input recur p [(Lit key, fst r)] p3
  | pf_more p key p1 colon p2 r p3 comma p4 l q :
      ScanIgnoreWhitespace input p = (key, p1) ->
      Tok key = IDENT \/ Tok key = STRING ->
      ScanIgnoreWhitespace input p1 = (colon, p2) ->
      Tok colon = COLON ->
      recur p2 = Ok r p3 ->
      ScanIgnoreWhitespace input p3 = (comma, p4) ->
      Tok comma = COMMA ->
      pairsFrom input recur p4 l q ->
      pairsFrom input recur p ((Lit key, fst r) :: l) q.


(** ** More inputs *)

(** a, b FROM *)
Definition identListInput : list TokenInfo :=
  [ident "a"; sym COMMA ","; blank; ident "b"; blank;
   tk (KEYWORD "FROM") "FROM" "FROM"].

(** count(a) *)
Definition callInput : list TokenInfo :=
  [ident "count"; sym LPAREN "("; ident "a"; sym RPAREN ")"].

(** An environment whose registry knows [count] of one argument. *)
Definition countExtern : Extern :=
  mkExtern (fun _ => "token") (fun _ => None) (fun _ => None)
    (fun name n => String.eqb name "count" && (n =? 1)%nat).

(** (1 2) *)
Definition noCommaList : list TokenInfo :=
  [sym LPAREN "("; integer "1"; blank; integer "2"; sym RPAREN ")"].

(** {a: 1 b} *)
Definition noCommaDocument : list TokenInfo :=
  [sym LBRACKET "{"; ident "a"; sym COLON ":"; blank; integer "1"; blank;
   ident "b"; sym RBRACKET "}"].

(** CAST(1 AS) *)
Definition castMissingType : list TokenInfo :=
  [sym CAST "CAST"; sym LPAREN "("; integer "1"; blank; sym AS "AS";
   sym RPAREN ")"].

(** count (a), with a blank before the parenthesis. *)
Definition spacedCallInput : list TokenInfo :=
  [ident "count"; blank; sym LPAREN "("; ident "a"; sym RPAREN ")"].

(** The tokens of the regular-expression operators, which are among
    the other tokens of the scanner. *)
Definition EQREGEX : Token := KEYWORD "=~".
Definition NEQREGEX : Token := KEYWORD "!~".

(** An operator test that accepts the eighteen operators and the two
    regular-expression operators. *)
Definition withRegex (tok : Token) : bool :=
  IsOperator tok || Token_eqb tok EQREGEX || Token_eqb tok NEQREGEX.

(** a =~ b *)
Definition regexInput : list TokenInfo :=
  [ident "a"; blank; sym EQREGEX "=~"; blank; ident "b"].

(** The document of x: 1, of y: 2 under a key between double quotes, and
    of x: 3. *)
Definition mixedKeysInput : list TokenInfo :=
  [sym LBRACKET "{"; ident "x"; sym COLON ":"; blank; integer "1";
   sym COMMA ","; blank; tk STRING "y" (quoted "y"); sym COLON ":"; blank;
   integer "2"; sym COMMA ","; blank; ident "x"; sym COLON ":"; blank;
   integer "3"; sym RBRACKET "}"].


(** * Properties *)

Lemma Token_eqb_eq (a b : Token) : Token_eqb a b = true <-> a = b.
Proof.
  unfold Token_eqb. destruct (Token_eq_dec a b); split; congruence.
Qed.

Lemma Token_eqb_refl (a : Token) : Token_eqb a a = true.
Proof. apply Token_eqb_eq. reflexivity. Qed.

Lemma Token_eqb_neq (a b : Token) : Token_eqb a b = false <-> a <> b.
Proof.
  unfold Token_eqb. destruct (Token_eq_dec a b); split; congruence.
Qed.

(** ** More fuel changes no answer *)

Lemma bind_done {A B : Type} (m : Outcome A)
    (k : A -> Parser -> Outcome B) :
  done (bind m k) -> done m.
Proof. destruct m; cbn; unfold done; congruence. Qed.

Lemma release_done {A : Type} (own : bool) (o : Outcome A) :
  done (release own o) -> done o.
Proof. destruct own, o; cbn; unfold done; congruence. Qed.

(** Closes a goal whose two sides are the same, or whose premise says
    that an answer which is [OutOfFuel] is not. *)
Ltac fin :=
  try reflexivity;
  try (let Hd := fresh "Hd" in
       intros Hd; exfalso; apply Hd; reflexivity).

(** Splits on what the function at the head of the goal looks at next. *)
Ltac brk0 :=
  match goal with
  | |- context [let (_, _) := ?x in _] => destruct x as [? ?] eqn:?
  | |- context [match ?x with (_, _) => _ end] => destruct x as [? ?] eqn:?
  | |- context [if ?c then _ else _] => destruct c eqn:?
  | |- context [match Tok ?t with _ => _ end] => destruct (Tok t) eqn:?
  | |- context [match ?x with Some _ => _ | None => _ end] =>
      destruct x eqn:?
  | |- context [match ?x with EmptyString => _ | String _ _ => _ end] =>
      destruct x eqn:?
  end; cbn [bind release].

Ltac brk := brk0; fin.

(** Uses the monotonicity [L] of the call that a [bind] starts with. *)
Ltac via L :=
  let Hd := fresh "Hd" in
  intros Hd; rewrite L by (exact (bind_done _ _ Hd)); revert Hd;
  match goal with
  | |- done (bind ?m _) -> _ => destruct m
  end; cbn [bind]; fin.

Section Monotone.

Variable env : Extern.
Variable input : list TokenInfo.

Lemma parseFieldRefLoop_mono fuel : forall l p,
  done (parseFieldRefLoop input fuel l p) ->
  forall fuel', fuel <= fuel' ->
  parseFieldRefLoop input fuel' l p = parseFieldRefLoop input fuel l p.
Proof.
  induction fuel as [|fuel IH]; intros l p H fuel' Hle.
  - exfalso. apply H. reflexivity.
  - destruct fuel' as [|fuel']; [lia|]. apply le_S_n in Hle.
    revert H. cbn [parseFieldRefLoop].
    repeat brk; intros H; now apply IH.
Qed.

Lemma parseFieldRef_mono fuel fuel' p :
  fuel <= fuel' ->
  done (parseFieldRef env input fuel p) ->
  parseFieldRef env input fuel' p = parseFieldRef env input fuel p.
Proof.
  intros Hle. unfold parseFieldRef.
  destruct (parseIdent env input p); cbn [bind]; fin.
  intros H. now apply parseFieldRefLoop_mono.
Qed.

Variables recur recur' : Parser -> Outcome (Expr * string).
Variables bound bound' : nat.
Hypothesis Hrecur : extends recur recur'.
Hypothesis Hbound : bound <= bound'.

Lemma parseKV_mono p :
  done (parseKV env input recur p) ->
  parseKV env input recur' p = parseKV env input recur p.
Proof.
  unfold parseKV. repeat brk. via Hrecur.
Qed.

Lemma parseDocumentLoop_mono fuel : forall l p,
  done (parseDocumentLoop env input recur fuel l p) ->
  forall fuel', fuel <= fuel' ->
  parseDocumentLoop env input recur' fuel' l p
  = parseDocumentLoop env input recur fuel l p.
Proof.
  induction fuel as [|fuel IH]; intros l p H fuel' Hle.
  - exfalso. apply H. reflexivity.
  - destruct fuel' as [|fuel']; [lia|]. apply le_S_n in Hle.
    revert H. cbn [parseDocumentLoop].
    destruct (parseKV env input recur p) eqn:E; fin;
      (rewrite parseKV_mono by (rewrite E; discriminate));
      rewrite E; fin.
    repeat brk. intros H. now apply IH.
Qed.

Lemma parseDocument_mono p :
  done (parseDocument env input recur bound p) ->
  parseDocument env input recur' bound' p
  = parseDocument env input recur bound p.
Proof.
  unfold parseDocument. repeat brk.
  intros Hd.
  rewrite (parseDocumentLoop_mono _ _ _ (bind_done _ _ Hd) _ Hbound).
  reflexivity.
Qed.

Lemma parseExprListLoop_mono fuel : forall l p,
  done (parseExprListLoop input recur fuel l p) ->
  forall fuel', fuel <= fuel' ->
  parseExprListLoop input recur' fuel' l p
  = parseExprListLoop input recur fuel l p.
Proof.
  induction fuel as [|fuel IH]; intros l p H fuel' Hle.
  - exfalso. apply H. reflexivity.
  - destruct fuel' as [|fuel']; [lia|]. apply le_S_n in Hle.
    revert H. cbn [parseExprListLoop].
    destruct (recur p) eqn:E; fin;
      (rewrite Hrecur by (rewrite E; discriminate));
      rewrite E; fin.
    repeat brk. intros H. now apply IH.
Qed.

Lemma parseExprList_mono a b p :
  done (parseExprList env input recur bound a b p) ->
  parseExprList env input recur' bound' a b p
  = parseExprList env input recur bound a b p.
Proof.
  unfold parseExprList. repeat brk.
  intros Hd.
  rewrite (parseExprListLoop_mono _ _ _ (bind_done _ _ Hd) _ Hbound).
  reflexivity.
Qed.

Lemma parseFunctionLoop_mono fuel : forall n l p,
  done (parseFunctionLoop env input recur fuel n l p) ->
  forall fuel', fuel <= fuel' ->
  parseFunctionLoop env input recur' fuel' n l p
  = parseFunctionLoop env input recur fuel n l p.
Proof.
  induction fuel as [|fuel IH]; intros n l p H fuel' Hle.
  - exfalso. apply H. reflexivity.
  - destruct fuel' as [|fuel']; [lia|]. apply le_S_n in Hle.
    revert H. cbn [parseFunctionLoop].
    via Hrecur. repeat brk. intros H. now apply IH.
Qed.

Lemma parseFunction_mono p :
  done (parseFunction env input recur bound p) ->
  parseFunction env input recur' bound' p
  = parseFunction env input recur bound p.
Proof.
  unfold parseFunction.
  destruct (parseIdent env input p); cbn [bind]; fin.
  repeat brk. intros H. now apply parseFunctionLoop_mono.
Qed.

Lemma parseCastExpression_mono p :
  done (parseCastExpression env input recur p) ->
  parseCastExpression env input recur' p
  = parseCastExpression env input recur p.
Proof.
  unfold parseCastExpression. repeat brk. via Hrecur.
Qed.

Lemma parseUnaryExpr_mono p :
  done (parseUnaryExpr env input recur bound p) ->
  parseUnaryExpr env input recur' bound' p
  = parseUnaryExpr env input recur bound p.
Proof.
  unfold parseUnaryExpr.
  destruct (ScanIgnoreWhitespace input p) as [ti p1].
  destruct (Tok ti); fin.
  - destruct (Scan input p1) as [ti1 p2].
    destruct (Token_eqb (Tok ti1) LPAREN).
    + apply parseFunction_mono.
    + intros Hd.
      rewrite (parseFieldRef_mono _ _ _ Hbound (bind_done _ _ Hd)).
      reflexivity.
  - intros Hd. now rewrite (parseExprList_mono _ _ _ (bind_done _ _ Hd)).
  - intros Hd. now rewrite (parseDocument_mono _ (bind_done _ _ Hd)).
  - intros Hd. now rewrite (parseExprList_mono _ _ _ (bind_done _ _ Hd)).
  - apply parseCastExpression_mono.
Qed.

Lemma parseExprLoop_mono fuel : forall r p,
  done (parseExprLoop env input recur bound fuel r p) ->
  forall fuel', fuel <= fuel' ->
  parseExprLoop env input recur' bound' fuel' r p
  = parseExprLoop env input recur bound fuel r p.
Proof.
  induction fuel as [|fuel IH]; intros r p H fuel' Hle.
  - exfalso. apply H. reflexivity.
  - destruct fuel' as [|fuel']; [lia|]. apply le_S_n in Hle.
    revert H. cbn [parseExprLoop].
    repeat brk. via parseUnaryExpr_mono.
    repeat brk. intros H. now apply IH.
Qed.

Lemma parseExprBody_mono p :
  done (parseExprBody env input recur bound p) ->
  parseExprBody env input recur' bound' p
  = parseExprBody env input recur bound p.
Proof.
  unfold parseExprBody. intros Hd. apply release_done in Hd.
  f_equal. revert Hd. via parseUnaryExpr_mono.
  intros H. now apply parseExprLoop_mono.
Qed.

End Monotone.

(** An answer of [ParseExpr] that is not [OutOfFuel] stays the answer
    with any larger fuel. *)
Lemma ParseExpr_mono env input fuel : forall fuel' p,
  fuel <= fuel' ->
  done (ParseExpr env input fuel p) ->
  ParseExpr env input fuel' p = ParseExpr env input fuel p.
Proof.
  induction fuel as [|fuel IH]; intros fuel' p Hle H.
  - exfalso. apply H. reflexivity.
  - destruct fuel' as [|fuel']; [lia|]. apply le_S_n in Hle.
    cbn [ParseExpr] in *. apply parseExprBody_mono; auto.
    intros q Hq. now apply IH.
Qed.

Lemma ParseExpr_more env input fuel k p r :
  ParseExpr env input fuel p = r -> done r ->
  ParseExpr env input (fuel + k) p = r.
Proof.
  intros H Hd. subst r. apply ParseExpr_mono; [lia | exact Hd].
Qed.

Lemma Ok_done {A : Type} (a : A) (p : Parser) : done (Ok a p).
Proof. discriminate. Qed.

Lemma Fail_done {A : Type} (e : error) (p : Parser) : done (@Fail A e p).
Proof. discriminate. Qed.

(** ** Properties that every step of the parser keeps *)

Create HintDb keep.

Section Preserved.

Variable env : Extern.
Variable input : list TokenInfo.

(** A property of the parser that scans and pushbacks keep, that the
    count of a parameter keeps where the parameter is taken, and that,
    if a parser without a capture buffer can have it at all, does not
    look at the buffer. *)
Variable Inv : Parser -> Prop.
Hypothesis Inv_Scan : forall p ti q, Scan input p = (ti, q) -> Inv p -> Inv q.
Hypothesis Inv_Unscan : forall p, Inv p -> Inv (Unscan input p).
Hypothesis Inv_named : forall p,
  Inv p -> (0 <? orderedParams p)%Z = false ->
  Inv (mkParser (pos p) (orderedParams p) (namedParams p + 1) (buf p)).
Hypothesis Inv_positional : forall p,
  Inv p -> (0 <? namedParams p)%Z = false ->
  Inv (mkParser (pos p) (orderedParams p + 1) (namedParams p) (buf p)).
Hypothesis Inv_owner : forall p,
  Inv p -> buf p = None -> forall q b, Inv q -> Inv (setBuf q b).

Lemma Inv_ScanIgnoreWhitespace p ti q :
  ScanIgnoreWhitespace input p = (ti, q) -> Inv p -> Inv q.
Proof.
  unfold ScanIgnoreWhitespace. generalize (List.length input - pos p).
  intros n. revert p. induction n as [|n IH]; intros p;
    cbn [scanIgnoreWhitespaceLoop];
    destruct (Scan input p) as [ti' p'] eqn:E.
  - intros H Hc. injection H as <- <-. eauto.
  - destruct (Token_eqb _ _).
    + intros H Hc. eauto.
    + intros H Hc. injection H as <- <-. eauto.
Qed.

Local Hint Resolve Inv_Scan Inv_Unscan Inv_named Inv_positional
  Inv_ScanIgnoreWhitespace : keep.

Ltac keeps := cbn [leaves]; try exact I; eauto 12 with keep.

(** Splits on the outcome of a call that keeps the property by [L]. *)
Ltac kept L :=
  let HL := fresh "HL" in
  match goal with
  | |- context [bind ?m _] =>
      assert (HL : leaves Inv m) by (apply L; keeps);
      destruct m; cbn [bind]; try exact I; try exact HL
  end.

Lemma parseIdent_leaves p : Inv p -> leaves Inv (parseIdent env input p).
Proof. intros H. unfold parseIdent. repeat brk0; keeps. Qed.

Lemma parseType_leaves p o q : parseType input p = (o, q) -> Inv p -> Inv q.
Proof.
  unfold parseType.
  destruct (ScanIgnoreWhitespace input p) as [ti p1] eqn:E.
  destruct (Tok ti); intros H Hp; injection H as <- <-; keeps.
Qed.

Lemma parseFieldRefLoop_leaves fuel : forall l p,
  Inv p -> leaves Inv (parseFieldRefLoop input fuel l p).
Proof.
  induction fuel as [|fuel IH]; intros l p Hp; [exact I|].
  cbn [parseFieldRefLoop].
  destruct (Scan input p) as [ti p1] eqn:E1.
  destruct (Tok ti); try (keeps; fail).
  - destruct (Lit ti); [exact I|].
    destruct (negb _); [keeps|]. apply IH. keeps.
  - destruct (Scan input p1) as [ti2 p2] eqn:E2.
    destruct (negb _); [keeps|]. apply IH. keeps.
Qed.

Lemma parseFieldRef_leaves fuel p :
  Inv p -> leaves Inv (parseFieldRef env input fuel p).
Proof.
  intros Hp. unfold parseFieldRef. kept parseIdent_leaves.
  now apply parseFieldRefLoop_leaves.
Qed.

Variable recur : Parser -> Outcome (Expr * string).
Variable bound : nat.
Hypothesis Hrecur : forall p, Inv p -> leaves Inv (recur p).

Lemma parseKV_leaves p : Inv p -> leaves Inv (parseKV env input recur p).
Proof.
  intros Hp. unfold parseKV. repeat brk0; try (keeps; fail).
  kept Hrecur.
Qed.

Lemma parseDocumentLoop_leaves fuel : forall l p,
  Inv p -> leaves Inv (parseDocumentLoop env input recur fuel l p).
Proof.
  induction fuel as [|fuel IH]; intros l p Hp; [exact I|].
  cbn [parseDocumentLoop].
  pose proof (parseKV_leaves p Hp) as HK.
  destruct (parseKV env input recur p) as [kv p1|e p1| |];
    try exact I; [|keeps].
  destruct (ScanIgnoreWhitespace input p1) as [ti p2] eqn:E.
  destruct (negb _); [keeps|]. apply IH. keeps.
Qed.

Lemma parseDocument_leaves p :
  Inv p -> leaves Inv (parseDocument env input recur bound p).
Proof.
  intros Hp. unfold parseDocument.
  destruct (ScanIgnoreWhitespace input p) as [ti p1] eqn:E.
  destruct (negb _); [keeps|].
  kept parseDocumentLoop_leaves. repeat brk0; keeps.
Qed.

Lemma parseExprListLoop_leaves fuel : forall l p,
  Inv p -> leaves Inv (parseExprListLoop input recur fuel l p).
Proof.
  induction fuel as [|fuel IH]; intros l p Hp; [exact I|].
  cbn [parseExprListLoop].
  pose proof (Hrecur p Hp) as HR.
  destruct (recur p) as [r p1|e p1| |]; try exact I; [|keeps].
  destruct (ScanIgnoreWhitespace input p1) as [ti p2] eqn:E.
  destruct (negb _); [keeps|]. apply IH. keeps.
Qed.

Lemma parseExprList_leaves a b p :
  Inv p -> leaves Inv (parseExprList env input recur bound a b p).
Proof.
  intros Hp. unfold parseExprList.
  destruct (ScanIgnoreWhitespace input p) as [ti p1] eqn:E.
  destruct (negb _); [keeps|].
  kept parseExprListLoop_leaves. repeat brk0; keeps.
Qed.

Lemma resolve_leaves name args p :
  Inv p -> leaves Inv (resolve env name args p).
Proof. intros Hp. unfold resolve. destruct (GetFunc env name args); keeps. Qed.

Lemma parseFunctionLoop_leaves fuel : forall name l p,
  Inv p -> leaves Inv (parseFunctionLoop env input recur fuel name l p).
Proof.
  induction fuel as [|fuel IH]; intros name l p Hp; [exact I|].
  cbn [parseFunctionLoop]. kept Hrecur.
  destruct (ScanIgnoreWhitespace input p0) as [ti p2] eqn:E.
  destruct (negb _).
  - apply resolve_leaves. keeps.
  - apply IH. keeps.
Qed.

Lemma parseFunction_leaves p :
  Inv p -> leaves Inv (parseFunction env input recur bound p).
Proof.
  intros Hp. unfold parseFunction. kept parseIdent_leaves.
  destruct (ScanIgnoreWhitespace input p0) as [ti p2] eqn:E2.
  destruct (negb _); [keeps|].
  destruct (ScanIgnoreWhitespace input p2) as [ti3 p3] eqn:E3.
  destruct (Token_eqb _ _).
  - apply resolve_leaves. keeps.
  - apply parseFunctionLoop_leaves. keeps.
Qed.

Lemma parseCastExpression_leaves p :
  Inv p -> leaves Inv (parseCastExpression env input recur p).
Proof.
  intros Hp. unfold parseCastExpression.
  destruct (ScanIgnoreWhitespace input p) as [ti p1] eqn:E1.
  destruct (negb _); [keeps|].
  destruct (ScanIgnoreWhitespace input p1) as [ti2 p2] eqn:E2.
  destruct (negb _); [keeps|].
  kept Hrecur.
  destruct (ScanIgnoreWhitespace input p0) as [ti4 p4] eqn:E4.
  destruct (negb _); [keeps|].
  destruct (parseType input p4) as [o p5] eqn:ET.
  assert (Inv p5) by (eapply parseType_leaves; [exact ET | keeps]).
  destruct o; repeat brk0; keeps.
Qed.

Lemma parseUnaryExpr_leaves p :
  Inv p -> leaves Inv (parseUnaryExpr env input recur bound p).
Proof.
  intros Hp. unfold parseUnaryExpr.
  destruct (ScanIgnoreWhitespace input p) as [ti p1] eqn:E1.
  destruct (Tok ti) eqn:ET; try (keeps; fail).
  - destruct (Scan input p1) as [ti1 p2] eqn:E2.
    destruct (Token_eqb _ _).
    + apply parseFunction_leaves. keeps.
    + kept parseFieldRef_leaves.
  - repeat brk0; keeps.
  - repeat brk0; keeps.
  - repeat brk0; keeps.
  - repeat brk0; keeps.
  - repeat brk0; keeps.
  - kept parseExprList_leaves.
  - kept parseDocument_leaves.
  - kept parseExprList_leaves.
  - apply parseCastExpression_leaves. keeps.
Qed.

Lemma parseExprLoop_leaves fuel : forall root p,
  Inv p -> leaves Inv (parseExprLoop env input recur bound fuel root p).
Proof.
  induction fuel as [|fuel IH]; intros root p Hp; [exact I|].
  cbn [parseExprLoop].
  destruct (ScanIgnoreWhitespace input p) as [op p1] eqn:E1.
  destruct (negb _); [keeps|].
  kept parseUnaryExpr_leaves.
  destruct (climb _ _ _) as [root'|]; [|exact I].
  apply IH. keeps.
Qed.

Lemma parseExprBody_leaves p :
  Inv p -> leaves Inv (parseExprBody env input recur bound p).
Proof.
  intros Hp. unfold parseExprBody.
  destruct (buf p) eqn:Hb.
  - cbn [release]. kept parseUnaryExpr_leaves.
    now apply parseExprLoop_leaves.
  - pose proof (Inv_owner p Hp Hb) as Hown.
    assert (HL : leaves Inv
              (do (e, p1) <- parseUnaryExpr env input recur bound
                               (setBuf p (Some EmptyString));
               parseExprLoop env input recur bound bound e p1)).
    { kept parseUnaryExpr_leaves. now apply parseExprLoop_leaves. }
    destruct (bind _ _); cbn [release leaves] in *; auto.
Qed.

End Preserved.

Lemma ParseExpr_leaves env input Inv fuel :
  (forall p ti q, Scan input p = (ti, q) -> Inv p -> Inv q) ->
  (forall p, Inv p -> Inv (Unscan input p)) ->
  (forall p, Inv p -> (0 <? orderedParams p)%Z = false ->
     Inv (mkParser (pos p) (orderedParams p) (namedParams p + 1) (buf p))) ->
  (forall p, Inv p -> (0 <? namedParams p)%Z = false ->
     Inv (mkParser (pos p) (orderedParams p + 1) (namedParams p) (buf p))) ->
  (forall p, Inv p -> buf p = None -> forall q b, Inv q -> Inv (setBuf q b)) ->
  forall p, Inv p -> leaves Inv (ParseExpr env input fuel p).
Proof.
  intros H1 H2 H3 H4 H5.
  induction fuel as [|fuel IH]; intros p Hp; [exact I|].
  cbn [ParseExpr]. now apply parseExprBody_leaves.
Qed.


(** ** Bind parameters *)

(** Where the second parameter is an element of a list, the loop of
    [parseExprList] drops the error of the element and pushes its last
    token back: [ParseExpr] fails on (?, $foo) as well, with the error
    of the closing parenthesis that the list expects where it finds
    $foo. *)
Lemma mixed_in_list env k :
  ParseExpr env mixedListInput (3 + k) NewParser
  = Fail (expected env (tk NAMEDPARAM "$foo" "$foo")
            [tokenString env RPAREN])
         (mkParser 5 1 0 None).
Proof.
  apply ParseExpr_more; [vm_compute; reflexivity | discriminate].
Qed.

(** ** Integer literals *)

(** C5.  An INTEGER token whose lexeme is a decimal numeral within the
    signed 64-bit range yields the integer literal of that value; one
    whose numeral is out of that range yields the float literal of the
    binary64 number nearest to it when there is one; a lexeme that is no
    decimal numeral yields what [ParseFloat] makes of it; and when neither
    [Atoi] nor [ParseFloat] accepts the lexeme, the error "unable to parse
    integer".  So 10000000000000000000 yields the float 4882812500000000
    * 2^11, which is 10^19, at every fuel from 2 on. *)
Theorem integer_literal env input recur bound p ti p1 :
  ScanIgnoreWhitespace input p = (ti, p1) ->
  Tok ti = INTEGER ->
  (forall neg m,
     strconv.decimal (Lit ti) = Some (neg, m) ->
     (strconv.minInt64 <= strconv.signed neg m <= strconv.maxInt64)%Z ->
     parseUnaryExpr env input recur bound p
     = Ok (IntValue (strconv.signed neg m)) p1) /\
  (forall neg m f,
     strconv.decimal (Lit ti) = Some (neg, m) ->
     ~ (strconv.minInt64 <= strconv.signed neg m <= strconv.maxInt64)%Z ->
     strconv.roundInteger neg m = Some f ->
     parseUnaryExpr env input recur bound p = Ok (Float64Value f) p1) /\
  (forall f,
     strconv.decimal (Lit ti) = None ->
     parseFloatSyntax env (Lit ti) = Some f ->
     parseUnaryExpr env input recur bound p = Ok (Float64Value f) p1) /\
  (strconv.Atoi (Lit ti) = None -> ParseFloat env (Lit ti) = None ->
   parseUnaryExpr env input recur bound p
   = Fail (ParseErr (mkParseError "unable to parse integer" EmptyString []
                       (TPos ti))) p1) /\
  (forall k,
     ParseExpr env [integer "10000000000000000000"] (2 + k) NewParser
     = Ok (Float64Value (S754_finite false 4882812500000000 11),
           "10000000000000000000") (mkParser 1 0 0 None)) /\
  (4882812500000000 * 2 ^ 11 = 10 ^ 19)%Z.
Proof.
  intros HS HT. unfold parseUnaryExpr. rewrite HS, HT.
  refine (conj _ (conj _ (conj _ (conj _ (conj _ _))))).
  - intros neg m Hd [Hlo Hhi]. unfold strconv.Atoi. rewrite Hd. cbv zeta.
    apply Z.leb_le in Hlo, Hhi. rewrite Hlo, Hhi. reflexivity.
  - intros neg m f Hd Hr Hf. unfold strconv.Atoi, ParseFloat. rewrite Hd.
    cbv zeta.
    destruct (andb _ _) eqn:E.
    + exfalso. apply Hr. apply andb_prop in E. destruct E as [E1 E2].
      apply Z.leb_le in E1, E2. split; assumption.
    + rewrite Hf. reflexivity.
  - intros f Hd Hf. unfold strconv.Atoi, ParseFloat. rewrite Hd, Hf.
    reflexivity.
  - intros Ha Hf. rewrite Ha, Hf. reflexivity.
  - intros k. apply ParseExpr_more; [vm_compute; reflexivity | discriminate].
  - reflexivity.
Qed.

(** ** Field references *)

Lemma parseFieldRefLoop_extends input fuel : forall l p l' q,
  parseFieldRefLoop input fuel l p = Ok l' q ->
  exists more, l' = l ++ more.
Proof.
  induction fuel as [|fuel IH]; intros l p l' q; [discriminate|].
  cbn [parseFieldRefLoop].
  destruct (Scan input p) as [ti p1].
  destruct (Tok ti);
    try (intros H; injection H as <- _; exists []; now rewrite app_nil_r).
  - destruct (Lit ti) as [|c lit']; [discriminate|].
    destruct (negb _).
    + intros H; injection H as <- _; exists []; now rewrite app_nil_r.
    + intros H. apply IH in H. destruct H as [more ->].
      exists ([lit'] ++ more). now rewrite app_assoc.
  - destruct (Scan input p1) as [ti2 p2].
    destruct (negb _); [discriminate|].
    intros H. apply IH in H. destruct H as [more ->].
    exists ([Lit ti2] ++ more). now rewrite app_assoc.
Qed.

(** C6.  In the loop of [parseFieldRef], a DOT followed by an identifier
    appends the lexeme of the identifier and goes on; a DOT followed by
    anything else is an error; a NUMBER whose lexeme begins with a dot
    appends the lexeme without its dot and goes on; whatever the loop
    returns begins with the segments it was given; and
    CAST(a.b.1.0 AS TEXT) parses to the cast to text of the path a, b, 1,
    0, at every fuel from 6 on. *)
Theorem field_path_segments env input fuel fieldRef p ti p1 :
  Scan input p = (ti, p1) ->
  (Tok ti = DOT ->
   forall ti2 p2, Scan input p1 = (ti2, p2) ->
   (Tok ti2 = IDENT ->
    parseFieldRefLoop input (S fuel) fieldRef p
    = parseFieldRefLoop input fuel (fieldRef ++ [Lit ti2]) p2) /\
   (Tok ti2 <> IDENT ->
    parseFieldRefLoop input (S fuel) fieldRef p
    = Fail (ParseErr (newParseError (Lit ti2)
                        ["array index"; "identifier"] (TPos ti2))) p2)) /\
  (Tok ti = NUMBER ->
   forall rest, Lit ti = String "." rest ->
   parseFieldRefLoop input (S fuel) fieldRef p
   = parseFieldRefLoop input fuel (fieldRef ++ [rest]) p1) /\
  (forall l q,
     parseFieldRefLoop input (S fuel) fieldRef p = Ok l q ->
     exists more, l = fieldRef ++ more) /\
  (forall k,
     ParseExpr env castInput (6 + k) NewParser
     = Ok (Cast (FieldSelector ["a"; "b"; "1"; "0"]) document.TextValue,
           "CAST(a.b.1.0 AS TEXT)") (mkParser 12 0 0 None)).
Proof.
  intros HS.
  refine (conj _ (conj _ (conj _ _))).
  - intros HT ti2 p2 HS2. cbn [parseFieldRefLoop]. rewrite HS, HT, HS2.
    split; intros H.
    + rewrite H. reflexivity.
    + apply Token_eqb_neq in H. rewrite H. reflexivity.
  - intros HT rest HL. cbn [parseFieldRefLoop]. rewrite HS, HT, HL.
    reflexivity.
  - intros l q. apply parseFieldRefLoop_extends.
  - intros k. apply ParseExpr_more; [vm_compute; reflexivity | discriminate].
Qed.

(** ** Documents *)

Lemma parseDocumentLoop_extends env input recur fuel : forall l p l' q,
  parseDocumentLoop env input recur fuel l p = Ok l' q ->
  exists more, l' = l ++ more.
Proof.
  induction fuel as [|fuel IH]; intros l p l' q; [discriminate|].
  cbn [parseDocumentLoop].
  destruct (parseKV env input recur p) as [kv p1|e p1|msg|];
    try discriminate.
  - destruct (ScanIgnoreWhitespace input p1) as [ti p2].
    destruct (negb _).
    + intros H; injection H as <- _. now exists [kv].
    + intros H. apply IH in H. destruct H as [more ->].
      exists ([kv] ++ more). now rewrite app_assoc.
  - intros H; injection H as <- _; exists []; now rewrite app_nil_r.
Qed.

(** ** The token adapter *)

Lemma substring_append (b r : string) :
  substring 0 (String.length (b ++ r) - String.length r) (b ++ r)%string = b.
Proof.
  induction b as [|c b IH]; cbn [append String.length].
  - rewrite Nat.sub_diag. destruct r; reflexivity.
  - assert (E : String.length (b ++ r) = String.length b + String.length r).
    { clear. induction b; cbn; [reflexivity | now f_equal]. }
    assert (E' : S (String.length (b ++ r)) - String.length r
                 = S (String.length (b ++ r) - String.length r)) by lia.
    rewrite E'. cbn [substring]. now rewrite IH.
Qed.

(** A pushback undoes a scan. *)
Lemma Unscan_Scan input p ti p1 :
  Scan input p = (ti, p1) -> Unscan input p1 = p.
Proof.
  unfold Scan, Unscan. intros H. injection H as <- <-.
  destruct p as [n o m b]. unfold setPos. cbn. f_equal.
  destruct b as [b|]; cbn; [|reflexivity].
  now rewrite substring_append.
Qed.

Lemma scanIgnoreWhitespaceLoop_last input n : forall p ti p1,
  scanIgnoreWhitespaceLoop input n p = (ti, p1) ->
  exists p0, Scan input p0 = (ti, p1).
Proof.
  induction n as [|n IH]; intros p ti p1; cbn [scanIgnoreWhitespaceLoop].
  - destruct (Scan input p) as [ti' p'] eqn:E. intros H. injection H as <- <-.
    now exists p.
  - destruct (Scan input p) as [ti' p'] eqn:E.
    destruct (Token_eqb (Tok ti') WS).
    + apply IH.
    + intros H. injection H as <- <-. now exists p.
Qed.

(** What [ScanIgnoreWhitespace] returns is the last token it scanned. *)
Lemma ScanIgnoreWhitespace_last input p ti p1 :
  ScanIgnoreWhitespace input p = (ti, p1) ->
  exists p0, Scan input p0 = (ti, p1).
Proof. apply scanIgnoreWhitespaceLoop_last. Qed.

(** Where the next token is no white space, skipping white space is one
    scan. *)
Lemma ScanIgnoreWhitespace_Scan input p ti p1 :
  Scan input p = (ti, p1) -> Tok ti <> WS ->
  ScanIgnoreWhitespace input p = (ti, p1).
Proof.
  intros H HT. unfold ScanIgnoreWhitespace.
  destruct (List.length input - pos p); cbn [scanIgnoreWhitespaceLoop];
    rewrite H; [reflexivity|].
  apply Token_eqb_neq in HT. now rewrite HT.
Qed.

(** A token pushed back after [ScanIgnoreWhitespace] is the next one that
    [ScanIgnoreWhitespace] returns. *)
Lemma ScanIgnoreWhitespace_again input p ti p1 :
  ScanIgnoreWhitespace input p = (ti, p1) -> Tok ti <> WS ->
  ScanIgnoreWhitespace input (Unscan input p1) = (ti, p1).
Proof.
  intros H HT. apply ScanIgnoreWhitespace_last in H. destruct H as [p0 H].
  rewrite (Unscan_Scan _ _ _ _ H). now apply ScanIgnoreWhitespace_Scan.
Qed.

Lemma scanIgnoreWhitespaceLoop_setBuf input n : forall p b ti p1,
  scanIgnoreWhitespaceLoop input n p = (ti, p1) ->
  exists b', scanIgnoreWhitespaceLoop input n (setBuf p b)
             = (ti, setBuf p1 b').
Proof.
  induction n as [|n IH]; intros p b ti p1; cbn [scanIgnoreWhitespaceLoop];
    unfold Scan; cbn [pos setBuf buf].
  - intros H. injection H as <- <-. eexists. reflexivity.
  - destruct (Token_eqb (Tok (tokenAt input (pos p))) WS).
    + intros H.
      apply (IH _ (option_map
                     (fun b0 => (b0 ++ Raw (tokenAt input (pos p)))%string) b))
        in H.
      exact H.
    + intros H. injection H as <- <-. eexists. reflexivity.
Qed.

Lemma scanIgnoreWhitespaceLoop_nil_buffer input n : forall p ti p1,
  scanIgnoreWhitespaceLoop input n p = (ti, p1) ->
  buf p = None -> buf p1 = None.
Proof.
  induction n as [|n IH]; intros p ti p1; cbn [scanIgnoreWhitespaceLoop];
    unfold Scan.
  - intros H Hb. injection H as <- <-. cbn. now rewrite Hb.
  - destruct (Token_eqb (Tok (tokenAt input (pos p))) WS).
    + intros H Hb. apply IH in H; [exact H|]. cbn. now rewrite Hb.
    + intros H Hb. injection H as <- <-. cbn. now rewrite Hb.
Qed.

(** On a token that begins no expression, [ParseExpr] fails having read
    this token and the white space before it, whether or not it is the
    call that makes the capture buffer. *)
Lemma ParseExpr_fails_at env input fuel q tj q1 :
  ScanIgnoreWhitespace input q = (tj, q1) ->
  startsPrimary (Tok tj) = false ->
  ParseExpr env input (S fuel) q
  = Fail (expected env tj ["identifier"; "string"; "number"; "bool"]) q1.
Proof.
  intros HS HT. cbn [ParseExpr]. unfold parseExprBody.
  destruct (buf q) as [b|] eqn:Hb.
  - unfold parseUnaryExpr. rewrite HS.
    destruct (Tok tj); try discriminate; reflexivity.
  - unfold ScanIgnoreWhitespace in HS.
    destruct (scanIgnoreWhitespaceLoop_setBuf _ _ _ (Some EmptyString) _ _ HS)
      as [b' HS'].
    unfold parseUnaryExpr, ScanIgnoreWhitespace. cbn [setBuf pos].
    rewrite HS'.
    apply scanIgnoreWhitespaceLoop_nil_buffer in HS; [|exact Hb].
    assert (E : setBuf (setBuf q1 b') None = q1).
    { destruct q1 as [n o m bb]. cbn in HS. subst bb. reflexivity. }
    destruct (Tok tj); try discriminate; cbn [bind release]; now rewrite E.
Qed.

(** ** Trailing commas *)

Lemma parseExprListLoop_items input recur : forall p l q,
  commaSeparated input (element recur) p l q ->
  forall fuel acc e qf,
  recur q = Fail e qf ->
  List.length l < fuel ->
  parseExprListLoop input recur fuel acc p = Ok (acc ++ l) (Unscan input qf).
Proof.
  induction 1 as [p a p1 ti p2 Ha HS HT | p a p1 ti p2 l q Ha HS HT Hl IH];
    intros fuel acc e qf Hq Hlen;
    (destruct fuel as [|fuel]; [cbn in Hlen; lia|]);
    cbn [parseExprListLoop];
    unfold element in Ha; destruct (recur p) as [r p1'| | |]; try discriminate;
    cbn [bind] in Ha; injection Ha as <- <-;
    rewrite HS, HT; cbn [Token_eqb negb].
  - rewrite Token_eqb_refl. cbn [negb].
    destruct fuel as [|fuel]; [cbn in Hlen; lia|].
    cbn [parseExprListLoop]. rewrite Hq. reflexivity.
  - rewrite Token_eqb_refl. cbn [negb].
    rewrite (IH fuel (acc ++ [fst r]) e qf Hq); [|cbn in Hlen; lia].
    now rewrite <- app_assoc.
Qed.

Lemma parseDocumentLoop_items env input recur : forall p l q,
  commaSeparated input (parseKV env input recur) p l q ->
  forall fuel acc e qf,
  parseKV env input recur q = Fail e qf ->
  List.length l < fuel ->
  parseDocumentLoop env input recur fuel acc p
  = Ok (acc ++ l) (Unscan input qf).
Proof.
  induction 1 as [p a p1 ti p2 Ha HS HT | p a p1 ti p2 l q Ha HS HT Hl IH];
    intros fuel acc e qf Hq Hlen;
    (destruct fuel as [|fuel]; [cbn in Hlen; lia|]);
    cbn [parseDocumentLoop]; rewrite Ha, HS, HT, Token_eqb_refl; cbn [negb].
  - destruct fuel as [|fuel]; [cbn in Hlen; lia|].
    cbn [parseDocumentLoop]. rewrite Hq. reflexivity.
  - rewrite (IH fuel (acc ++ [a]) e qf Hq); [|cbn in Hlen; lia].
    now rewrite <- app_assoc.
Qed.

(** C9.  In a list between parentheses or square brackets whose elements
    are each followed by a comma, the last comma by the closing
    delimiter, the parse of an element after the last comma fails having
    read the closing delimiter alone, a pushback gives it back, and
    [parseExprList] returns exactly the elements before that comma; so
    (1, 2,) parses to the list of 1 and 2 at every fuel from 4 on, and
    [1,] to the list of 1 at every fuel from 3 on. *)
Theorem list_trailing_comma env input fuel bound leftToken rightToken
    p ti p1 l q tj q1 :
  (leftToken = LPAREN /\ rightToken = RPAREN) \/
  (leftToken = LSBRACKET /\ rightToken = RSBRACKET) ->
  ScanIgnoreWhitespace input p = (ti, p1) -> Tok ti = leftToken ->
  commaSeparated input (element (ParseExpr env input (S fuel))) p1 l q ->
  ScanIgnoreWhitespace input q = (tj, q1) -> Tok tj = rightToken ->
  List.length l < bound ->
  (exists e, ParseExpr env input (S fuel) q = Fail e q1) /\
  ScanIgnoreWhitespace input (Unscan input q1) = (tj, q1) /\
  parseExprList env input (ParseExpr env input (S fuel)) bound
    leftToken rightToken p = Ok l q1 /\
  (forall k,
     ParseExpr env trailingCommaList (4 + k) NewParser
     = Ok (LiteralExprList [IntValue 1; IntValue 2], "(1, 2,)")
          (mkParser 7 0 0 None)) /\
  (forall k,
     ParseExpr env trailingCommaArray (3 + k) NewParser
     = Ok (LiteralExprList [IntValue 1], "[1,]") (mkParser 4 0 0 None)).
Proof.
  intros Hd HS HT Hl HSq HTq Hlen.
  assert (Hnp : startsPrimary (Tok tj) = false).
  { rewrite HTq. destruct Hd as [[_ ->]|[_ ->]]; reflexivity. }
  assert (Hnw : Tok tj <> WS).
  { rewrite HTq. destruct Hd as [[_ ->]|[_ ->]]; discriminate. }
  pose proof (ParseExpr_fails_at env input fuel q tj q1 HSq Hnp) as Hf.
  pose proof (ScanIgnoreWhitespace_again _ _ _ _ HSq Hnw) as Hag.
  refine (conj _ (conj Hag (conj _ (conj _ _)))).
  - eexists. exact Hf.
  - unfold parseExprList. rewrite HS, HT, Token_eqb_refl. cbn [negb].
    rewrite (parseExprListLoop_items _ _ _ _ _ Hl bound [] _ _ Hf Hlen).
    cbn [bind app]. rewrite Hag, HTq, Token_eqb_refl. reflexivity.
  - intros k. apply ParseExpr_more; [vm_compute; reflexivity | discriminate].
  - intros k. apply ParseExpr_more; [vm_compute; reflexivity | discriminate].
Qed.

(** C8, as the specification states it, fails: the document {a: 1,},
    with a comma between its last pair and the closing brace, does not
    end in a parse error; it parses to the document of the pair a: 1. *)
Lemma document_trailing_comma_accepted :
  ParseExpr bareExtern trailingCommaDocument 3 NewParser
  = Ok (KVPairs [("a", IntValue 1)], "{a: 1,}") (mkParser 7 0 0 None) /\
  (forall e q,
     ParseExpr bareExtern trailingCommaDocument 3 NewParser <> Fail e q).
Proof.
  split; [vm_compute; reflexivity | intros e q; vm_compute; discriminate].
Qed.

(** C8, amended.  In a document whose pairs are each followed by a comma,
    the last comma by the closing brace, the parse of a pair after the
    last comma fails on the brace, a pushback gives the brace back, and
    [parseDocument] returns the document of exactly the pairs before that
    comma; so {a: 1,} parses to the document of a: 1 at every fuel from
    3 on. *)
Theorem document_trailing_comma env input recur bound p ti p1 l q tj q1 :
  ScanIgnoreWhitespace input p = (ti, p1) -> Tok ti = LBRACKET ->
  commaSeparated input (parseKV env input recur) p1 l q ->
  ScanIgnoreWhitespace input q = (tj, q1) -> Tok tj = RBRACKET ->
  List.length l < bound ->
  (exists e, parseKV env input recur q = Fail e q1) /\
  ScanIgnoreWhitespace input (Unscan input q1) = (tj, q1) /\
  parseDocument env input recur bound p = Ok (KVPairs l, true) q1 /\
  (forall k,
     ParseExpr env trailingCommaDocument (3 + k) NewParser
     = Ok (KVPairs [("a", IntValue 1)], "{a: 1,}") (mkParser 7 0 0 None)).
Proof.
  intros HS HT Hl HSq HTq Hlen.
  assert (Hnw : Tok tj <> WS) by (rewrite HTq; discriminate).
  assert (Hf : parseKV env input recur q
               = Fail (expected env tj ["ident"; "string"]) q1).
  { unfold parseKV. rewrite HSq, HTq. reflexivity. }
  pose proof (ScanIgnoreWhitespace_again _ _ _ _ HSq Hnw) as Hag.
  refine (conj _ (conj Hag (conj _ _))).
  - eexists. exact Hf.
  - unfold parseDocument. rewrite HS, HT, Token_eqb_refl. cbn [negb].
    rewrite (parseDocumentLoop_items _ _ _ _ _ _ Hl bound [] _ _ Hf Hlen).
    cbn [bind app]. rewrite Hag, HTq, Token_eqb_refl. reflexivity.
  - intros k. apply ParseExpr_more; [vm_compute; reflexivity | discriminate].
Qed.

(** ** The shape of operator trees *)

Lemma opToExpr_node op lhs rhs e :
  opToExpr op lhs rhs = Some e ->
  exists o, e = BinaryOp o lhs rhs /\ opToken o = op.
Proof.
  destruct op; cbn; try discriminate; intros H; injection H as <-;
    eexists; split; reflexivity.
Qed.

Lemma leaf_spine e : isLeaf e -> rightSpine e = [].
Proof. destruct e; cbn; intros H; try reflexivity; contradiction. Qed.

Lemma leaf_climbed e : isLeaf e -> climbed e.
Proof. destruct e; cbn; intros H; try exact I; contradiction. Qed.

(** Every operator down the right spine of a climbed tree binds at least
    as tight as the one at its root. *)
Lemma climbed_spine_root o l r :
  climbed (BinaryOp o l r) ->
  Forall (fun d => (expr.Precedence o <= expr.Precedence d)%Z)
    (rightSpine (BinaryOp o l r)).
Proof.
  cbn. intros (Hr & _). constructor; [lia|].
  eapply Forall_impl; [|exact Hr]. cbn. intros; lia.
Qed.

Lemma climb_climbed op rhs : isLeaf rhs -> forall root root',
  climbed root ->
  climb op rhs root = Some root' ->
  climbed root' /\
  forall x,
    (x < scanner.Precedence op)%Z ->
    Forall (fun d => (x < expr.Precedence d)%Z) (rightSpine root) ->
    Forall (fun d => (x < expr.Precedence d)%Z) (rightSpine root').
Proof.
  intros Hleaf.
  assert (Hsplice : forall root root',
    (forall o l r, root = BinaryOp o l r ->
                   (scanner.Precedence op <= expr.Precedence o)%Z) ->
    climbed root ->
    opToExpr op root rhs = Some root' ->
    climbed root' /\
    forall x,
      (x < scanner.Precedence op)%Z ->
      Forall (fun d => (x < expr.Precedence d)%Z) (rightSpine root) ->
      Forall (fun d => (x < expr.Precedence d)%Z) (rightSpine root')).
  { intros root root' Hge Hc H.
    apply opToExpr_node in H. destruct H as (o & -> & Ho).
    assert (Hp : expr.Precedence o = scanner.Precedence op)
      by (unfold expr.Precedence; now rewrite Ho).
    split.
    - cbn [climbed]. rewrite (leaf_spine _ Hleaf).
      refine (conj (Forall_nil _) (conj _ (conj Hc (leaf_climbed _ Hleaf)))).
      destruct root; cbn [rightSpine]; try constructor.
      + specialize (Hge _ _ _ eq_refl). lia.
      + pose proof (climbed_spine_root _ _ _ Hc) as Hs.
        cbn [rightSpine] in Hs. inversion Hs as [|? ? _ Hs']; subst.
        eapply Forall_impl; [|exact Hs'].
        cbn. intros d Hd. specialize (Hge _ _ _ eq_refl). lia.
    - intros x Hx _. cbn [rightSpine]. rewrite (leaf_spine _ Hleaf).
      constructor; [lia | constructor]. }
  induction root; intros root' Hc H; cbn [climb] in H;
    try (apply Hsplice; [discriminate | exact Hc | exact H]).
  destruct (scanner.Precedence op <=? expr.Precedence o)%Z eqn:E.
  - apply Hsplice; [|exact Hc | exact H].
    intros o' l' r' Heq. injection Heq as <- _ _. now apply Z.leb_le.
  - apply Z.leb_gt in E.
    destruct (climb op rhs root2) as [r'|] eqn:Er; [|discriminate].
    injection H as <-.
    cbn [climbed] in Hc. destruct Hc as (Hr & Hl & Hcl & Hcr).
    destruct (IHroot2 r' Hcr eq_refl) as [Hcr' Hsp].
    split.
    + cbn [climbed]. refine (conj _ (conj Hl (conj Hcl Hcr'))).
      apply Hsp; [exact E | exact Hr].
    + intros x Hx Hf. cbn [rightSpine] in *.
      inversion Hf as [|? ? Hxo Hf']; subst.
      constructor; [exact Hxo|].
      apply Hsp; [exact Hx | exact Hf'].
Qed.

(** Closes a goal [_ = Ok e q -> isLeaf e] whose left side is an error or
    a leaf. *)
Ltac leaf :=
  try (let H := fresh "H" in
       intros H; first [discriminate H | injection H as <- _; exact I]).

Section Shape.

Variable env : Extern.
Variable input : list TokenInfo.
Variable recur : Parser -> Outcome (Expr * string).
Variable bound : nat.

Lemma resolve_leaf name args p e q :
  resolve env name args p = Ok e q -> isLeaf e.
Proof.
  unfold resolve, GetFunc.
  destruct (String.eqb name "pk").
  - destruct args; leaf.
  - destruct (registered env name (List.length args)); leaf.
Qed.

Lemma parseFunctionLoop_leaf fuel : forall name args p e q,
  parseFunctionLoop env input recur fuel name args p = Ok e q -> isLeaf e.
Proof.
  induction fuel as [|fuel IH]; intros name args p e q; [discriminate|].
  cbn [parseFunctionLoop].
  destruct (recur p) as [r p1| | |]; cbn [bind]; leaf.
  repeat (brk0; leaf).
  - apply resolve_leaf.
  - apply IH.
Qed.

Lemma parseFunction_leaf p e q :
  parseFunction env input recur bound p = Ok e q -> isLeaf e.
Proof.
  unfold parseFunction.
  destruct (parseIdent env input p); cbn [bind]; leaf.
  repeat (brk0; leaf).
  - apply resolve_leaf.
  - apply parseFunctionLoop_leaf.
Qed.

Lemma parseCastExpression_leaf p e q :
  parseCastExpression env input recur p = Ok e q -> isLeaf e.
Proof.
  unfold parseCastExpression.
  repeat (brk0; leaf).
  destruct (recur _) as [r p3| | |]; cbn [bind]; leaf.
  repeat (brk0; leaf).
Qed.

Lemma parseDocument_leaf p r q :
  parseDocument env input recur bound p = Ok r q -> isLeaf (fst r).
Proof.
  unfold parseDocument.
  repeat (brk0; leaf).
  destruct (parseDocumentLoop _ _ _ _ _ _); cbn [bind]; leaf.
  repeat (brk0; leaf).
Qed.

Lemma parseUnaryExpr_leaf p e q :
  parseUnaryExpr env input recur bound p = Ok e q -> isLeaf e.
Proof.
  unfold parseUnaryExpr.
  destruct (ScanIgnoreWhitespace input p) as [ti p1].
  destruct (Tok ti); leaf.
  - destruct (Scan input p1) as [ti1 p2].
    destruct (Token_eqb (Tok ti1) LPAREN).
    + apply parseFunction_leaf.
    + destruct (parseFieldRef _ _ _ _); cbn [bind]; leaf.
  - repeat (brk0; leaf).
  - repeat (brk0; leaf).
  - repeat (brk0; leaf).
  - repeat (brk0; leaf).
  - repeat (brk0; leaf).
  - destruct (parseExprList _ _ _ _ _ _ _); cbn [bind]; leaf.
  - destruct (parseDocument _ _ _ _ _) eqn:E; cbn [bind]; leaf.
    intros H. injection H as <- _. eapply parseDocument_leaf. exact E.
  - destruct (parseExprList _ _ _ _ _ _ _); cbn [bind]; leaf.
  - apply parseCastExpression_leaf.
Qed.

Lemma parseExprLoop_climbed fuel : forall root p e lit q,
  climbed root ->
  parseExprLoop env input recur bound fuel root p = Ok (e, lit) q ->
  climbed e.
Proof.
  induction fuel as [|fuel IH]; intros root p e lit q Hc; [discriminate|].
  cbn [parseExprLoop].
  destruct (ScanIgnoreWhitespace input p) as [op p1].
  destruct (negb (IsOperator (Tok op))).
  - intros H. injection H as <- _ _. exact Hc.
  - destruct (parseUnaryExpr env input recur bound p1) as [rhs p2| | |] eqn:E;
      cbn [bind]; try discriminate.
    destruct (climb (Tok op) rhs root) as [root'|] eqn:Ec; [|discriminate].
    apply IH.
    eapply climb_climbed; [|exact Hc | exact Ec].
    eapply parseUnaryExpr_leaf. exact E.
Qed.

Lemma parseExprBody_climbed p e lit q :
  parseExprBody env input recur bound p = Ok (e, lit) q -> climbed e.
Proof.
  unfold parseExprBody. intros H.
  assert (H' : exists q',
    (do (e0, p1) <- parseUnaryExpr env input recur bound
                      (if match buf p with Some _ => false | None => true end
                       then setBuf p (Some EmptyString) else p);
     parseExprLoop env input recur bound bound e0 p1) = Ok (e, lit) q').
  { destruct (match buf p with Some _ => false | None => true end);
      cbn [release] in H.
    - destruct (bind _ _) as [a q'| | |]; try discriminate.
      injection H as -> _. now exists q'.
    - now exists q. }
  destruct H' as [q' H']. clear H. revert H'.
  destruct (parseUnaryExpr _ _ _ _ _) as [e0 p1| | |] eqn:E; cbn [bind];
    try discriminate.
  apply parseExprLoop_climbed. apply leaf_climbed.
  eapply parseUnaryExpr_leaf. exact E.
Qed.

End Shape.

(** C2, as the specification states it, fails: in the tree of 4 > 1 + 2
    the operator > at the root has a strictly lower precedence than the
    operator + on its right spine. *)
Lemma lower_ancestor_on_right_spine :
  exists e lit q,
    ParseExpr bareExtern precedenceInput 4 NewParser = Ok (e, lit) q /\
    e = Gt (IntValue 4) (Add (IntValue 1) (IntValue 2)) /\
    ~ noLowerAncestor e.
Proof.
  eexists _, _, _. split; [vm_compute; reflexivity|].
  split; [reflexivity|].
  cbn. intros (H & _). inversion H as [|? ? Hlt _]; subst.
  apply Hlt. reflexivity.
Qed.

(** C2, amended.  In every tree that [ParseExpr] returns, each operator
    down the right spine of the right operand of an operator node binds
    strictly tighter than that node, and each operator down the right
    spine of its left operand binds at least as tight: precedence grows
    strictly down a right spine, and operators of one tier group to the
    left.  So 4 > 1 + 2 is > over 4 and 1 + 2, and a - b - c is - over
    a - b and c, at every fuel from 4 on. *)
Theorem operator_tree_shape env input fuel p e lit q :
  ParseExpr env input fuel p = Ok (e, lit) q ->
  climbed e /\
  (forall o l o' l' r',
     e = BinaryOp o l (BinaryOp o' l' r') ->
     (expr.Precedence o < expr.Precedence o')%Z) /\
  (forall k,
     ParseExpr env precedenceInput (4 + k) NewParser
     = Ok (Gt (IntValue 4) (Add (IntValue 1) (IntValue 2)), "4 > 1 + 2")
          (mkParser 9 0 0 None)) /\
  (forall k,
     ParseExpr env tieInput (4 + k) NewParser
     = Ok (Sub (Sub (FieldSelector ["a"]) (FieldSelector ["b"]))
             (FieldSelector ["c"]), "a - b - c")
          (mkParser 9 0 0 None)).
Proof.
  intros H.
  assert (Hc : climbed e).
  { destruct fuel as [|fuel]; [discriminate|].
    cbn [ParseExpr] in H. eapply parseExprBody_climbed. exact H. }
  refine (conj Hc (conj _ (conj _ _))).
  - intros o l o' l' r' ->. cbn in Hc. destruct Hc as (Hr & _).
    now inversion Hr.
  - intros k. apply ParseExpr_more; [vm_compute; reflexivity | discriminate].
  - intros k. apply ParseExpr_more; [vm_compute; reflexivity | discriminate].
Qed.

(** ** Panics of the functions that [ParseExpr] calls *)

Lemma token_of_Scan input p ti p1 :
  Scan input p = (ti, p1) -> ti = tokenAt input (pos p).
Proof. unfold Scan. intros H. now injection H as <- _. Qed.

Lemma token_of_ScanIgnoreWhitespace input p ti p1 :
  ScanIgnoreWhitespace input p = (ti, p1) -> exists i, ti = tokenAt input i.
Proof.
  intros H. apply ScanIgnoreWhitespace_last in H. destruct H as [p0 H].
  exists (pos p0). eapply token_of_Scan. exact H.
Qed.

(** Closes a goal [_ = Panicked msg -> _] whose left side is no panic. *)
Ltac calm :=
  try (let H := fresh "H" in intros H; discriminate H).

Section NoPanic.

Variable env : Extern.
Variable input : list TokenInfo.

Lemma parseFieldRefLoop_panic fuel : forall l p msg,
  parseFieldRefLoop input fuel l p = Panicked msg -> lexemePanic input msg.
Proof.
  induction fuel as [|fuel IH]; intros l p msg; [discriminate|].
  cbn [parseFieldRefLoop].
  destruct (Scan input p) as [ti p1] eqn:ES.
  destruct (Tok ti) eqn:ET; calm.
  - destruct (Lit ti) eqn:EL.
    + intros H. injection H as <-. split; [|discriminate].
      apply token_of_Scan in ES. subst ti.
      exists (pos p). split; [now left | exact EL].
    + destruct (negb _); calm. apply IH.
  - destruct (Scan input p1) as [ti2 p2]. destruct (negb _); calm. apply IH.
Qed.

Lemma parseFieldRef_panic fuel p msg :
  parseFieldRef env input fuel p = Panicked msg -> lexemePanic input msg.
Proof.
  unfold parseFieldRef, parseIdent.
  destruct (ScanIgnoreWhitespace input p) as [ti p1].
  destruct (negb _); cbn [bind]; calm.
  apply parseFieldRefLoop_panic.
Qed.

Variable recur : Parser -> Outcome (Expr * string).
Variable bound : nat.
Hypothesis Hrecur : forall p msg,
  recur p = Panicked msg -> lexemePanic input msg.

Lemma parseKV_panic p msg :
  parseKV env input recur p = Panicked msg -> lexemePanic input msg.
Proof.
  unfold parseKV. repeat (brk0; calm).
  destruct (recur _) eqn:E; cbn [bind]; calm.
  intros H. injection H as <-. eapply Hrecur. exact E.
Qed.

Lemma parseDocumentLoop_panic fuel : forall l p msg,
  parseDocumentLoop env input recur fuel l p = Panicked msg ->
  lexemePanic input msg.
Proof.
  induction fuel as [|fuel IH]; intros l p msg; [discriminate|].
  cbn [parseDocumentLoop].
  destruct (parseKV env input recur p) eqn:E; calm.
  - repeat (brk0; calm). apply IH.
  - intros H. injection H as <-. eapply parseKV_panic. exact E.
Qed.

Lemma parseDocument_panic p msg :
  parseDocument env input recur bound p = Panicked msg ->
  lexemePanic input msg.
Proof.
  unfold parseDocument. repeat (brk0; calm).
  destruct (parseDocumentLoop _ _ _ _ _ _) eqn:E; cbn [bind]; calm.
  - repeat (brk0; calm).
  - intros H. injection H as <-. eapply parseDocumentLoop_panic. exact E.
Qed.

Lemma parseExprListLoop_panic fuel : forall l p msg,
  parseExprListLoop input recur fuel l p = Panicked msg ->
  lexemePanic input msg.
Proof.
  induction fuel as [|fuel IH]; intros l p msg; [discriminate|].
  cbn [parseExprListLoop].
  destruct (recur p) eqn:E; calm.
  - repeat (brk0; calm). apply IH.
  - intros H. injection H as <-. eapply Hrecur. exact E.
Qed.

Lemma parseExprList_panic a b p msg :
  parseExprList env input recur bound a b p = Panicked msg ->
  lexemePanic input msg.
Proof.
  unfold parseExprList. repeat (brk0; calm).
  destruct (parseExprListLoop _ _ _ _ _) eqn:E; cbn [bind]; calm.
  - repeat (brk0; calm).
  - intros H. injection H as <-. eapply parseExprListLoop_panic. exact E.
Qed.

Lemma resolve_panic name args p msg :
  resolve env name args p <> Panicked msg.
Proof. unfold resolve. destruct (GetFunc env name args); discriminate. Qed.

Lemma parseFunctionLoop_panic fuel : forall name l p msg,
  parseFunctionLoop env input recur fuel name l p = Panicked msg ->
  lexemePanic input msg.
Proof.
  induction fuel as [|fuel IH]; intros name l p msg; [discriminate|].
  cbn [parseFunctionLoop].
  destruct (recur p) eqn:E; cbn [bind]; calm.
  - repeat (brk0; calm).
    + intros H. now apply resolve_panic in H.
    + apply IH.
  - intros H. injection H as <-. eapply Hrecur. exact E.
Qed.

Lemma parseFunction_panic p msg :
  parseFunction env input recur bound p = Panicked msg ->
  lexemePanic input msg.
Proof.
  unfold parseFunction, parseIdent.
  destruct (ScanIgnoreWhitespace input p) as [ti p1].
  destruct (negb _); cbn [bind]; calm.
  repeat (brk0; calm).
  - intros H. now apply resolve_panic in H.
  - apply parseFunctionLoop_panic.
Qed.

Lemma parseCastExpression_panic p msg :
  parseCastExpression env input recur p = Panicked msg ->
  lexemePanic input msg.
Proof.
  unfold parseCastExpression. repeat (brk0; calm).
  destruct (recur _) eqn:E; cbn [bind]; calm.
  - repeat (brk0; calm).
  - intros H. injection H as <-. eapply Hrecur. exact E.
Qed.

Lemma parseUnaryExpr_panic p msg :
  parseUnaryExpr env input recur bound p = Panicked msg ->
  lexemePanic input msg.
Proof.
  unfold parseUnaryExpr.
  destruct (ScanIgnoreWhitespace input p) as [ti p1] eqn:ES.
  destruct (Tok ti) eqn:ET; calm.
  - destruct (Scan input p1) as [ti1 p2].
    destruct (Token_eqb (Tok ti1) LPAREN).
    + apply parseFunction_panic.
    + destruct (parseFieldRef _ _ _ _) eqn:E; cbn [bind]; calm.
      intros H. injection H as <-. eapply parseFieldRef_panic. exact E.
  - destruct (_ =? _)%nat; calm. destruct (_ <? _)%Z; calm.
    destruct (Lit ti) eqn:EL; calm.
    intros H. injection H as <-. split; [|discriminate].
    apply token_of_ScanIgnoreWhitespace in ES. destruct ES as [i ->].
    exists i. split; [now right | exact EL].
  - repeat (brk0; calm).
  - repeat (brk0; calm).
  - repeat (brk0; calm).
  - repeat (brk0; calm).
  - destruct (parseExprList _ _ _ _ _ _ _) eqn:E; cbn [bind]; calm.
    intros H. injection H as <-. eapply parseExprList_panic. exact E.
  - destruct (parseDocument _ _ _ _ _) eqn:E; cbn [bind]; calm.
    intros H. injection H as <-. eapply parseDocument_panic. exact E.
  - destruct (parseExprList _ _ _ _ _ _ _) eqn:E; cbn [bind]; calm.
    intros H. injection H as <-. eapply parseExprList_panic. exact E.
  - apply parseCastExpression_panic.
Qed.

End NoPanic.

(** ** Positional parameters after a discarded element *)

(** C4 does not hold of the code on the list of (? + ) and ?: the first
    ? is counted, the element ? + fails at the closing parenthesis, which
    a pushback restores, so that the inner list is accepted as empty and
    the element is lost; the only positional parameter of the result has
    index 2, at every fuel from 5 on. *)
Theorem positional_index_after_discarded_element env k :
  ParseExpr env gapInput (5 + k) NewParser
  = Ok (LiteralExprList [LiteralExprList []; PositionalParam 2],
        "[(? + ), ?]") (mkParser 11 2 0 None).
Proof.
  apply ParseExpr_more; [vm_compute; reflexivity | discriminate].
Qed.

(** ** The literal and the round trip *)

(** *** What the adapter does *)

Lemma sameState_refl p : sameState p p.
Proof. repeat split; auto. Qed.

Lemma sameState_trans p q r : sameState p q -> sameState q r -> sameState p r.
Proof.
  intros (A & B & C) (A' & B' & C'). repeat split; try congruence.
  - intros H. apply C'. now apply C.
  - intros H. apply C. now apply C'.
Qed.

Lemma sameState_sym p q : sameState p q -> sameState q p.
Proof. intros (A & B & C). repeat split; try congruence; apply C. Qed.

Section AdapterFacts.
Variable input : list TokenInfo.

Lemma Scan_facts p ti p1 :
  Scan input p = (ti, p1) ->
  ti = tokenAt input (pos p) /\ pos p1 = S (pos p) /\ sameState p1 p.
Proof.
  unfold Scan. intros H. injection H as <- <-. cbn.
  repeat split; auto; destruct (buf p); cbn; congruence.
Qed.

Lemma Unscan_facts p :
  pos (Unscan input p) = Nat.pred (pos p) /\ sameState (Unscan input p) p.
Proof.
  unfold Unscan. cbn. repeat split; auto; destruct (buf p); cbn; congruence.
Qed.

Lemma scanLoop_spec n : forall p ti p1,
  scanIgnoreWhitespaceLoop input n p = (ti, p1) ->
  exists j, pos p <= j /\
    (forall i, pos p <= i < j -> Tok (tokenAt input i) = WS) /\
    ti = tokenAt input j /\ pos p1 = S j /\ sameState p1 p /\
    (Tok ti = WS -> n + pos p <= j).
Proof.
  induction n as [|n IH]; intros p ti p1; cbn [scanIgnoreWhitespaceLoop];
    destruct (Scan input p) as [ti' p'] eqn:E;
    apply Scan_facts in E; destruct E as (-> & Hp & Hs).
  - intros H. injection H as <- <-. exists (pos p).
    repeat split; try apply Hs; auto; try lia.
  - destruct (Token_eqb (Tok (tokenAt input (pos p))) WS) eqn:EW.
    + intros H. apply IH in H.
      destruct H as (j & Hj & Hws & -> & Hp1 & Hs1 & Hn).
      exists j. rewrite Hp in *.
      split; [lia|]. split.
      * intros i Hi. destruct (Nat.eq_dec i (pos p)) as [->|Hne].
        -- now apply Token_eqb_eq.
        -- apply Hws. lia.
      * split; [reflexivity|]. split; [exact Hp1|]. split.
        -- eapply sameState_trans; eauto.
        -- intros HT. specialize (Hn HT). lia.
    + intros H. injection H as <- <-. exists (pos p).
      repeat split; try apply Hs; auto; try lia.
      intros HT. apply Token_eqb_neq in EW. contradiction.
Qed.

Lemma tokenAt_beyond i : List.length input <= i -> tokenAt input i = eofToken.
Proof. intros H. unfold tokenAt. now apply nth_overflow. Qed.

(** What [ScanIgnoreWhitespace] does: it returns the first token from the
    current position on that is no white space, and stands after it. *)
Lemma ScanIgnoreWhitespace_spec p ti p1 :
  ScanIgnoreWhitespace input p = (ti, p1) ->
  exists j, pos p <= j /\
    (forall i, pos p <= i < j -> Tok (tokenAt input i) = WS) /\
    Tok (tokenAt input j) <> WS /\
    ti = tokenAt input j /\ pos p1 = S j /\ sameState p1 p.
Proof.
  unfold ScanIgnoreWhitespace. intros H. apply scanLoop_spec in H.
  destruct H as (j & Hj & Hws & -> & Hp1 & Hs & Hn).
  exists j. repeat split; auto; try apply Hs.
  intros HT. specialize (Hn HT).
  rewrite tokenAt_beyond in HT by lia. discriminate.
Qed.

(** The first token that is no white space is found at one index only. *)
Lemma first_token_unique a j j' :
  a <= j -> a <= j' ->
  (forall i, a <= i < j -> Tok (tokenAt input i) = WS) ->
  (forall i, a <= i < j' -> Tok (tokenAt input i) = WS) ->
  Tok (tokenAt input j) <> WS -> Tok (tokenAt input j') <> WS ->
  j = j'.
Proof.
  intros Ha Ha' H H' Hj Hj'.
  destruct (Nat.lt_trichotomy j j') as [L|[L|L]]; auto.
  - exfalso. apply Hj. apply H'. lia.
  - exfalso. apply Hj'. apply H. lia.
Qed.

End AdapterFacts.

(** *** How far the parser advances *)

Lemma Scan_pos input p ti p1 :
  Scan input p = (ti, p1) -> pos p1 = S (pos p).
Proof. intros H. now apply Scan_facts in H. Qed.

Lemma Unscan_pos input p : pos (Unscan input p) = Nat.pred (pos p).
Proof. reflexivity. Qed.

Lemma ScanIgnoreWhitespace_pos input p ti p1 :
  ScanIgnoreWhitespace input p = (ti, p1) -> pos p + 1 <= pos p1.
Proof.
  intros H. apply ScanIgnoreWhitespace_spec in H.
  destruct H as (j & Hj & _ & _ & _ & Hp & _). lia.
Qed.

(** Turns what is known of the scans into facts on positions, and
    decides. *)
Ltac positions :=
  repeat match goal with
  | H : ScanIgnoreWhitespace _ _ = (_, _) |- _ =>
      apply ScanIgnoreWhitespace_pos in H
  | H : Scan _ _ = (_, _) |- _ => apply Scan_pos in H
  end;
  unfold advances in *; rewrite ?Unscan_pos in *; cbn [pos] in *;
  try exact I; try lia.

Section LowerBound.

Variable env : Extern.
Variable input : list TokenInfo.

Lemma parseIdent_advances p : advances 1 1 p (parseIdent env input p).
Proof. unfold parseIdent. repeat brk0; positions. Qed.

Lemma parseType_advances p o q :
  parseType input p = (o, q) -> pos p <= pos q.
Proof.
  unfold parseType.
  destruct (ScanIgnoreWhitespace input p) as [ti p1] eqn:E.
  destruct (Tok ti); intros H; injection H as <- <-; positions.
Qed.

Lemma parseFieldRefLoop_advances fuel : forall l p,
  advances 0 2 p (parseFieldRefLoop input fuel l p).
Proof.
  induction fuel as [|fuel IH]; intros l p; [exact I|].
  cbn [parseFieldRefLoop].
  destruct (Scan input p) as [ti p1] eqn:E1.
  destruct (Tok ti); try (positions; fail).
  - destruct (Lit ti); [exact I|].
    destruct (negb _); [positions|].
    specialize (IH (l ++ [s]) p1).
    destruct (parseFieldRefLoop input fuel _ p1); positions.
  - destruct (Scan input p1) as [ti2 p2] eqn:E2.
    destruct (negb _); [positions|].
    specialize (IH (l ++ [Lit ti2]) p2).
    destruct (parseFieldRefLoop input fuel _ p2); positions.
Qed.

Lemma parseFieldRef_advances fuel p :
  advances 1 1 p (parseFieldRef env input fuel p).
Proof.
  unfold parseFieldRef.
  pose proof (parseIdent_advances p) as HI.
  destruct (parseIdent env input p) as [chunk p1| | |]; cbn [bind];
    try exact HI; try exact I.
  pose proof (parseFieldRefLoop_advances fuel [chunk] p1) as HL.
  destruct (parseFieldRefLoop input fuel _ p1); positions.
Qed.

Variable recur : Parser -> Outcome (Expr * string).
Variable bound : nat.
Hypothesis Hrecur : forall p, advances 1 1 p (recur p).

Lemma parseKV_advances p : advances 1 1 p (parseKV env input recur p).
Proof.
  unfold parseKV. repeat brk0; try (positions; fail).
  pose proof (Hrecur p1) as HR.
  destruct (recur p1); cbn [bind]; positions.
Qed.

Lemma parseDocumentLoop_advances fuel : forall l p,
  advances 0 1 p (parseDocumentLoop env input recur fuel l p).
Proof.
  induction fuel as [|fuel IH]; intros l p; [exact I|].
  cbn [parseDocumentLoop].
  pose proof (parseKV_advances p) as HK.
  destruct (parseKV env input recur p) as [kv p1|e p1| |];
    try exact I; [|positions].
  destruct (ScanIgnoreWhitespace input p1) as [ti p2] eqn:E.
  destruct (negb _); [positions|].
  specialize (IH (l ++ [kv]) p2).
  destruct (parseDocumentLoop env input recur fuel _ p2); positions.
Qed.

Lemma parseDocument_advances p :
  advances 0 1 p (parseDocument env input recur bound p).
Proof.
  unfold parseDocument.
  destruct (ScanIgnoreWhitespace input p) as [ti p1] eqn:E.
  destruct (negb _); [positions|].
  pose proof (parseDocumentLoop_advances bound [] p1) as HL.
  destruct (parseDocumentLoop env input recur bound [] p1); cbn [bind];
    try exact I; [|positions].
  repeat brk0; positions.
Qed.

Lemma parseExprListLoop_advances fuel : forall l p,
  advances 0 1 p (parseExprListLoop input recur fuel l p).
Proof.
  induction fuel as [|fuel IH]; intros l p; [exact I|].
  cbn [parseExprListLoop].
  pose proof (Hrecur p) as HR.
  destruct (recur p) as [r p1|e p1| |]; try exact I; [|positions].
  destruct (ScanIgnoreWhitespace input p1) as [ti p2] eqn:E.
  destruct (negb _); [positions|].
  specialize (IH (l ++ [fst r]) p2).
  destruct (parseExprListLoop input recur fuel _ p2); positions.
Qed.

Lemma parseExprList_advances a b p :
  advances 2 1 p (parseExprList env input recur bound a b p).
Proof.
  unfold parseExprList.
  destruct (ScanIgnoreWhitespace input p) as [ti p1] eqn:E.
  destruct (negb _); [positions|].
  pose proof (parseExprListLoop_advances bound [] p1) as HL.
  destruct (parseExprListLoop input recur bound [] p1); cbn [bind];
    try exact I; [|positions].
  repeat brk0; positions.
Qed.

Lemma resolve_advances name args p :
  advances 0 0 p (resolve env name args p).
Proof. unfold resolve. destruct (GetFunc env name args); positions. Qed.

Lemma parseFunctionLoop_advances fuel : forall name l p,
  advances 1 1 p (parseFunctionLoop env input recur fuel name l p).
Proof.
  induction fuel as [|fuel IH]; intros name l p; [exact I|].
  cbn [parseFunctionLoop].
  pose proof (Hrecur p) as HR.
  destruct (recur p) as [r p1|e p1| |]; cbn [bind]; try exact I; [|positions].
  destruct (ScanIgnoreWhitespace input p1) as [ti p2] eqn:E.
  destruct (negb _).
  - pose proof (resolve_advances name (l ++ [fst r]) (Unscan input p2)) as HX.
    destruct (resolve env name _ _); positions.
  - specialize (IH name (l ++ [fst r]) p2).
    destruct (parseFunctionLoop env input recur fuel name _ p2); positions.
Qed.

Lemma parseFunction_advances p :
  advances 3 1 p (parseFunction env input recur bound p).
Proof.
  unfold parseFunction.
  pose proof (parseIdent_advances p) as HI.
  destruct (parseIdent env input p) as [fname p1| | |]; cbn [bind];
    try exact I; [|positions].
  destruct (ScanIgnoreWhitespace input p1) as [ti p2] eqn:E2.
  destruct (negb _); [positions|].
  destruct (ScanIgnoreWhitespace input p2) as [ti3 p3] eqn:E3.
  destruct (Token_eqb _ _).
  - pose proof (resolve_advances fname [] p3) as HX.
    destruct (resolve env fname _ _); positions.
  - pose proof (parseFunctionLoop_advances bound fname [] (Unscan input p3))
      as HL.
    destruct (parseFunctionLoop env input recur bound fname _ _); positions.
Qed.

(** Entered on an identifier that has just been read and pushed back,
    [parseFunction] reads it again and goes on from there. *)
Lemma parseFunction_resumes p ti q :
  ScanIgnoreWhitespace input p = (ti, q) -> Tok ti = IDENT ->
  advances 1 1 q (parseFunction env input recur bound (Unscan input q)).
Proof.
  intros E1 ET. unfold parseFunction, parseIdent.
  rewrite (ScanIgnoreWhitespace_again _ _ _ _ E1)
    by (rewrite ET; discriminate).
  rewrite ET. change (Token_eqb IDENT IDENT) with true. cbn [negb bind].
  destruct (ScanIgnoreWhitespace input q) as [ti2 p2] eqn:E2.
  destruct (negb _); [positions|].
  destruct (ScanIgnoreWhitespace input p2) as [ti3 p3] eqn:E3.
  destruct (Token_eqb _ _).
  - pose proof (resolve_advances ti.(Lit) [] p3) as HX.
    destruct (resolve env _ _ _); positions.
  - pose proof (parseFunctionLoop_advances bound ti.(Lit) []
                  (Unscan input p3)) as HL.
    destruct (parseFunctionLoop env input recur bound _ _ _); positions.
Qed.

Lemma parseCastExpression_advances p :
  advances 3 1 p (parseCastExpression env input recur p).
Proof.
  unfold parseCastExpression.
  destruct (ScanIgnoreWhitespace input p) as [ti p1] eqn:E1.
  destruct (negb _); [positions|].
  destruct (ScanIgnoreWhitespace input p1) as [ti2 p2] eqn:E2.
  destruct (negb _); [positions|].
  pose proof (Hrecur p2) as HR.
  destruct (recur p2) as [r p3|e p3| |]; cbn [bind]; try exact I; [|positions].
  destruct (ScanIgnoreWhitespace input p3) as [ti4 p4] eqn:E4.
  destruct (negb _); [positions|].
  destruct (parseType input p4) as [o p5] eqn:ET.
  apply parseType_advances in ET.
  destruct o; repeat brk0; positions.
Qed.

Lemma parseUnaryExpr_advances p :
  advances 1 1 p (parseUnaryExpr env input recur bound p).
Proof.
  unfold parseUnaryExpr.
  destruct (ScanIgnoreWhitespace input p) as [ti p1] eqn:E1.
  destruct (Tok ti) eqn:ET; try (positions; fail).
  - destruct (Scan input p1) as [ti1 p2] eqn:E2.
    destruct (Token_eqb _ _).
    + pose proof (parseFunction_advances (Unscan input (Unscan input p2)))
        as HF.
      destruct (parseFunction _ _ _ _ _); positions.
    + pose proof (parseFieldRef_advances bound
                    (Unscan input (Unscan input p2))) as HF.
      destruct (parseFieldRef _ _ _ _); cbn [bind]; positions.
  - repeat brk0; positions.
  - repeat brk0; positions.
  - repeat brk0; positions.
  - repeat brk0; positions.
  - repeat brk0; positions.
  - pose proof (parseExprList_advances LPAREN RPAREN (Unscan input p1)) as HF.
    destruct (parseExprList _ _ _ _ _ _ _); cbn [bind]; positions.
  - unfold parseDocument.
    rewrite (ScanIgnoreWhitespace_again _ _ _ _ E1)
      by (rewrite ET; discriminate).
    rewrite ET. cbn [Token_eqb negb].
    change (Token_eqb LBRACKET LBRACKET) with true. cbn [negb].
    pose proof (parseDocumentLoop_advances bound [] p1) as HL.
    destruct (parseDocumentLoop env input recur bound [] p1); cbn [bind];
      try exact I; repeat brk0; cbn [bind]; positions.
  - pose proof (parseExprList_advances LSBRACKET RSBRACKET (Unscan input p1))
      as HF.
    destruct (parseExprList _ _ _ _ _ _ _); cbn [bind]; positions.
  - pose proof (parseCastExpression_advances (Unscan input p1)) as HF.
    destruct (parseCastExpression _ _ _ _); positions.
Qed.

Lemma parseExprLoop_advances fuel : forall root p,
  advances 0 1 p (parseExprLoop env input recur bound fuel root p).
Proof.
  induction fuel as [|fuel IH]; intros root p; [exact I|].
  cbn [parseExprLoop].
  destruct (ScanIgnoreWhitespace input p) as [op p1] eqn:E1.
  destruct (negb _); [positions|].
  pose proof (parseUnaryExpr_advances p1) as HU.
  destruct (parseUnaryExpr env input recur bound p1) as [rhs p2| | |];
    cbn [bind]; try exact I; [|positions].
  destruct (climb _ _ _) as [root'|]; [|exact I].
  specialize (IH root' p2).
  destruct (parseExprLoop env input recur bound fuel root' p2); positions.
Qed.

Lemma release_advances {A : Type} d1 d2 p own (o : Outcome A) :
  advances d1 d2 p o -> advances d1 d2 p (release own o).
Proof. destruct own, o; cbn; auto. Qed.

Lemma parseExprBody_advances p :
  advances 1 1 p (parseExprBody env input recur bound p).
Proof.
  unfold parseExprBody. apply release_advances.
  set (p0 := if match buf p with Some _ => false | None => true end
             then setBuf p (Some EmptyString) else p).
  assert (Hp0 : pos p0 = pos p) by (subst p0; destruct (buf p); reflexivity).
  pose proof (parseUnaryExpr_advances p0) as HU.
  destruct (parseUnaryExpr env input recur bound p0) as [e p1| | |];
    cbn [bind]; try exact I; [|positions].
  pose proof (parseExprLoop_advances bound e p1) as HL.
  destruct (parseExprLoop env input recur bound bound e p1); positions.
Qed.

End LowerBound.

(** [ParseExpr] leaves the parser at least one token further than it
    finds it, on a value as on an error. *)
Lemma ParseExpr_advances env input fuel : forall p,
  advances 1 1 p (ParseExpr env input fuel p).
Proof.
  induction fuel as [|fuel IH]; intros p; [exact I|].
  cbn [ParseExpr]. apply parseExprBody_advances. exact IH.
Qed.

(** *** The capture buffer *)

Lemma append_nil_r (s : string) : (s ++ "")%string = s.
Proof. induction s; cbn; [reflexivity | now f_equal]. Qed.

Lemma append_assoc (a b c : string) :
  ((a ++ b) ++ c)%string = (a ++ (b ++ c))%string.
Proof. induction a; cbn; [reflexivity | now f_equal]. Qed.

Lemma raws_cons x l : raws (x :: l) = (Raw x ++ raws l)%string.
Proof. reflexivity. Qed.

Lemma raws_app l l' : raws (l ++ l') = (raws l ++ raws l')%string.
Proof.
  induction l as [|x l IH]; [reflexivity|].
  cbn [app]. now rewrite !raws_cons, IH, append_assoc.
Qed.

Lemma consumed_S input n :
  consumed input (S n) = consumed input n ++ [tokenAt input n].
Proof. unfold consumed. now rewrite seq_S, map_app. Qed.

Lemma consumed_length input n : List.length (consumed input n) = n.
Proof. unfold consumed. now rewrite length_map, length_seq. Qed.

Lemma consumed_nth input n i :
  i < n -> nth i (consumed input n) eofToken = tokenAt input i.
Proof.
  intros H. unfold consumed.
  rewrite (nth_indep _ eofToken (tokenAt input 0))
    by (now rewrite length_map, length_seq).
  rewrite map_nth, seq_nth by exact H. reflexivity.
Qed.

(** Within the input, they are its first tokens. *)
Lemma consumed_firstn input n :
  n <= List.length input -> consumed input n = firstn n input.
Proof.
  intros H. apply nth_ext with (d := eofToken) (d' := eofToken).
  - rewrite consumed_length, length_firstn. lia.
  - intros i Hi. rewrite consumed_length in Hi.
    rewrite consumed_nth by exact Hi. unfold tokenAt.
    now rewrite nth_firstn, (proj2 (Nat.ltb_lt i n) Hi).
Qed.

Lemma raws_consumed_S input n :
  raws (consumed input (S n))
  = (raws (consumed input n) ++ Raw (tokenAt input n))%string.
Proof.
  rewrite consumed_S, raws_app, raws_cons. cbn [raws fold_right].
  now rewrite append_nil_r.
Qed.

Section Captured.

Variable input : list TokenInfo.

Lemma Scan_captured p ti p1 :
  Scan input p = (ti, p1) -> captured input p -> captured input p1.
Proof.
  unfold Scan, captured. intros H Hc. injection H as <- <-.
  unfold setPos. cbn [buf pos]. rewrite Hc. cbn [option_map].
  now rewrite raws_consumed_S.
Qed.

Lemma Unscan_captured p : captured input p -> captured input (Unscan input p).
Proof.
  unfold Unscan, captured. intros Hc. unfold setPos. cbn [buf pos].
  rewrite Hc. cbn [option_map]. f_equal.
  destruct (pos p) as [|n]; cbn [Nat.pred].
  - cbn. destruct (String.length (Raw (tokenAt input 0))); reflexivity.
  - rewrite raws_consumed_S. apply substring_append.
Qed.

Lemma ScanIgnoreWhitespace_captured p ti p1 :
  ScanIgnoreWhitespace input p = (ti, p1) ->
  captured input p -> captured input p1.
Proof.
  unfold ScanIgnoreWhitespace. generalize (List.length input - pos p).
  intros n. revert p. induction n as [|n IH]; intros p;
    cbn [scanIgnoreWhitespaceLoop];
    destruct (Scan input p) as [ti' p'] eqn:E.
  - intros H Hc. injection H as <- <-. eapply Scan_captured; eauto.
  - destruct (Token_eqb _ _).
    + intros H Hc. eapply IH; eauto. eapply Scan_captured; eauto.
    + intros H Hc. injection H as <- <-. eapply Scan_captured; eauto.
Qed.

End Captured.

(** *** The parser on the input and on the trimmed slice, in lock step *)

Lemma Tok_eofToken : Tok eofToken = EOF.
Proof. reflexivity. Qed.

(** Computes the comparisons of the end-of-input token with a token kind
    that the second parser makes at the boundary. *)
Ltac at_eof :=
  rewrite ?Tok_eofToken;
  repeat match goal with
  | |- context [Token_eqb EOF ?x] =>
      let b := eval vm_compute in (Token_eqb EOF x) in
      change (Token_eqb EOF x) with b
  end;
  cbn [negb orb andb]; cbv iota.

Lemma ScanIgnoreWhitespace_sameState input p ti q :
  ScanIgnoreWhitespace input p = (ti, q) -> sameState q p.
Proof.
  intros H. apply ScanIgnoreWhitespace_spec in H.
  destruct H as (j & _ & _ & _ & _ & _ & H). exact H.
Qed.

Lemma Unscan_sameState input p : sameState (Unscan input p) p.
Proof. apply Unscan_facts. Qed.

Lemma sameState_step p1 p2 q1 q2 :
  sameState p1 p2 -> sameState q1 p1 -> sameState q2 p2 -> sameState q1 q2.
Proof.
  intros H H1 H2. eapply sameState_trans; [exact H1|].
  eapply sameState_trans; [exact H|]. now apply sameState_sym.
Qed.

Section Trimmed.

Variable env : Extern.
Variables input1 input2 : list TokenInfo.
Variables k E B : nat.

Hypothesis Hlead : forall i, i < k -> Tok (tokenAt input1 i) = WS.
Hypothesis Hagree : forall i,
  k <= i < E -> tokenAt input2 (i - k) = tokenAt input1 i.
Hypothesis Hend : forall i, E <= i + k -> tokenAt input2 i = eofToken.
Hypothesis Htrail : forall i, E <= i < B -> Tok (tokenAt input1 i) = WS.
Hypothesis Hnext : Tok (tokenAt input1 B) <> WS.
Hypothesis HkE : k <= E.
Hypothesis HEB : E <= B.

Local Abbreviation synced := (synced k E B).
Local Abbreviation leading := (leading k).
Local Abbreviation related := (related k E B).
Local Abbreviation crossed := (crossed k E B).
Local Abbreviation mirrors := (mirrorsBelow k E B (S B)).
Local Abbreviation mirrorsInside := (mirrorsBelow k E B E).
Local Abbreviation escapes := (escapes E B).

Lemma synced_related p1 p2 : synced p1 p2 -> related p1 p2.
Proof. now left. Qed.

Lemma related_sameState p1 p2 : related p1 p2 -> sameState p1 p2.
Proof. now intros [(H & _)|(H & _)]. Qed.

Lemma synced_near p1 p2 :
  synced p1 p2 -> pos p1 <= E -> k <= pos p1 /\ pos p1 = pos p2 + k.
Proof. intros (_ & [H|H]) He; lia. Qed.

Lemma Unscan_crossed q1 q2 :
  crossed q1 q2 -> synced (Unscan input1 q1) (Unscan input2 q2).
Proof.
  intros (Hs & H2 & H1). split.
  - eapply sameState_step; [exact Hs| |]; apply Unscan_sameState.
  - rewrite !Unscan_pos. destruct H1 as [H1|H1]; [left|right]; lia.
Qed.

Lemma Unscan_related p1 p2 :
  related p1 p2 -> pos p1 <= E ->
  related (Unscan input1 p1) (Unscan input2 p2).
Proof.
  intros HR He.
  assert (HS : sameState (Unscan input1 p1) (Unscan input2 p2)).
  { eapply sameState_step; [exact (related_sameState _ _ HR)| |];
      apply Unscan_sameState. }
  destruct HR as [H|(_ & Hk & Hp)].
  - destruct (synced_near _ _ H He) as (Hk & Hp).
    destruct (Nat.eq_dec (pos p1) k) as [Ek|Ek].
    + destruct (Nat.eq_dec k 0) as [E0|E0].
      * left. split; [exact HS|]. left. rewrite !Unscan_pos. lia.
      * right. split; [exact HS|]. rewrite !Unscan_pos. lia.
    + left. split; [exact HS|]. left. rewrite !Unscan_pos. lia.
  - right. split; [exact HS|]. rewrite !Unscan_pos. lia.
Qed.

(** The two parsers read a token: the same one within the common part,
    or the first reads on and the second its end of input. *)
Lemma Scan_synced p1 p2 ti1 q1 ti2 q2 :
  synced p1 p2 -> pos p1 <= B ->
  Scan input1 p1 = (ti1, q1) -> Scan input2 p2 = (ti2, q2) ->
  k < pos q1 /\ pos q1 = S (pos p1) /\
  ((ti2 = ti1 /\ synced q1 q2 /\ pos q1 <= E) \/
   (ti2 = eofToken /\ crossed q1 q2 /\
    (Tok ti1 = WS \/ pos q1 = B + 1))).
Proof.
  intros (Hs & Hp) HB E1 E2.
  apply Scan_facts in E1, E2.
  destruct E1 as (-> & P1 & S1), E2 as (-> & P2 & S2).
  assert (HS : sameState q1 q2) by exact (sameState_step _ _ _ _ Hs S1 S2).
  split; [lia|]. split; [exact P1|].
  destruct (le_gt_dec E (pos p1)) as [Hge|Hlt].
  - right. split; [apply Hend; lia|]. split.
    + split; [exact HS|]. lia.
    + destruct (Nat.eq_dec (pos p1) B) as [EB|NB]; [lia|].
      left. apply Htrail. lia.
  - left. split; [|split; [|lia]].
    + replace (pos p2) with (pos p1 - k) by lia. apply Hagree. lia.
    + split; [exact HS|]. left. lia.
Qed.

(** The two parsers skip white space: either they read the same token
    within the common part, or the first reads the token at [B] and the
    second the end of its input. *)
Lemma ScanIgnoreWhitespace_related p1 p2 ti1 q1 ti2 q2 :
  related p1 p2 -> pos p1 <= B ->
  ScanIgnoreWhitespace input1 p1 = (ti1, q1) ->
  ScanIgnoreWhitespace input2 p2 = (ti2, q2) ->
  k < pos q1 /\ pos p1 < pos q1 /\
  ((ti2 = ti1 /\ synced q1 q2 /\ pos q1 <= E) \/
   (ti1 = tokenAt input1 B /\ ti2 = eofToken /\ crossed q1 q2 /\
    pos q1 = B + 1)).
Proof.
  intros HR HB E1 E2.
  apply ScanIgnoreWhitespace_spec in E1, E2.
  destruct E1 as (j1 & Hj1 & W1 & N1 & -> & P1 & S1).
  destruct E2 as (j2 & Hj2 & W2 & N2 & -> & P2 & S2).
  assert (HS : sameState q1 q2).
  { exact (sameState_step _ _ _ _ (related_sameState _ _ HR) S1 S2). }
  assert (Hj1B : j1 <= B).
  { destruct (le_gt_dec j1 B); auto. exfalso. apply Hnext. apply W1. lia. }
  assert (Hj1k : k <= j1).
  { destruct (le_gt_dec k j1); auto. exfalso. apply N1. apply Hlead. lia. }
  assert (Hj1E : j1 < E \/ j1 = B).
  { destruct (le_gt_dec E j1); [|now left]. right.
    destruct (Nat.eq_dec j1 B); auto. exfalso. apply N1. apply Htrail. lia. }
  (* where the second parser starts, against the first *)
  assert (Hp2 : pos p2 + k <= E /\
                forall i, pos p2 <= i -> i + k < E -> pos p1 <= i + k).
  { destruct HR as [(_ & [A|A])|(_ & A & A')]; split; intros; lia. }
  destruct Hp2 as (Hp2 & Hp2').
  assert (Ej : j2 = Nat.min j1 E - k).
  { apply (first_token_unique input2 (pos p2)); auto.
    - destruct HR as [(_ & [A|A])|(_ & A & A')]; lia.
    - intros i Hi.
      replace i with ((i + k) - k) by lia. rewrite Hagree by lia.
      apply W1. specialize (Hp2' i). lia.
    - destruct Hj1E as [L|L].
      + replace (Nat.min j1 E) with j1 by lia.
        rewrite Hagree by lia. exact N1.
      + rewrite Hend by lia. discriminate. }
  split; [lia|]. split; [lia|].
  destruct Hj1E as [L|L].
  - left. replace (Nat.min j1 E) with j1 in Ej by lia. subst j2.
    split; [apply Hagree; lia|]. split; [|lia].
    split; [exact HS|]. left. lia.
  - right. subst j1. split; [reflexivity|].
    split; [apply Hend; lia|]. split; [|lia].
    split; [exact HS|]. lia.
Qed.

(** From the white space at the end of the slice on, the first parser
    reads beyond the slice. *)
Lemma ScanIgnoreWhitespace_tail p ti q :
  ScanIgnoreWhitespace input1 p = (ti, q) -> E <= pos p -> B < pos q.
Proof.
  intros H He. apply ScanIgnoreWhitespace_spec in H.
  destruct H as (j & Hj & _ & N & _ & P & _).
  destruct (le_gt_dec B j); [lia|]. exfalso. apply N. apply Htrail. lia.
Qed.

Lemma escapes_mirrors {A : Type} n (Rv : A -> A -> Prop) (o1 o2 : Outcome A) :
  n <= S B -> escapes o1 -> mirrorsBelow k E B n Rv o1 o2.
Proof. destruct o1; cbn; intros; try exact I; lia. Qed.

Lemma advances_escapes {A : Type} a b p (o : Outcome A) :
  advances a b p o -> B < pos p + a -> E < pos p + b -> escapes o.
Proof. destruct o; cbn; intros; try exact I; lia. Qed.

Lemma mirrors_Ok {A : Type} n (Rv : A -> A -> Prop) a a' q1 q2 :
  Rv a a' -> related q1 q2 -> mirrorsBelow k E B n Rv (Ok a q1) (Ok a' q2).
Proof. intros H HS _. eauto. Qed.

Lemma mirrors_Fail {A : Type} n (Rv : A -> A -> Prop) e e' q1 q2 :
  related q1 q2 -> mirrorsBelow k E B n Rv (Fail e q1) (Fail e' q2).
Proof. intros HS _. eauto. Qed.

Lemma mirrors_beyond_Ok {A : Type} n (Rv : A -> A -> Prop) a q1 o2 :
  n <= S B -> B < pos q1 -> mirrorsBelow k E B n Rv (Ok a q1) o2.
Proof. cbn. intros. lia. Qed.

Lemma mirrors_beyond_Fail {A : Type} n (Rv : A -> A -> Prop) e q1 o2 :
  E < pos q1 -> @mirrorsBelow A k E B n Rv (Fail e q1) o2.
Proof. cbn. intros. lia. Qed.

Lemma escapes_Ok {A : Type} (a : A) q : B < pos q -> escapes (Ok a q).
Proof. auto. Qed.

Lemma escapes_Fail {A : Type} e q : E < pos q -> escapes (@Fail A e q).
Proof. auto. Qed.

Lemma mirrors_bind {A C : Type} n (RA : A -> A -> Prop) (RC : C -> C -> Prop)
    (m1 m2 : Outcome A) (k1 k2 : A -> Parser -> Outcome C) :
  n <= S B ->
  mirrors RA m1 m2 ->
  (forall a q1, B < pos q1 -> escapes (k1 a q1)) ->
  (forall a a' q1 q2,
     RA a a' -> related q1 q2 -> pos q1 <= B ->
     mirrorsBelow k E B n RC (k1 a q1) (k2 a' q2)) ->
  mirrorsBelow k E B n RC (bind m1 k1) (bind m2 k2).
Proof.
  intros Hn Hm Hk Hc. destruct m1 as [a q1|e q1| |]; cbn [bind]; try exact I.
  - destruct (le_gt_dec (pos q1) B) as [Hin|Hout].
    + destruct Hm as (a' & q2 & -> & Ha & HS); [lia|]. cbn [bind].
      now apply Hc.
    + apply escapes_mirrors; auto.
  - intros Hs. destruct (Hm Hs) as (e' & q2 & -> & HS). cbn [bind].
    eauto.
Qed.

(** After a loop that gives up on an error of its element, the parsers
    are known to be synced only strictly inside the common part; from
    its end on, what follows the loop must read beyond the slice. *)
Lemma mirrorsInside_bind {A C : Type} (RA : A -> A -> Prop)
    (RC : C -> C -> Prop)
    (m1 m2 : Outcome A) (k1 k2 : A -> Parser -> Outcome C) :
  mirrorsInside RA m1 m2 ->
  (forall a q1, E <= pos q1 -> escapes (k1 a q1)) ->
  (forall a a' q1 q2,
     RA a a' -> related q1 q2 -> pos q1 < E ->
     mirrors RC (k1 a q1) (k2 a' q2)) ->
  mirrors RC (bind m1 k1) (bind m2 k2).
Proof.
  intros Hm Hk Hc. destruct m1 as [a q1|e q1| |]; cbn [bind]; try exact I.
  - destruct (le_gt_dec E (pos q1)) as [Hout|Hin].
    + apply escapes_mirrors; auto.
    + destruct (Hm Hin) as (a' & q2 & -> & Ha & HS). cbn [bind].
      now apply Hc.
  - intros Hs. destruct (Hm Hs) as (e' & q2 & -> & HS). cbn [bind].
    eauto.
Qed.

(** The two parsers skip white space. *)
Ltac siw2 HR :=
  match goal with
  | |- context [ScanIgnoreWhitespace input1 ?p1] =>
    match goal with
    | |- context [ScanIgnoreWhitespace input2 ?p2] =>
      let E1 := fresh "E1" in
      let E2 := fresh "E2" in
      let HS := fresh "HS" in
      let Hk := fresh "Hk" in
      let Hlt := fresh "Hlt" in
      let HB := fresh "HB" in
      let ti1 := fresh "ti" in
      let ti2 := fresh "ti'" in
      let q1 := fresh "q" in
      let q2 := fresh "q'" in
      destruct (ScanIgnoreWhitespace input1 p1) as [ti1 q1] eqn:E1;
      destruct (ScanIgnoreWhitespace input2 p2) as [ti2 q2] eqn:E2;
      destruct (ScanIgnoreWhitespace_related p1 p2 ti1 q1 ti2 q2
                  ltac:(first [exact HR | exact (synced_related _ _ HR)])
                  ltac:(rewrite ?Unscan_pos; lia) E1 E2)
        as (Hk & Hlt & [(-> & HS & HB)|(-> & -> & HS & HB)])
    end
  end.

(** The two parsers read a token. *)
Ltac scan2 HR :=
  match goal with
  | |- context [Scan input1 ?p1] =>
    match goal with
    | |- context [Scan input2 ?p2] =>
      let E1 := fresh "E1" in
      let E2 := fresh "E2" in
      let HS := fresh "HS" in
      let Hk := fresh "Hk" in
      let Hlt := fresh "Hlt" in
      let HB := fresh "HB" in
      let HX := fresh "HX" in
      let ti1 := fresh "ti" in
      let ti2 := fresh "ti'" in
      let q1 := fresh "q" in
      let q2 := fresh "q'" in
      destruct (Scan input1 p1) as [ti1 q1] eqn:E1;
      destruct (Scan input2 p2) as [ti2 q2] eqn:E2;
      destruct (Scan_synced p1 p2 ti1 q1 ti2 q2 HR ltac:(lia) E1 E2)
        as (Hk & Hlt & [(-> & HS & HB)|(-> & HS & HX)])
    end
  end.

(** What is known of where two crossed parsers are. *)
Ltac uncross :=
  repeat match goal with
  | H : crossed _ _ |- _ =>
      let H1 := fresh "HC" in
      let H2 := fresh "HC" in
      pose proof H as (_ & H1 & H2); revert H
  end; intros.

Lemma synced_counters q q' o n :
  synced q q' ->
  synced (mkParser (pos q) o n (buf q)) (mkParser (pos q') o n (buf q')).
Proof.
  intros ((Ho & Hn & Hb) & Hp). split; [|exact Hp].
  repeat split; auto; apply Hb.
Qed.

(** The two parsers are related after what they did alike. *)
Ltac sync :=
  first
    [ assumption
    | apply synced_related; assumption
    | apply synced_related; apply Unscan_crossed; assumption
    | apply synced_related; apply synced_counters; assumption
    | apply Unscan_related; [sync | solve [positions]] ].

(** Closes a goal on two outcomes that end alike, or whose first one
    ends beyond the slice. *)
Ltac mirror :=
  first
    [ exact I
    | solve [apply mirrors_beyond_Ok; [lia | uncross; positions]]
    | solve [apply mirrors_beyond_Fail; uncross; positions]
    | solve [apply mirrors_Ok; [first [reflexivity | now unfold sameExpr]
                               | sync]]
    | solve [apply mirrors_Fail; sync] ].

(** The first parser is beyond the slice: whatever it returns, by the
    bound [L] on its advance, is out of reach. *)
Ltac escaped L :=
  apply escapes_mirrors; [lia|];
  eapply advances_escapes;
  [apply L | uncross; positions | uncross; positions].

Lemma parseIdent_mirrors p1 p2 :
  related p1 p2 ->
  mirrors eq (parseIdent env input1 p1) (parseIdent env input2 p2).
Proof.
  intros HR.
  destruct (le_gt_dec (pos p1) B) as [Hin|Hout];
    [|escaped parseIdent_advances].
  unfold parseIdent. siw2 HR.
  - destruct (negb _); mirror.
  - at_eof. destruct (negb _); mirror.
Qed.

(** A token after the common part that is no white space is the one at
    [B]. *)
Ltac awake HX ET :=
  destruct HX as [HX|HX]; [rewrite HX in ET; discriminate|].

Lemma parseFieldRefLoop_mirrors fuel : forall l p1 p2,
  synced p1 p2 ->
  mirrors eq (parseFieldRefLoop input1 fuel l p1)
    (parseFieldRefLoop input2 fuel l p2).
Proof.
  induction fuel as [|fuel IH]; intros l p1 p2 HR; [exact I|].
  destruct (le_gt_dec (pos p1) B) as [Hin|Hout];
    [|escaped parseFieldRefLoop_advances].
  cbn [parseFieldRefLoop]. scan2 HR.
  - destruct (Tok ti) eqn:ET; try mirror.
    + destruct (Lit ti); [exact I|].
      destruct (negb _); [mirror|]. now apply IH.
    + scan2 HS.
      * destruct (negb _); [mirror|]. now apply IH.
      * at_eof. destruct (Token_eqb (Tok ti0) IDENT) eqn:EI; cbn [negb];
          [|mirror].
        apply Token_eqb_eq in EI. awake HX EI.
        escaped parseFieldRefLoop_advances.
  - at_eof. destruct (Tok ti) eqn:ET; try mirror.
    + awake HX ET. destruct (Lit _); [exact I|].
      destruct (negb _); [mirror|]. escaped parseFieldRefLoop_advances.
    + awake HX ET. destruct (Scan input1 q) as [ti2 q2] eqn:E3.
      destruct (negb _); [mirror|].
      escaped parseFieldRefLoop_advances.
Qed.

Lemma parseFieldRef_mirrors fuel p1 p2 :
  related p1 p2 ->
  mirrors eq (parseFieldRef env input1 fuel p1)
    (parseFieldRef env input2 fuel p2).
Proof.
  intros HR.
  destruct (le_gt_dec (pos p1) B) as [Hin|Hout];
    [|escaped parseFieldRef_advances].
  unfold parseFieldRef, parseIdent. siw2 HR.
  - destruct (negb _); cbn [bind]; [mirror|].
    now apply parseFieldRefLoop_mirrors.
  - at_eof. destruct (negb _); cbn [bind]; [mirror|].
    escaped parseFieldRefLoop_advances.
Qed.

Variables recur1 recur2 : Parser -> Outcome (Expr * string).
Variable bound : nat.
Hypothesis Hrecur : forall p1 p2,
  related p1 p2 -> mirrors sameExpr (recur1 p1) (recur2 p2).
Hypothesis Hadvances : forall p, advances 1 1 p (recur1 p).

(** The first parser goes on with [recur1] from beyond the slice. *)
Ltac recurs :=
  match goal with
  | |- context [recur1 ?q] =>
      let HA := fresh "HA" in
      pose proof (Hadvances q) as HA;
      destruct (recur1 q); cbn [bind]; mirror
  end.

Lemma parseKV_mirrors p1 p2 :
  related p1 p2 ->
  mirrors eq (parseKV env input1 recur1 p1) (parseKV env input2 recur2 p2).
Proof.
  intros HR.
  destruct (le_gt_dec (pos p1) B) as [Hin|Hout];
    [|escaped (parseKV_advances env input1 recur1 Hadvances)].
  unfold parseKV. siw2 HR.
  - destruct (orb _ _); [|mirror].
    siw2 HS.
    + destruct (negb _); [mirror|].
      apply mirrors_bind with (RA := sameExpr); [lia| | |].
      * apply Hrecur. now left.
      * intros a q1 Hq. exact Hq.
      * intros a a' q1 q2 Ha HS1 _. unfold sameExpr in Ha. rewrite Ha.
        mirror.
    + at_eof. destruct (negb _); [mirror|]. recurs.
  - at_eof. destruct (orb _ _); [|mirror].
    destruct (ScanIgnoreWhitespace input1 q) as [ti2 q2] eqn:E3.
    destruct (negb _); [mirror|]. recurs.
Qed.

Lemma parseDocumentLoop_mirrors fuel : forall l p1 p2,
  related p1 p2 ->
  mirrorsInside eq (parseDocumentLoop env input1 recur1 fuel l p1)
    (parseDocumentLoop env input2 recur2 fuel l p2).
Proof.
  induction fuel as [|fuel IH]; intros l p1 p2 HR; [exact I|].
  destruct (le_gt_dec (pos p1) B) as [Hin|Hout];
    [|escaped (parseDocumentLoop_advances env input1 recur1 Hadvances)].
  cbn [parseDocumentLoop].
  pose proof (parseKV_mirrors p1 p2 HR) as HM.
  pose proof (parseKV_advances env input1 recur1 Hadvances p1) as HA.
  destruct (parseKV env input1 recur1 p1) as [kv q1|e q1| |]; try exact I.
  - destruct (le_gt_dec (pos q1) B) as [Hin1|Hout1].
    + destruct HM as (kv' & q2 & -> & <- & HS); [lia|].
      siw2 HS.
      * destruct (negb _); [mirror|].
        apply IH. sync.
      * at_eof. destruct (negb _).
        -- intros Hp. rewrite Unscan_pos in Hp. lia.
        -- escaped (parseDocumentLoop_advances env input1 recur1 Hadvances).
    + destruct (ScanIgnoreWhitespace input1 q1) as [ti q] eqn:E1.
      destruct (negb _).
      * intros Hp. positions.
      * escaped (parseDocumentLoop_advances env input1 recur1 Hadvances).
  - intros Hp. rewrite Unscan_pos in Hp.
    destruct HM as (e' & q2 & -> & HS); [lia|].
    exists l, (Unscan input2 q2). split; [reflexivity|].
    split; [reflexivity|]. apply Unscan_related; auto. lia.
Qed.

Lemma parseDocument_mirrors p1 p2 :
  related p1 p2 ->
  mirrors eq (parseDocument env input1 recur1 bound p1)
    (parseDocument env input2 recur2 bound p2).
Proof.
  intros HR.
  destruct (le_gt_dec (pos p1) B) as [Hin|Hout];
    [|escaped (parseDocument_advances env input1 recur1 bound Hadvances)].
  unfold parseDocument. siw2 HR.
  - destruct (negb _); [mirror|].
    apply mirrorsInside_bind with (RA := eq).
    + apply parseDocumentLoop_mirrors. now left.
    + intros a q1 Hq.
      destruct (ScanIgnoreWhitespace input1 q1) as [ti3 q3] eqn:E3.
      apply ScanIgnoreWhitespace_tail in E3; [|exact Hq].
      destruct (negb _); [apply escapes_Fail|apply escapes_Ok]; lia.
    + intros a a' q1 q2 <- HS1 Hq. siw2 HS1.
      * destruct (negb _); mirror.
      * at_eof. destruct (negb _); mirror.
  - at_eof. destruct (negb _); [mirror|].
    pose proof (parseDocumentLoop_advances env input1 recur1 Hadvances
                  bound [] q) as HA.
    destruct (parseDocumentLoop env input1 recur1 bound [] q);
      cbn [bind]; try exact I.
    + repeat brk0; mirror.
    + mirror.
Qed.

Lemma parseExprListLoop_mirrors fuel : forall l p1 p2,
  related p1 p2 ->
  mirrorsInside eq (parseExprListLoop input1 recur1 fuel l p1)
    (parseExprListLoop input2 recur2 fuel l p2).
Proof.
  induction fuel as [|fuel IH]; intros l p1 p2 HR; [exact I|].
  destruct (le_gt_dec (pos p1) B) as [Hin|Hout];
    [|escaped (parseExprListLoop_advances input1 recur1 Hadvances)].
  cbn [parseExprListLoop].
  pose proof (Hrecur p1 p2 HR) as HM.
  pose proof (Hadvances p1) as HA.
  destruct (recur1 p1) as [r q1|e q1| |]; try exact I.
  - destruct (le_gt_dec (pos q1) B) as [Hin1|Hout1].
    + destruct HM as (r' & q2 & -> & Hr & HS); [lia|].
      unfold sameExpr in Hr. rewrite <- Hr.
      siw2 HS.
      * destruct (negb _); [mirror|].
        apply IH. sync.
      * at_eof. destruct (negb _).
        -- intros Hp. rewrite Unscan_pos in Hp. lia.
        -- escaped (parseExprListLoop_advances input1 recur1 Hadvances).
    + destruct (ScanIgnoreWhitespace input1 q1) as [ti q] eqn:E1.
      destruct (negb _).
      * intros Hp. positions.
      * escaped (parseExprListLoop_advances input1 recur1 Hadvances).
  - intros Hp. rewrite Unscan_pos in Hp.
    destruct HM as (e' & q2 & -> & HS); [lia|].
    exists l, (Unscan input2 q2). split; [reflexivity|].
    split; [reflexivity|]. apply Unscan_related; auto. lia.
Qed.

Lemma parseExprList_mirrors a b p1 p2 :
  a <> EOF -> b <> EOF ->
  related p1 p2 ->
  mirrors eq (parseExprList env input1 recur1 bound a b p1)
    (parseExprList env input2 recur2 bound a b p2).
Proof.
  intros Ha Hb HR.
  assert (Ea : Token_eqb EOF a = false) by (apply Token_eqb_neq; congruence).
  assert (Eb : Token_eqb EOF b = false) by (apply Token_eqb_neq; congruence).
  destruct (le_gt_dec (pos p1) B) as [Hin|Hout];
    [|escaped (parseExprList_advances env input1 recur1 bound Hadvances)].
  unfold parseExprList. siw2 HR.
  - destruct (negb _); [mirror|].
    apply mirrorsInside_bind with (RA := eq).
    + apply parseExprListLoop_mirrors. now left.
    + intros l q1 Hq.
      destruct (ScanIgnoreWhitespace input1 q1) as [ti3 q3] eqn:E3.
      apply ScanIgnoreWhitespace_tail in E3; [|exact Hq].
      destruct (negb _); [apply escapes_Fail|apply escapes_Ok]; lia.
    + intros l l' q1 q2 <- HS1 Hq. siw2 HS1.
      * destruct (negb _); mirror.
      * rewrite Tok_eofToken, Eb. cbn [negb]. destruct (negb _); mirror.
  - rewrite Tok_eofToken, Ea. cbn [negb]. destruct (negb _); [mirror|].
    pose proof (parseExprListLoop_advances input1 recur1 Hadvances
                  bound [] q) as HA.
    destruct (parseExprListLoop input1 recur1 bound [] q);
      cbn [bind]; try exact I.
    + repeat brk0; mirror.
    + mirror.
Qed.

Lemma resolve_mirrors name args q1 q2 :
  related q1 q2 ->
  mirrors eq (resolve env name args q1) (resolve env name args q2).
Proof.
  intros HS. unfold resolve. destruct (GetFunc env name args); mirror.
Qed.

Lemma resolve_escapes name args q :
  B < pos q -> escapes (resolve env name args q).
Proof.
  intros H. eapply advances_escapes; [apply resolve_advances|lia|lia].
Qed.

Lemma parseFunctionLoop_mirrors fuel : forall name l p1 p2,
  related p1 p2 ->
  mirrors eq (parseFunctionLoop env input1 recur1 fuel name l p1)
    (parseFunctionLoop env input2 recur2 fuel name l p2).
Proof.
  induction fuel as [|fuel IH]; intros name l p1 p2 HR; [exact I|].
  destruct (le_gt_dec (pos p1) B) as [Hin|Hout];
    [|escaped (parseFunctionLoop_advances env input1 recur1 Hadvances)].
  cbn [parseFunctionLoop].
  apply mirrors_bind with (RA := sameExpr); [lia| | |].
  - now apply Hrecur.
  - intros r q1 Hq.
    destruct (ScanIgnoreWhitespace input1 q1) as [ti q] eqn:E1.
    destruct (negb _).
    + apply resolve_escapes. positions.
    + eapply advances_escapes;
        [apply (parseFunctionLoop_advances env input1 recur1 Hadvances)
        |positions|positions].
  - intros r r' q1 q2 Hr HS Hq. unfold sameExpr in Hr. rewrite <- Hr.
    siw2 HS.
    + destruct (negb _).
      * apply resolve_mirrors; sync.
      * apply IH. sync.
    + at_eof. destruct (negb _).
      * apply resolve_mirrors; sync.
      * escaped (parseFunctionLoop_advances env input1 recur1 Hadvances).
Qed.

Lemma parseFunction_mirrors p1 p2 :
  related p1 p2 ->
  mirrors eq (parseFunction env input1 recur1 bound p1)
    (parseFunction env input2 recur2 bound p2).
Proof.
  intros HR. unfold parseFunction.
  apply mirrors_bind with (RA := eq); [lia| | |].
  - now apply parseIdent_mirrors.
  - intros fname q1 Hq.
    destruct (ScanIgnoreWhitespace input1 q1) as [ti q] eqn:E1.
    destruct (negb _); [apply escapes_Fail; positions|].
    destruct (ScanIgnoreWhitespace input1 q) as [ti3 q3] eqn:E3.
    destruct (Token_eqb _ _).
    + apply resolve_escapes. positions.
    + eapply advances_escapes;
        [apply (parseFunctionLoop_advances env input1 recur1 Hadvances)
        |positions|positions].
  - intros fname fname' q1 q2 <- HS Hq.
    siw2 HS.
    + destruct (negb _); [mirror|].
      siw2 HS0.
      * destruct (Token_eqb _ _).
        -- apply resolve_mirrors; sync.
        -- apply parseFunctionLoop_mirrors. sync.
      * at_eof. destruct (Token_eqb _ _).
        -- apply escapes_mirrors; [lia|]. apply resolve_escapes. lia.
        -- apply parseFunctionLoop_mirrors. sync.
    + at_eof. destruct (negb _); [mirror|].
      destruct (ScanIgnoreWhitespace input1 q) as [ti3 q3] eqn:E3.
      destruct (Token_eqb _ _).
      * apply escapes_mirrors; [lia|]. apply resolve_escapes. positions.
      * escaped (parseFunctionLoop_advances env input1 recur1 Hadvances).
Qed.

(** Closes a goal on an outcome of the first parser that ends beyond the
    slice whatever it looks at next. *)
Ltac gone :=
  repeat brk0;
  repeat match goal with
  | H : parseType _ _ = (_, _) |- _ => apply parseType_advances in H
  end;
  first [ exact I | apply escapes_Ok | apply escapes_Fail ];
  uncross; positions.

Lemma parseCastExpression_mirrors p1 p2 :
  related p1 p2 ->
  mirrors eq (parseCastExpression env input1 recur1 p1)
    (parseCastExpression env input2 recur2 p2).
Proof.
  intros HR.
  destruct (le_gt_dec (pos p1) B) as [Hin|Hout];
    [|escaped (parseCastExpression_advances env input1 recur1 Hadvances)].
  unfold parseCastExpression. siw2 HR.
  - destruct (negb _); [mirror|].
    siw2 HS.
    + destruct (negb _); [mirror|].
      apply mirrors_bind with (RA := sameExpr); [lia| | |].
      * apply Hrecur. sync.
      * intros r q1 Hq. gone.
      * intros r r' q1 q2 Hr HS1 Hq. unfold sameExpr in Hr. rewrite <- Hr.
        siw2 HS1.
        -- destruct (negb _); [mirror|].
           unfold parseType. siw2 HS2.
           ++ assert (HU : related (Unscan input1 q4) (Unscan input2 q'2))
                by sync.
              destruct (Tok ti2) eqn:ET; cbv iota beta;
                first
                  [ siw2 HS3;
                    [ destruct (negb _); mirror
                    | at_eof; destruct (negb _); mirror ]
                  | siw2 HU; mirror ].
           ++ assert (HU : related (Unscan input1 q4) (Unscan input2 q'2))
                by sync.
              rewrite Tok_eofToken.
              case_eq (Tok (tokenAt input1 B)); intros; cbv iota beta;
                first
                  [ siw2 HU; mirror
                  | apply escapes_mirrors; [lia|]; gone ].
        -- at_eof. destruct (negb _); [mirror|].
           apply escapes_mirrors; [lia|]. gone.
    + at_eof. destruct (negb _); [mirror|].
      apply escapes_mirrors; [lia|].
      pose proof (Hadvances q0) as HA.
      destruct (recur1 q0); cbn [bind]; try exact I; gone.
  - at_eof. destruct (negb _); [mirror|].
    apply escapes_mirrors; [lia|].
    destruct (ScanIgnoreWhitespace input1 q) as [ti2 q2] eqn:E3.
    destruct (negb _); [gone|].
    pose proof (Hadvances q2) as HA.
    destruct (recur1 q2); cbn [bind]; try exact I; gone.
Qed.

(** A token pushed back is the one that was read. *)
Ltac unscan :=
  repeat match goal with
  | H : Scan _ _ = (_, _) |- _ => rewrite (Unscan_Scan _ _ _ _ H)
  end.

Lemma parseUnaryExpr_mirrors p1 p2 :
  related p1 p2 ->
  mirrors eq (parseUnaryExpr env input1 recur1 bound p1)
    (parseUnaryExpr env input2 recur2 bound p2).
Proof.
  intros HR.
  destruct (le_gt_dec (pos p1) B) as [Hin|Hout];
    [|escaped (parseUnaryExpr_advances env input1 recur1 bound Hadvances)].
  destruct (ScanIgnoreWhitespace input1 p1) as [ti q] eqn:E1.
  destruct (ScanIgnoreWhitespace input2 p2) as [ti' q'] eqn:E2.
  destruct (ScanIgnoreWhitespace_related _ _ _ _ _ _ HR Hin E1 E2)
    as (Hk & Hlt & [(-> & HS & HB)|(-> & -> & HS & HB)]).
  - unfold parseUnaryExpr. rewrite E1, E2.
    assert (HU : related (Unscan input1 q) (Unscan input2 q')) by sync.
    pose proof HS as ((Ho & Hn & _) & _).
    destruct (Tok ti) eqn:ET; try mirror;
      lazymatch type of ET with
      | _ = CAST => now apply parseCastExpression_mirrors
      | _ = LBRACKET =>
          apply mirrors_bind with (RA := eq);
          [ lia
          | now apply parseDocument_mirrors
          | intros; now apply escapes_Ok
          | intros ? ? ? ? <- ? ?; mirror ]
      | _ = LSBRACKET =>
          apply mirrors_bind with (RA := eq);
          [ lia
          | apply parseExprList_mirrors; [discriminate|discriminate|exact HU]
          | intros; now apply escapes_Ok
          | intros ? ? ? ? <- ? ?; mirror ]
      | _ = LPAREN =>
          apply mirrors_bind with (RA := eq);
          [ lia
          | apply parseExprList_mirrors; [discriminate|discriminate|exact HU]
          | intros; now apply escapes_Ok
          | intros ? ? ? ? <- ? ?; mirror ]
      | _ = IDENT => idtac
      | _ => rewrite <- ?Ho, <- ?Hn; repeat brk0; mirror
      end.
    scan2 HS.
    + unscan. destruct (Token_eqb _ _).
      * now apply parseFunction_mirrors.
      * apply mirrors_bind with (RA := eq);
          [ lia
          | now apply parseFieldRef_mirrors
          | intros; now apply escapes_Ok
          | intros ? ? ? ? <- ? ?; mirror ].
    + at_eof. unscan.
      destruct (Token_eqb (Tok ti0) LPAREN) eqn:EL.
      * apply Token_eqb_eq in EL. awake HX EL.
        apply escapes_mirrors; [lia|].
        eapply advances_escapes;
          [ apply (parseFunction_resumes env input1 recur1 bound Hadvances
                     _ _ _ E1 ET)
          | lia | lia ].
      * apply mirrors_bind with (RA := eq);
          [ lia
          | now apply parseFieldRef_mirrors
          | intros; now apply escapes_Ok
          | intros ? ? ? ? <- ? ?; mirror ].
  - apply escapes_mirrors; [lia|].
    replace (parseUnaryExpr env input1 recur1 bound p1)
      with (parseUnaryExpr env input1 recur1 bound (Unscan input1 q)).
    + eapply advances_escapes;
        [ apply parseUnaryExpr_advances; exact Hadvances
        | rewrite Unscan_pos; lia | rewrite Unscan_pos; lia ].
    + unfold parseUnaryExpr.
      rewrite (ScanIgnoreWhitespace_again _ _ _ _ E1 Hnext), E1.
      reflexivity.
Qed.

Lemma parseExprLoop_mirrors fuel : forall root p1 p2,
  related p1 p2 ->
  mirrors sameExpr (parseExprLoop env input1 recur1 bound fuel root p1)
    (parseExprLoop env input2 recur2 bound fuel root p2).
Proof.
  induction fuel as [|fuel IH]; intros root p1 p2 HR; [exact I|].
  destruct (le_gt_dec (pos p1) B) as [Hin|Hout];
    [|escaped (parseExprLoop_advances env input1 recur1 bound Hadvances)].
  cbn [parseExprLoop]. siw2 HR.
  - destruct (negb _); cbv zeta; [mirror|].
    apply mirrors_bind with (RA := eq); [lia| | |].
    + apply parseUnaryExpr_mirrors. sync.
    + intros rhs q1 Hq. destruct (climb _ _ _); [|exact I].
      eapply advances_escapes;
        [ apply (parseExprLoop_advances env input1 recur1 bound Hadvances)
        | lia | lia ].
    + intros rhs rhs' q1 q2 <- HS1 Hq. destruct (climb _ _ _); [|exact I].
      now apply IH.
  - rewrite Tok_eofToken. change (IsOperator EOF) with false.
    cbn [negb]. cbv zeta.
    destruct (negb _); [mirror|].
    apply escapes_mirrors; [lia|].
    pose proof (parseUnaryExpr_advances env input1 recur1 bound Hadvances q)
      as HA.
    destruct (parseUnaryExpr env input1 recur1 bound q) as [rhs q1|e q1| |];
      cbn [bind]; try exact I; [|gone].
    destruct (climb _ _ _); [|exact I].
    eapply advances_escapes;
      [ apply (parseExprLoop_advances env input1 recur1 bound Hadvances)
      | positions | positions ].
Qed.

Lemma related_setBuf p1 p2 b1 b2 :
  related p1 p2 -> (b1 = None <-> b2 = None) ->
  related (setBuf p1 b1) (setBuf p2 b2).
Proof.
  intros [((Ho & Hn & _) & Hp)|((Ho & Hn & _) & Hp)] Hb; [left|right];
    (split; [|exact Hp]); repeat split; auto; apply Hb.
Qed.

Lemma release_mirrors {A : Type} (Rv : A -> A -> Prop) own
    (o1 o2 : Outcome A) :
  mirrors Rv o1 o2 -> mirrors Rv (release own o1) (release own o2).
Proof.
  destruct own; [|auto].
  destruct o1 as [a q1|e q1| |]; cbn; auto.
  - intros H Hp. destruct (H Hp) as (a' & q2 & -> & Ha & HS).
    exists a', (setBuf q2 None). repeat split; auto.
    apply related_setBuf; tauto.
  - intros H Hp. destruct (H Hp) as (e' & q2 & -> & HS).
    exists e', (setBuf q2 None). repeat split; auto.
    apply related_setBuf; tauto.
Qed.

Lemma parseExprBody_mirrors p1 p2 :
  related p1 p2 ->
  mirrors sameExpr (parseExprBody env input1 recur1 bound p1)
    (parseExprBody env input2 recur2 bound p2).
Proof.
  intros HR. unfold parseExprBody.
  assert (Hown : match buf p1 with None => true | Some _ => false end
                 = match buf p2 with None => true | Some _ => false end).
  { destruct (related_sameState _ _ HR) as (_ & _ & Hb).
    destruct (buf p1), (buf p2); auto.
    - destruct Hb as (_ & Hb). discriminate Hb. reflexivity.
    - destruct Hb as (Hb & _). discriminate Hb. reflexivity. }
  rewrite <- Hown.
  apply release_mirrors.
  apply mirrors_bind with (RA := eq); [lia| | |].
  - apply parseUnaryExpr_mirrors.
    destruct (buf p1); [exact HR|].
    apply related_setBuf; [exact HR|]. split; discriminate.
  - intros e q1 Hq.
    eapply advances_escapes;
      [ apply (parseExprLoop_advances env input1 recur1 bound Hadvances)
      | lia | lia ].
  - intros e e' q1 q2 <- HS Hq. now apply parseExprLoop_mirrors.
Qed.

End Trimmed.

(** [ParseExpr] on the trimmed slice follows [ParseExpr] on the input as
    long as the latter stays within the slice. *)
Lemma ParseExpr_mirrors env input1 input2 k E B
    (Hlead : forall i, i < k -> Tok (tokenAt input1 i) = WS)
    (Hagree : forall i,
       k <= i < E -> tokenAt input2 (i - k) = tokenAt input1 i)
    (Hend : forall i, E <= i + k -> tokenAt input2 i = eofToken)
    (Htrail : forall i, E <= i < B -> Tok (tokenAt input1 i) = WS)
    (Hnext : Tok (tokenAt input1 B) <> WS)
    (HkE : k <= E) (HEB : E <= B) fuel :
  forall p1 p2,
  related k E B p1 p2 ->
  mirrorsBelow k E B (S B) sameExpr
    (ParseExpr env input1 fuel p1) (ParseExpr env input2 fuel p2).
Proof.
  induction fuel as [|fuel IH]; intros p1 p2 HR; [exact I|].
  cbn [ParseExpr].
  apply parseExprBody_mirrors; auto.
  intros p. apply ParseExpr_advances.
Qed.

(** *** The tokens of the literal *)

Lemma dropSpace_spec l :
  exists a, a <= List.length l /\ dropSpace l = skipn a l /\
    forall i, i < a -> Tok (nth i l eofToken) = WS.
Proof.
  induction l as [|x l (a & Ha & Ea & Wa)].
  - exists 0. split; [cbn; lia|]. split; [reflexivity|]. intros i Hi. lia.
  - cbn [dropSpace]. destruct (Token_eqb (Tok x) WS) eqn:EW.
    + exists (S a). cbn [List.length skipn]. split; [lia|]. split; [exact Ea|].
      intros [|i] Hi; cbn [nth].
      * now apply Token_eqb_eq.
      * apply Wa. lia.
    + exists 0. split; [cbn; lia|]. split; [reflexivity|]. intros i Hi. lia.
Qed.

(** The trimmed tokens are those from some [k] to some [E], before and
    after which there is white space only. *)
Lemma trimTokens_spec l :
  exists k E, k <= E /\ E <= List.length l /\
    (forall i, i < k -> Tok (nth i l eofToken) = WS) /\
    (forall i, E <= i < List.length l -> Tok (nth i l eofToken) = WS) /\
    trimTokens l = skipn k (firstn E l).
Proof.
  unfold trimTokens.
  destruct (dropSpace_spec l) as (k & Hk & Ek & Wk).
  destruct (dropSpace_spec (rev (dropSpace l))) as (b & Hb & Eb & Wb).
  rewrite length_rev, Ek, length_skipn in Hb.
  rewrite Eb, skipn_rev, rev_involutive, Ek, length_skipn.
  exists k, (k + (List.length l - k - b)).
  split; [lia|]. split; [lia|]. split; [exact Wk|]. split.
  - intros i Hi.
    specialize (Wb (List.length l - S i)).
    rewrite rev_nth, Ek, length_skipn, nth_skipn in Wb
      by (rewrite Ek, length_skipn; lia).
    replace (k + (List.length l - k - S (List.length l - S i))) with i
      in Wb by lia.
    apply Wb. lia.
  - apply firstn_skipn_comm.
Qed.

(** *** The text of the trimmed tokens *)

Lemma trimLeft_length s :
  String.length (strings.trimLeft s) <= String.length s.
Proof.
  induction s as [|c s IH]; cbn; [lia|].
  destruct (strings.isSpace c); cbn; lia.
Qed.

Lemma trimRight_length s :
  String.length (strings.trimRight s) <= String.length s.
Proof.
  induction s as [|c s IH]; cbn; [lia|].
  destruct (strings.trimRight s); [destruct (strings.isSpace c)|];
    cbn in *; lia.
Qed.

Lemma trimLeft_blank a b :
  strings.trimLeft a = EmptyString ->
  strings.trimLeft (a ++ b) = strings.trimLeft b.
Proof.
  induction a as [|c a IH]; cbn; [reflexivity|].
  destruct (strings.isSpace c); [exact IH|discriminate].
Qed.

Lemma trimRight_blank a b :
  strings.trimLeft b = EmptyString ->
  strings.trimRight (a ++ b) = strings.trimRight a.
Proof.
  intros Hb.
  assert (Hr : strings.trimRight b = EmptyString).
  { induction b as [|c b IH]; cbn in *; [reflexivity|].
    destruct (strings.isSpace c); [|discriminate].
    now rewrite IH. }
  induction a as [|c a IH]; cbn; [exact Hr|]. now rewrite IH.
Qed.

(** A text that [TrimSpace] leaves as it is does not begin with white
    space. *)
Lemma trimmed_head c s :
  strings.TrimSpace (String c s) = String c s -> strings.isSpace c = false.
Proof.
  unfold strings.TrimSpace. cbn [strings.trimLeft].
  destruct (strings.isSpace c); [|reflexivity].
  intros H. exfalso.
  pose proof (trimRight_length (strings.trimLeft s)) as H1.
  pose proof (trimLeft_length s) as H2.
  rewrite H in H1. cbn in H1. lia.
Qed.

Lemma trimLeft_trimmed a b :
  a <> EmptyString -> strings.TrimSpace a = a ->
  strings.trimLeft (a ++ b) = (a ++ b)%string.
Proof.
  destruct a as [|c a]; [congruence|]. intros _ H.
  cbn. now rewrite (trimmed_head _ _ H).
Qed.

Lemma trimRight_trimmed a b :
  b <> EmptyString -> strings.TrimSpace b = b ->
  strings.trimRight (a ++ b) = (a ++ b)%string.
Proof.
  intros Hb H.
  assert (Hr : strings.trimRight b = b).
  { destruct b as [|c b]; [congruence|].
    unfold strings.TrimSpace in H. cbn [strings.trimLeft] in H.
    now rewrite (trimmed_head c b) in H. }
  induction a as [|c a IH]; [exact Hr|].
  cbn. rewrite IH.
  destruct (a ++ b)%string eqn:Eab; [|reflexivity].
  destruct a; [|discriminate]. cbn in Eab. congruence.
Qed.

Lemma trimLeft_raws l :
  Forall lexed l -> strings.trimLeft (raws l) = raws (dropSpace l).
Proof.
  induction 1 as [|x l Hx Hl IH]; [reflexivity|].
  rewrite raws_cons. cbn [dropSpace]. unfold lexed in Hx.
  destruct (Token_eqb (Tok x) WS).
  - now rewrite trimLeft_blank.
  - rewrite raws_cons. now apply trimLeft_trimmed.
Qed.

Lemma dropSpace_lexed l : Forall lexed l -> Forall lexed (dropSpace l).
Proof.
  induction 1 as [|x l Hx Hl IH]; cbn [dropSpace]; [constructor|].
  destruct (Token_eqb (Tok x) WS); [exact IH|now constructor].
Qed.

Lemma trimRight_raws l :
  Forall lexed l ->
  strings.trimRight (raws l) = raws (rev (dropSpace (rev l))).
Proof.
  induction l as [|x l IH] using rev_ind; [reflexivity|].
  intros H. apply Forall_app in H. destruct H as (Hl & Hx).
  apply Forall_inv in Hx. unfold lexed in Hx.
  rewrite rev_app_distr. cbn [rev app dropSpace].
  rewrite raws_app, raws_cons. cbn [raws fold_right].
  rewrite append_nil_r.
  destruct (Token_eqb (Tok x) WS).
  - rewrite trimRight_blank by exact Hx. now apply IH.
  - cbn [rev]. rewrite rev_involutive, raws_app, raws_cons.
    cbn [raws fold_right]. rewrite append_nil_r.
    now apply trimRight_trimmed.
Qed.

(** On tokens as the scanner delivers them, the trimmed text of a run of
    tokens is the text of its trimmed tokens. *)
Lemma TrimSpace_raws l :
  Forall lexed l -> strings.TrimSpace (raws l) = raws (trimTokens l).
Proof.
  intros H. unfold strings.TrimSpace, trimTokens.
  rewrite trimLeft_raws by exact H.
  apply trimRight_raws. now apply dropSpace_lexed.
Qed.

(** *** The literal, and the round trip *)

Section Literal.

Variable env : Extern.
Variable input : list TokenInfo.

Lemma captured_named p :
  captured input p -> (0 <? orderedParams p)%Z = false ->
  captured input
    (mkParser (pos p) (orderedParams p) (namedParams p + 1) (buf p)).
Proof. auto. Qed.

Lemma captured_positional p :
  captured input p -> (0 <? namedParams p)%Z = false ->
  captured input
    (mkParser (pos p) (orderedParams p + 1) (namedParams p) (buf p)).
Proof. auto. Qed.

Lemma ParseExpr_captured fuel p :
  captured input p ->
  leaves (captured input) (ParseExpr env input fuel p).
Proof.
  apply ParseExpr_leaves.
  - intros q ti q'. apply Scan_captured.
  - apply Unscan_captured.
  - apply captured_named.
  - apply captured_positional.
  - unfold captured. intros q Hq Hb. rewrite Hq in Hb. discriminate.
Qed.

Variable recur : Parser -> Outcome (Expr * string).
Variable bound : nat.
Hypothesis Hrecur : forall p,
  captured input p -> leaves (captured input) (recur p).

(** The literal that the loop of [ParseExpr] returns is the trimmed text
    of the tokens read, and the token that follows them is no white
    space. *)
Lemma parseExprLoop_literal fuel : forall root p e lit q,
  captured input p ->
  parseExprLoop env input recur bound fuel root p = Ok (e, lit) q ->
  lit = strings.TrimSpace (raws (consumed input (pos q))) /\
  Tok (tokenAt input (pos q)) <> WS.
Proof.
  induction fuel as [|fuel IH]; intros root p e lit q Hp; [discriminate|].
  cbn [parseExprLoop].
  destruct (ScanIgnoreWhitespace input p) as [op p1] eqn:E1.
  assert (H1 : captured input p1)
    by (eapply ScanIgnoreWhitespace_captured; eauto).
  destruct (negb _).
  - cbv zeta. intros H. injection H as <- <- <-.
    pose proof (Unscan_captured input p1 H1) as HU.
    unfold bufString. rewrite HU. split; [reflexivity|].
    apply ScanIgnoreWhitespace_spec in E1.
    destruct E1 as (j & _ & _ & N & _ & P & _).
    rewrite Unscan_pos, P. exact N.
  - pose proof (parseUnaryExpr_leaves env input (captured input)
                  (Scan_captured input) (Unscan_captured input)
                  captured_named captured_positional recur bound Hrecur
                  p1 H1) as HU.
    destruct (parseUnaryExpr env input recur bound p1) as [rhs p2| | |];
      cbn [bind]; try discriminate.
    destruct (climb _ _ _) as [root'|]; [|discriminate].
    now apply IH.
Qed.

End Literal.

(** What a successful [ParseExpr] on a new parser returns and where it
    stops. *)
Lemma ParseExpr_literal env input fuel e lit q :
  ParseExpr env input fuel NewParser = Ok (e, lit) q ->
  lit = strings.TrimSpace (raws (consumed input (pos q))) /\
  Tok (tokenAt input (pos q)) <> WS.
Proof.
  destruct fuel as [|fuel]; [discriminate|].
  cbn [ParseExpr]. unfold parseExprBody.
  change (buf NewParser) with (@None string). cbv iota.
  set (p0 := setBuf NewParser (Some EmptyString)).
  assert (H0 : captured input p0) by reflexivity.
  pose proof (parseUnaryExpr_leaves env input (captured input)
                (Scan_captured input) (Unscan_captured input)
                (captured_named input) (captured_positional input)
                (ParseExpr env input fuel) fuel
                (fun p => ParseExpr_captured env input fuel p) p0 H0) as HU.
  destruct (parseUnaryExpr env input (ParseExpr env input fuel) fuel p0)
    as [e0 p1| | |]; cbn [bind release]; try discriminate.
  destruct (parseExprLoop env input (ParseExpr env input fuel) fuel fuel
              e0 p1) as [[e' lit'] q'| | |] eqn:EL;
    cbn [release]; try discriminate.
  intros H. injection H as <- <- <-.
  apply (parseExprLoop_literal env input (ParseExpr env input fuel) fuel
           (fun p => ParseExpr_captured env input fuel p)) in EL; auto.
Qed.

(** C1 (token level).  When [ParseExpr] succeeds on a new parser, the
    literal it returns is the text of the tokens it has read with the
    white space at both ends removed, and [ParseExpr] on the tokens of
    that literal, which are the tokens read without the white-space
    tokens at both ends, succeeds with the same expression. *)
Theorem round_trip env input fuel e lit q :
  ParseExpr env input fuel NewParser = Ok (e, lit) q ->
  lit = strings.TrimSpace (raws (consumed input (pos q))) /\
  exists lit' q',
    ParseExpr env (trimTokens (consumed input (pos q))) fuel NewParser
    = Ok (e, lit') q'.
Proof.
  intros H.
  destruct (ParseExpr_literal _ _ _ _ _ _ H) as (Hlit & Hnext).
  split; [exact Hlit|].
  set (B := pos q) in *.
  destruct (trimTokens_spec (consumed input B))
    as (k & E & HkE & HEB & Hlead & Htrail & Etrim).
  rewrite consumed_length in HEB, Htrail.
  assert (Hmid : forall i, k <= i < E ->
            tokenAt (trimTokens (consumed input B)) (i - k)
            = tokenAt input i).
  { intros i Hi. rewrite Etrim. unfold tokenAt at 1.
    rewrite nth_skipn, nth_firstn.
    replace (k + (i - k)) with i by lia.
    rewrite (proj2 (Nat.ltb_lt i E)) by lia.
    apply consumed_nth. lia. }
  assert (Hend : forall i, E <= i + k ->
            tokenAt (trimTokens (consumed input B)) i = eofToken).
  { intros i Hi. apply tokenAt_beyond. rewrite Etrim.
    rewrite length_skipn, length_firstn, consumed_length. lia. }
  assert (HR : related k E B NewParser NewParser).
  { destruct (Nat.eq_dec k 0) as [->|Hk].
    - left. split; [apply sameState_refl|]. left. cbn. lia.
    - right. split; [apply sameState_refl|]. cbn. lia. }
  pose proof (ParseExpr_mirrors env input (trimTokens (consumed input B))
                k E B) as HM.
  specialize (HM ltac:(intros i Hi; rewrite <- (consumed_nth input B) by lia;
                       now apply Hlead)
                 Hmid Hend
                 ltac:(intros i Hi; rewrite <- (consumed_nth input B) by lia;
                       now apply Htrail)
                 Hnext HkE HEB fuel NewParser NewParser HR).
  rewrite H in HM. cbn [mirrorsBelow] in HM.
  destruct HM as ([e' lit'] & q' & Hq & He & _); [subst B; lia|].
  unfold sameExpr in He. cbn [fst] in He. subst e'.
  now exists lit', q'.
Qed.

(** On tokens as the scanner delivers them, the literal is the text of
    the tokens that the round trip parses. *)
Lemma literal_text env input fuel e lit q :
  ParseExpr env input fuel NewParser = Ok (e, lit) q ->
  Forall lexed (consumed input (pos q)) ->
  lit = raws (trimTokens (consumed input (pos q))).
Proof.
  intros H Hl. destruct (ParseExpr_literal _ _ _ _ _ _ H) as (-> & _).
  now apply TrimSpace_raws.
Qed.

(** ** Identifier lists *)

(** A token that is not the end of the input is one of the input. *)
Lemma real_token input j :
  Tok (tokenAt input j) <> EOF -> j < List.length input.
Proof.
  intros H. destruct (Nat.lt_ge_cases j (List.length input)) as [|G]; auto.
  rewrite (tokenAt_beyond _ _ G) in H. now contradiction H.
Qed.

Section IdentList.

Variable env : Extern.
Variable input : list TokenInfo.

(** The identifiers before the last one: each is followed by a comma. *)
Lemma parseIdentListLoop_items : forall p l q,
  commaSeparated input (parseIdent env input) p l q ->
  forall fuel acc,
  List.length l <= fuel ->
  (do (i, p1) <- parseIdent env input p;
   parseIdentListLoop env input fuel (acc ++ [i]) p1)
  = (do (i, p1) <- parseIdent env input q;
     parseIdentListLoop env input (fuel - List.length l)
       ((acc ++ l) ++ [i]) p1).
Proof.
  induction 1 as [p a p1 ti p2 Ha Hs Hc|p a p1 ti p2 l q Ha Hs Hc _ IH];
    intros fuel acc Hf; cbn [List.length] in Hf.
  - rewrite Ha. cbn [bind].
    destruct fuel as [|fuel]; [lia|].
    cbn [parseIdentListLoop]. rewrite Hs, Hc.
    rewrite Token_eqb_refl. cbn [negb List.length].
    replace (S fuel - 1) with fuel by lia. reflexivity.
  - rewrite Ha. cbn [bind].
    destruct fuel as [|fuel]; [lia|].
    cbn [parseIdentListLoop]. rewrite Hs, Hc.
    rewrite Token_eqb_refl. cbn [negb].
    rewrite (IH fuel (acc ++ [a])) by lia.
    cbn [List.length Nat.sub]. rewrite <- app_assoc. reflexivity.
Qed.

Lemma parseIdentList_prefix p l q fuel :
  (l = [] /\ q = p) \/ commaSeparated input (parseIdent env input) p l q ->
  List.length l <= fuel ->
  parseIdentList env input fuel p
  = (do (i, p1) <- parseIdent env input q;
     parseIdentListLoop env input (fuel - List.length l) (l ++ [i]) p1).
Proof.
  intros [[-> ->]|H] Hf.
  - cbn [List.length]. now rewrite Nat.sub_0_r.
  - exact (parseIdentListLoop_items p l q H fuel [] Hf).
Qed.

Lemma parseIdent_token p a q :
  parseIdent env input p = Ok a q ->
  exists j, pos p <= j /\ pos q = S j /\
    Tok (tokenAt input j) = IDENT /\ Lit (tokenAt input j) = a.
Proof.
  unfold parseIdent.
  destruct (ScanIgnoreWhitespace input p) as [ti p1] eqn:E.
  destruct (Token_eqb (Tok ti) IDENT) eqn:T; cbn [negb]; [|discriminate].
  intros H. injection H as <- <-.
  apply Token_eqb_eq in T.
  apply ScanIgnoreWhitespace_spec in E.
  destruct E as (j & L & _ & _ & -> & P & _).
  now exists j.
Qed.

Lemma parseIdentListLoop_sound lo fuel : forall acc p l q,
  lo <= pos p ->
  Forall (fun s => exists i, lo <= i < pos p /\
            Tok (tokenAt input i) = IDENT /\ Lit (tokenAt input i) = s) acc ->
  parseIdentListLoop env input fuel acc p = Ok l q ->
  (exists more, l = acc ++ more) /\
  Forall (fun s => exists i, lo <= i < pos q /\
            Tok (tokenAt input i) = IDENT /\ Lit (tokenAt input i) = s) l /\
  Tok (tokenAt input (pos q)) <> COMMA /\
  Tok (tokenAt input (pos q)) <> WS.
Proof.
  induction fuel as [|fuel IH]; intros acc p l q Hlo Hacc; [discriminate|].
  cbn [parseIdentListLoop].
  destruct (ScanIgnoreWhitespace input p) as [ti p1] eqn:E.
  apply ScanIgnoreWhitespace_spec in E.
  destruct E as (j & L & _ & N & -> & P & _).
  destruct (Token_eqb (Tok (tokenAt input j)) COMMA) eqn:T; cbn [negb].
  - destruct (parseIdent env input p1) as [a p2| | |] eqn:EI;
      cbn [bind]; try discriminate.
    destruct (parseIdent_token _ _ _ EI) as (i & Li & Pi & Ti & Ai).
    intros H. apply IH in H.
    + destruct H as ((more & ->) & H).
      split; [|exact H]. exists (a :: more). now rewrite <- app_assoc.
    + lia.
    + apply Forall_app. split.
      * eapply Forall_impl; [|exact Hacc]. cbv beta.
        intros s (i0 & B0 & R0). exists i0. split; [lia|exact R0].
      * constructor; [|constructor]. exists i. split; [lia|]. now split.
  - intros H. injection H as <- <-. rewrite Unscan_pos, P. cbn [Nat.pred].
    apply Token_eqb_neq in T.
    split; [exists []; now rewrite app_nil_r|].
    split; [|now split].
    eapply Forall_impl; [|exact Hacc]. cbv beta.
    intros s (i0 & B0 & R0). exists i0. split; [lia|exact R0].
Qed.

Lemma parseIdent_returns p :
  (exists a q, parseIdent env input p = Ok a q) \/
  (exists e q, parseIdent env input p = Fail e q).
Proof.
  unfold parseIdent. destruct (ScanIgnoreWhitespace input p) as [ti p1].
  destruct (negb _); [right|left]; eauto.
Qed.

Lemma parseIdentListLoop_returns fuel : forall acc p,
  List.length input - pos p < fuel ->
  (exists l q, parseIdentListLoop env input fuel acc p = Ok l q) \/
  (exists e q, parseIdentListLoop env input fuel acc p = Fail e q).
Proof.
  induction fuel as [|fuel IH]; intros acc p Hf; [lia|].
  cbn [parseIdentListLoop].
  destruct (ScanIgnoreWhitespace input p) as [ti p1] eqn:E.
  apply ScanIgnoreWhitespace_spec in E.
  destruct E as (j & L & _ & N & -> & P & _).
  destruct (Token_eqb (Tok (tokenAt input j)) COMMA) eqn:T; cbn [negb];
    [|left; eauto].
  apply Token_eqb_eq in T.
  assert (j < List.length input)
    by (apply real_token; rewrite T; discriminate).
  destruct (parseIdent_returns p1) as [(a & p2 & EI)|(e & p2 & EI)];
    rewrite EI; cbn [bind]; [|right; eauto].
  apply parseIdent_token in EI. destruct EI as (i & Li & Pi & _).
  apply IH. lia.
Qed.

End IdentList.

(** X1.  [parseIdentList] on identifiers separated by commas, the last
    followed by a token that is no comma, returns their lexemes in the
    order of the input, and leaves that token to be read again. *)
Theorem parseIdentList_items env input fuel p l q a q1 ti q2 :
  (l = [] /\ q = p) \/ commaSeparated input (parseIdent env input) p l q ->
  parseIdent env input q = Ok a q1 ->
  ScanIgnoreWhitespace input q1 = (ti, q2) -> Tok ti <> COMMA ->
  List.length l < fuel ->
  parseIdentList env input fuel p = Ok (l ++ [a]) (Unscan input q2) /\
  ScanIgnoreWhitespace input (Unscan input q2) = (ti, q2).
Proof.
  intros Hl Ha Hs Hc Hf. split.
  - rewrite (parseIdentList_prefix env input p l q fuel Hl) by lia.
    rewrite Ha. cbn [bind].
    destruct (fuel - List.length l) as [|f] eqn:F; [lia|].
    cbn [parseIdentListLoop]. rewrite Hs.
    apply Token_eqb_neq in Hc. now rewrite Hc.
  - destruct (ScanIgnoreWhitespace_spec _ _ _ _ Hs)
      as (j & _ & _ & N & -> & _).
    exact (ScanIgnoreWhitespace_again _ _ _ _ Hs N).
Qed.

(** X2.  In a list of identifiers a comma must be followed by an
    identifier, as the list must begin with one: on any other token
    [parseIdentList] fails, the error names that token and expects an
    identifier, and the identifiers read so far are lost.  A trailing
    comma, which expression lists and documents accept, is an error
    here. *)
Theorem parseIdentList_expects_identifier env input fuel p l q tj q1 :
  (l = [] /\ q = p) \/ commaSeparated input (parseIdent env input) p l q ->
  ScanIgnoreWhitespace input q = (tj, q1) -> Tok tj <> IDENT ->
  List.length l <= fuel ->
  parseIdentList env input fuel p = Fail (expected env tj ["identifier"]) q1.
Proof.
  intros Hl Hs Hc Hf.
  rewrite (parseIdentList_prefix env input p l q fuel Hl Hf).
  unfold parseIdent at 1. rewrite Hs.
  apply Token_eqb_neq in Hc. now rewrite Hc.
Qed.

(** X3.  What [parseIdentList] returns is never empty, its elements are
    lexemes of identifier tokens that lie between the position it started
    from and the one it stops at, and it stops before a token that is
    neither a comma nor white space. *)
Theorem parseIdentList_sound env input fuel p l q :
  parseIdentList env input fuel p = Ok l q ->
  l <> [] /\
  Forall (fun s => exists i, pos p <= i < pos q /\
            Tok (tokenAt input i) = IDENT /\ Lit (tokenAt input i) = s) l /\
  Tok (tokenAt input (pos q)) <> COMMA /\
  Tok (tokenAt input (pos q)) <> WS.
Proof.
  unfold parseIdentList.
  destruct (parseIdent env input p) as [a p1| | |] eqn:EI; cbn [bind];
    try discriminate.
  destruct (parseIdent_token _ _ _ _ _ EI) as (i & Li & Pi & Ti & Ai).
  intros H.
  apply (parseIdentListLoop_sound env input (pos p)) in H.
  - destruct H as ((more & ->) & H). split; [discriminate|exact H].
  - lia.
  - constructor; [|constructor]. exists i. split; [lia|]. now split.
Qed.

(** X4.  [parseIdentList] returns: with more fuel than there are tokens
    left in the input, it gives a list or an error. *)
Theorem parseIdentList_terminates env input fuel p :
  List.length input - pos p < fuel ->
  (exists l q, parseIdentList env input fuel p = Ok l q) \/
  (exists e q, parseIdentList env input fuel p = Fail e q).
Proof.
  intros Hf. unfold parseIdentList.
  destruct (parseIdent_returns env input p) as [(a & p1 & EI)|(e & p1 & EI)];
    rewrite EI; cbn [bind]; [|right; eauto].
  apply parseIdent_token in EI. destruct EI as (i & Li & Pi & _).
  apply parseIdentListLoop_returns. lia.
Qed.

(** ** Parameters outside expressions *)

(** X5.  On a parameter token [parseParam] does what [parseUnaryExpr]
    does, and its expression is not nil.  On any other token it returns
    the nil expression and no error, and it has read the token: it does
    not push it back. *)
Theorem parseParam_token env input recur bound p ti p1 :
  ScanIgnoreWhitespace input p = (ti, p1) ->
  (Tok ti = NAMEDPARAM \/ Tok ti = POSITIONALPARAM ->
   parseParam input p = parseUnaryExpr env input recur bound p /\
   forall q, parseParam input p <> Ok NilExpr q) /\
  (Tok ti <> NAMEDPARAM -> Tok ti <> POSITIONALPARAM ->
   parseParam input p = Ok NilExpr p1 /\ pos p < pos p1 /\
   exists j, pos p1 = S j /\ ti = tokenAt input j).
Proof.
  intros Hs. split.
  - intros Ht. unfold parseParam, parseUnaryExpr. rewrite Hs.
    destruct Ht as [-> | ->]; (split; [reflexivity|]); intros q;
      repeat match goal with
             | |- context [if ?c then _ else _] => destruct c
             | |- context [match ?c with EmptyString => _ | String _ _ => _ end] => destruct c
             end; discriminate.
  - intros N1 N2. split; [|split].
    + unfold parseParam. rewrite Hs.
      destruct (Tok ti); try reflexivity; congruence.
    + apply ScanIgnoreWhitespace_pos in Hs. lia.
    + apply ScanIgnoreWhitespace_spec in Hs.
      destruct Hs as (j & _ & _ & _ & -> & P & _). now exists j.
Qed.

(** X6.  [parseParam] keeps the two kinds of parameters apart as
    expressions do: once a parameter of one kind has been counted it
    refuses one of the other kind, and a parser that has not taken both
    kinds has not taken both afterwards. *)
Theorem parseParam_exclusive input p ti p1 :
  ScanIgnoreWhitespace input p = (ti, p1) ->
  (Tok ti = NAMEDPARAM -> String.length (Lit ti) <> 1 ->
   (0 < orderedParams p)%Z ->
   parseParam input p = Fail (messageError mixedParams) p1) /\
  (Tok ti = POSITIONALPARAM -> (0 < namedParams p)%Z ->
   parseParam input p = Fail (messageError mixedParams) p1) /\
  (exclusive p -> leaves exclusive (parseParam input p)).
Proof.
  intros Hs.
  pose proof (ScanIgnoreWhitespace_sameState _ _ _ _ Hs) as (So & Sn & _).
  unfold parseParam. rewrite Hs. split; [|split].
  - intros -> Hl Ho. apply Nat.eqb_neq in Hl. rewrite Hl.
    rewrite So. apply Z.ltb_lt in Ho. now rewrite Ho.
  - intros -> Hn. rewrite Sn. apply Z.ltb_lt in Hn. now rewrite Hn.
  - unfold exclusive. rewrite <- So, <- Sn. intros (Ho & Hn & Hx).
    destruct (Tok ti); cbn [leaves]; auto.
    + destruct (_ =? _)%nat; cbn [leaves]; auto.
      destruct (0 <? orderedParams p1)%Z eqn:C; cbn [leaves]; auto.
      apply Z.ltb_ge in C.
      destruct (Lit ti); cbn [leaves orderedParams namedParams]; auto.
      lia.
    + destruct (0 <? namedParams p1)%Z eqn:C; cbn [leaves]; auto.
      apply Z.ltb_ge in C. cbn [orderedParams namedParams]. lia.
Qed.

(** ** The parser returns, and stops within the input *)

Lemma ScanIgnoreWhitespace_within input p ti p1 :
  ScanIgnoreWhitespace input p = (ti, p1) ->
  pos p < pos p1 /\
  (pos p <= List.length input -> pos p1 <= S (List.length input)) /\
  (Tok ti <> EOF -> pos p1 <= List.length input).
Proof.
  intros H. apply ScanIgnoreWhitespace_spec in H.
  destruct H as (j & L & W & N & -> & P & _).
  split; [lia|]. split.
  - intros Hp.
    destruct (Nat.le_gt_cases j (List.length input)) as [|G]; [lia|].
    specialize (W (List.length input) ltac:(lia)).
    rewrite tokenAt_beyond in W by lia. discriminate.
  - intros Hr. apply real_token in Hr. lia.
Qed.

Lemma Scan_within input p ti p1 :
  Scan input p = (ti, p1) ->
  pos p1 = S (pos p) /\ (Tok ti <> EOF -> pos p1 <= List.length input).
Proof.
  intros H. apply Scan_facts in H. destruct H as (-> & P & _).
  split; [exact P|]. intros Hr. apply real_token in Hr. lia.
Qed.

(** Turns the tests on tokens among the hypotheses into equations. *)
Ltac tokens :=
  repeat match goal with
  | H : negb _ = true |- _ => apply negb_true_iff in H
  | H : negb _ = false |- _ => apply negb_false_iff in H
  | H : _ || _ = true |- _ => apply orb_true_iff in H; destruct H as [H|H]
  | H : Token_eqb _ _ = true |- _ => apply Token_eqb_eq in H
  end.

(** Splits on the test of a token that the goal looks at next. *)
Ltac decide_token C :=
  match goal with
  | |- context [if negb (Token_eqb ?a ?b) then _ else _] =>
      destruct (Token_eqb a b) eqn:C; cbn [negb]
  end.

(** Turns what is known of the scans into facts on positions within the
    input, and decides. *)
Ltac places :=
  tokens;
  repeat match goal with
  | H : ScanIgnoreWhitespace _ _ = (_, _) |- _ =>
      apply ScanIgnoreWhitespace_within in H;
      let R := fresh "R" in
      destruct H as (? & ? & R);
      try specialize (R ltac:(congruence))
  | H : Scan _ _ = (_, _) |- _ =>
      apply Scan_within in H;
      let R := fresh "R" in
      destruct H as (? & R);
      try specialize (R ltac:(congruence))
  end;
  cbn [settles advances] in *; rewrite ?Unscan_pos in *; cbn [pos] in *;
  try exact I; try lia.

Lemma settles_bind {A B : Type} input d d' p' p (m : Outcome A)
    (k : A -> Parser -> Outcome B) :
  settles input d p' m ->
  (forall a q, m = Ok a q -> pos p' + d <= pos q <= List.length input ->
     settles input d' p (k a q)) ->
  settles input d' p (bind m k).
Proof.
  destruct m as [a q|e q|msg|]; cbn [bind settles]; auto.
Qed.

Section Settles.

Variable env : Extern.
Variable input : list TokenInfo.

Lemma parseIdent_settles p :
  pos p <= List.length input -> settles input 1 p (parseIdent env input p).
Proof. intros Hp. unfold parseIdent. repeat brk0; places. Qed.

Lemma parseType_within p o q :
  parseType input p = (o, q) -> pos p <= List.length input ->
  pos p <= pos q <= List.length input.
Proof.
  unfold parseType.
  destruct (ScanIgnoreWhitespace input p) as [ti p1] eqn:E.
  destruct (Tok ti) eqn:ET; intros H Hp; injection H as <- <-; places.
Qed.

Lemma parseFieldRefLoop_settles fuel : forall l p,
  pos p <= List.length input -> List.length input < pos p + fuel ->
  settles input 0 p (parseFieldRefLoop input fuel l p).
Proof.
  induction fuel as [|fuel IH]; intros l p Hp Hf; [lia|].
  cbn [parseFieldRefLoop].
  destruct (Scan input p) as [ti p1] eqn:E1.
  destruct (Tok ti) eqn:ET; try (places; fail).
  - destruct (Lit ti); [exact I|].
    destruct (negb _); [places|].
    specialize (IH (l ++ [s]) p1).
    destruct (parseFieldRefLoop input fuel _ p1); places.
    all: specialize (IH ltac:(lia) ltac:(lia)); lia.
  - destruct (Scan input p1) as [ti2 p2] eqn:E2.
    destruct (negb _) eqn:T; [places|].
    specialize (IH (l ++ [Lit ti2]) p2).
    destruct (parseFieldRefLoop input fuel _ p2); places.
    all: specialize (IH ltac:(lia) ltac:(lia)); lia.
Qed.

Lemma parseFieldRef_settles fuel p :
  pos p <= List.length input -> List.length input <= pos p + fuel ->
  settles input 1 p (parseFieldRef env input fuel p).
Proof.
  intros Hp Hf. unfold parseFieldRef.
  apply (settles_bind input 1 1 p p); [now apply parseIdent_settles|].
  intros chunk p1 _ H1.
  pose proof (parseFieldRefLoop_settles fuel [chunk] p1
                ltac:(lia) ltac:(lia)) as HL.
  destruct (parseFieldRefLoop input fuel _ p1); places.
Qed.

Variable recur : Parser -> Outcome (Expr * string).
Variable bound : nat.
Hypothesis Hrecur : forall q,
  pos q <= List.length input -> List.length input < pos q + bound ->
  settles input 1 q (recur q).
Hypothesis Hadvances : forall q, advances 1 1 q (recur q).

Lemma parseKV_settles p :
  pos p <= List.length input -> List.length input <= pos p + bound ->
  settles input 1 p (parseKV env input recur p).
Proof.
  intros Hp Hf. unfold parseKV.
  destruct (ScanIgnoreWhitespace input p) as [ti p1] eqn:E1.
  destruct (_ || _) eqn:K; [|places].
  destruct (ScanIgnoreWhitespace input p1) as [ti2 p2] eqn:E2.
  decide_token C; [|places].
  places.
  all: apply (settles_bind input 1 1 p2 p);
    [apply Hrecur; lia|intros r p3 _ H3; cbn [settles]; lia].
Qed.

Lemma parseDocumentLoop_settles fuel : forall l p,
  fuel <= bound ->
  pos p <= List.length input -> List.length input < pos p + fuel ->
  settles input 0 p (parseDocumentLoop env input recur fuel l p).
Proof.
  induction fuel as [|fuel IH]; intros l p Hb Hp Hf; [lia|].
  cbn [parseDocumentLoop].
  pose proof (parseKV_settles p Hp ltac:(lia)) as HK.
  pose proof (parseKV_advances env input recur Hadvances p) as HA.
  destruct (parseKV env input recur p) as [kv p1|e p1|msg|];
    [|unfold advances in HA; places|exact I|exact HK].
  cbv zeta.
  destruct (ScanIgnoreWhitespace input p1) as [ti p2] eqn:E2.
  decide_token C; [|places].
  specialize (IH (l ++ [kv]) p2).
  destruct (parseDocumentLoop env input recur fuel _ p2); places.
  all: specialize (IH ltac:(lia) ltac:(lia) ltac:(lia)); lia.
Qed.

Lemma parseDocument_settles p :
  pos p <= List.length input -> List.length input <= pos p + bound ->
  settles input 0 p (parseDocument env input recur bound p).
Proof.
  intros Hp Hf. unfold parseDocument.
  destruct (ScanIgnoreWhitespace input p) as [ti p1] eqn:E1.
  decide_token C; [|places].
  places.
  pose proof (parseDocumentLoop_settles bound [] p1
                ltac:(lia) ltac:(lia) ltac:(lia)) as HL.
  destruct (parseDocumentLoop env input recur bound [] p1) as [l p2| | |];
    cbn [bind]; try exact HL.
  destruct (ScanIgnoreWhitespace input p2) as [ti3 p3] eqn:E3.
  decide_token C3; places.
Qed.

Lemma parseExprListLoop_settles fuel : forall l p,
  fuel <= bound ->
  pos p <= List.length input -> List.length input < pos p + fuel ->
  settles input 0 p (parseExprListLoop input recur fuel l p).
Proof.
  induction fuel as [|fuel IH]; intros l p Hb Hp Hf; [lia|].
  cbn [parseExprListLoop].
  pose proof (Hrecur p Hp ltac:(lia)) as HK.
  pose proof (Hadvances p) as HA.
  destruct (recur p) as [r p1|e p1|msg|];
    [|unfold advances in HA; places|exact I|exact HK].
  cbv zeta.
  destruct (ScanIgnoreWhitespace input p1) as [ti p2] eqn:E2.
  decide_token C; [|places].
  specialize (IH (l ++ [fst r]) p2).
  destruct (parseExprListLoop input recur fuel _ p2); places.
  all: specialize (IH ltac:(lia) ltac:(lia) ltac:(lia)); lia.
Qed.

Lemma parseExprList_settles a b p :
  a <> EOF -> b <> EOF ->
  pos p <= List.length input -> List.length input <= pos p + bound ->
  settles input 2 p (parseExprList env input recur bound a b p).
Proof.
  intros Ha Hb Hp Hf. unfold parseExprList.
  destruct (ScanIgnoreWhitespace input p) as [ti p1] eqn:E1.
  decide_token C; [|places].
  places.
  pose proof (parseExprListLoop_settles bound [] p1
                ltac:(lia) ltac:(lia) ltac:(lia)) as HL.
  destruct (parseExprListLoop input recur bound [] p1) as [l p2| | |];
    cbn [bind]; try exact HL.
  destruct (ScanIgnoreWhitespace input p2) as [ti3 p3] eqn:E3.
  decide_token C3; places.
Qed.

Lemma resolve_settles name args p q :
  pos q <= pos p <= List.length input ->
  settles input 0 q (resolve env name args p).
Proof. intros H. unfold resolve. destruct (GetFunc _ _ _); places. Qed.

Lemma parseFunctionLoop_settles fuel : forall name l p,
  fuel <= bound ->
  pos p <= List.length input -> List.length input < pos p + fuel ->
  settles input 1 p (parseFunctionLoop env input recur fuel name l p).
Proof.
  induction fuel as [|fuel IH]; intros name l p Hb Hp Hf; [lia|].
  cbn [parseFunctionLoop].
  apply (settles_bind input 1 1 p p); [apply Hrecur; lia|].
  intros r p1 _ H1.
  destruct (ScanIgnoreWhitespace input p1) as [ti p2] eqn:E2.
  decide_token C.
  - specialize (IH name (l ++ [fst r]) p2).
    destruct (parseFunctionLoop env input recur fuel _ _ p2); places.
    all: specialize (IH ltac:(lia) ltac:(lia) ltac:(lia)); lia.
  - pose proof (resolve_settles name (l ++ [fst r]) (Unscan input p2)
                  (Unscan input p2)) as HR.
    destruct (resolve _ _ _ _); places.
Qed.

Lemma parseFunction_settles p :
  pos p <= List.length input -> List.length input <= pos p + bound ->
  settles input 1 p (parseFunction env input recur bound p).
Proof.
  intros Hp Hf. unfold parseFunction.
  apply (settles_bind input 1 1 p p); [now apply parseIdent_settles|].
  intros name p1 _ H1.
  destruct (ScanIgnoreWhitespace input p1) as [ti p2] eqn:E2.
  decide_token C; [|places].
  destruct (ScanIgnoreWhitespace input p2) as [ti3 p3] eqn:E3.
  destruct (Token_eqb (Tok ti3) RPAREN) eqn:C3.
  - pose proof (resolve_settles name [] p3 p3) as HR.
    destruct (resolve _ _ _ _); places.
  - pose proof (parseFunctionLoop_settles bound name []
                  (Unscan input p3)) as HL.
    destruct (parseFunctionLoop _ _ _ _ _ _ _); places.
    all: specialize (HL ltac:(lia) ltac:(lia) ltac:(lia)); lia.
Qed.

Lemma parseCastExpression_settles p :
  pos p <= List.length input -> List.length input <= pos p + bound ->
  settles input 1 p (parseCastExpression env input recur p).
Proof.
  intros Hp Hf. unfold parseCastExpression.
  destruct (ScanIgnoreWhitespace input p) as [ti p1] eqn:E1.
  decide_token C1; [|places].
  destruct (ScanIgnoreWhitespace input p1) as [ti2 p2] eqn:E2.
  decide_token C2; [|places].
  places.
  apply (settles_bind input 1 1 p2 p); [apply Hrecur; lia|].
  intros r p3 _ H3.
  destruct (ScanIgnoreWhitespace input p3) as [ti4 p4] eqn:E4.
  decide_token C4; [|places].
  destruct (parseType input p4) as [o p5] eqn:ET.
  places.
  apply parseType_within in ET; [|lia].
  destruct o; repeat brk0; places.
Qed.

Lemma parseUnaryExpr_settles p :
  pos p <= List.length input -> List.length input <= pos p + bound ->
  settles input 1 p (parseUnaryExpr env input recur bound p).
Proof.
  intros Hp Hf. unfold parseUnaryExpr.
  destruct (ScanIgnoreWhitespace input p) as [ti p1] eqn:E1.
  destruct (Tok ti) eqn:ET; try (places; fail).
  - destruct (Scan input p1) as [ti1 p2] eqn:E2.
    rewrite (Unscan_Scan _ _ _ _ E2).
    destruct (Token_eqb _ _).
    + pose proof (parseFunction_settles (Unscan input p1)) as HF.
      destruct (parseFunction _ _ _ _ _); places.
      all: specialize (HF ltac:(lia) ltac:(lia)); lia.
    + pose proof (parseFieldRef_settles bound (Unscan input p1)) as HF.
      destruct (parseFieldRef _ _ _ _); cbn [bind]; places.
      all: specialize (HF ltac:(lia) ltac:(lia)); lia.
  - repeat brk0; places.
  - repeat brk0; places.
  - repeat brk0; places.
  - repeat brk0; places.
  - repeat brk0; places.
  - pose proof (parseExprList_settles LPAREN RPAREN (Unscan input p1)
                  ltac:(discriminate) ltac:(discriminate)) as HF.
    destruct (parseExprList _ _ _ _ _ _ _); cbn [bind]; places.
    all: specialize (HF ltac:(lia) ltac:(lia)); lia.
  - unfold parseDocument.
    rewrite (ScanIgnoreWhitespace_again _ _ _ _ E1)
      by (rewrite ET; discriminate).
    rewrite ET. change (Token_eqb LBRACKET LBRACKET) with true. cbn [negb].
    places.
    pose proof (parseDocumentLoop_settles bound [] p1
                  ltac:(lia) ltac:(lia) ltac:(lia)) as HL.
    destruct (parseDocumentLoop env input recur bound [] p1) as [l p2| | |];
      cbn [bind]; try exact HL.
    destruct (ScanIgnoreWhitespace input p2) as [ti3 p3] eqn:E3.
    decide_token C3; cbn [bind]; places.
  - pose proof (parseExprList_settles LSBRACKET RSBRACKET (Unscan input p1)
                  ltac:(discriminate) ltac:(discriminate)) as HF.
    destruct (parseExprList _ _ _ _ _ _ _); cbn [bind]; places.
    all: specialize (HF ltac:(lia) ltac:(lia)); lia.
  - pose proof (parseCastExpression_settles (Unscan input p1)) as HF.
    destruct (parseCastExpression _ _ _ _); places.
    all: specialize (HF ltac:(lia) ltac:(lia)); lia.
Qed.

Lemma parseExprLoop_settles fuel : forall root p,
  fuel <= bound ->
  pos p <= List.length input -> List.length input < pos p + fuel ->
  settles input 0 p (parseExprLoop env input recur bound fuel root p).
Proof.
  induction fuel as [|fuel IH]; intros root p Hb Hp Hf; [lia|].
  cbn [parseExprLoop].
  destruct (ScanIgnoreWhitespace input p) as [op p1] eqn:E1.
  destruct (IsOperator (Tok op)) eqn:O; cbn [negb]; [|places].
  assert (Tok op <> EOF) by (intros C; rewrite C in O; discriminate).
  places.
  apply (settles_bind input 1 0 p1 p);
    [apply parseUnaryExpr_settles; lia|].
  intros rhs p2 _ H2.
  destruct (climb _ _ _) as [root'|]; [|exact I].
  specialize (IH root' p2 ltac:(lia) ltac:(lia) ltac:(lia)).
  destruct (parseExprLoop env input recur bound fuel root' p2); places.
Qed.

Lemma release_settles {A : Type} d p own (o : Outcome A) :
  settles input d p o -> settles input d p (release own o).
Proof. destruct own, o; cbn; auto. Qed.

Lemma parseExprBody_settles p :
  pos p <= List.length input -> List.length input <= pos p + bound ->
  settles input 1 p (parseExprBody env input recur bound p).
Proof.
  intros Hp Hf. unfold parseExprBody. apply release_settles.
  set (p0 := if match buf p with Some _ => false | None => true end
             then setBuf p (Some EmptyString) else p).
  assert (Hp0 : pos p0 = pos p) by (subst p0; destruct (buf p); reflexivity).
  apply (settles_bind input 1 1 p0 p);
    [apply parseUnaryExpr_settles; lia|].
  intros e p1 _ H1.
  pose proof (parseExprLoop_settles bound e p1
                ltac:(lia) ltac:(lia) ltac:(lia)) as HL.
  destruct (parseExprLoop env input recur bound bound e p1); places.
Qed.

End Settles.

Lemma ParseExpr_settles env input fuel : forall p,
  pos p <= List.length input -> List.length input < pos p + fuel ->
  settles input 1 p (ParseExpr env input fuel p).
Proof.
  induction fuel as [|fuel IH]; intros p Hp Hf; [lia|].
  cbn [ParseExpr]. apply parseExprBody_settles.
  - exact IH.
  - apply ParseExpr_advances.
  - exact Hp.
  - lia.
Qed.

(** Past the end of the input there is nothing to parse. *)
Lemma ParseExpr_past_end env input fuel p :
  List.length input <= pos p ->
  exists e q, ParseExpr env input (S fuel) p = Fail e q.
Proof.
  intros Hp.
  destruct (ScanIgnoreWhitespace input p) as [tj q1] eqn:E.
  exists (expected env tj ["identifier"; "string"; "number"; "bool"]), q1.
  apply ParseExpr_fails_at; [exact E|].
  apply ScanIgnoreWhitespace_spec in E.
  destruct E as (j & L & _ & _ & -> & _).
  rewrite tokenAt_beyond by lia. reflexivity.
Qed.

(** X7.  [ParseExpr] returns: with more fuel than there are tokens left
    in the input it gives an answer, and every larger amount of fuel
    gives that answer. *)
Theorem ParseExpr_terminates env input fuel p :
  List.length input - pos p < fuel ->
  ParseExpr env input fuel p <> OutOfFuel /\
  (forall fuel', fuel <= fuel' ->
     ParseExpr env input fuel' p = ParseExpr env input fuel p).
Proof.
  intros Hf.
  assert (D : done (ParseExpr env input fuel p)).
  { destruct (Nat.le_gt_cases (pos p) (List.length input)) as [Hp|Hp].
    - pose proof (ParseExpr_settles env input fuel p Hp ltac:(lia)) as H.
      intros C. rewrite C in H. exact H.
    - destruct fuel as [|fuel]; [lia|].
      destruct (ParseExpr_past_end env input fuel p ltac:(lia))
        as (e & q & ->).
      discriminate. }
  split; [exact D|].
  intros fuel' Hle. now apply ParseExpr_mono.
Qed.

(** The loop of [ParseExpr] ends before a token that is neither white
    space nor an operator. *)
Lemma parseExprLoop_stops env input recur bound fuel : forall root p e lit q,
  parseExprLoop env input recur bound fuel root p = Ok (e, lit) q ->
  Tok (tokenAt input (pos q)) <> WS /\
  IsOperator (Tok (tokenAt input (pos q))) = false.
Proof.
  induction fuel as [|fuel IH]; intros root p e lit q; [discriminate|].
  cbn [parseExprLoop].
  destruct (ScanIgnoreWhitespace input p) as [op p1] eqn:E1.
  destruct (IsOperator (Tok op)) eqn:O; cbn [negb].
  - destruct (parseUnaryExpr env input recur bound p1) as [rhs p2| | |];
      cbn [bind]; try discriminate.
    destruct (climb _ _ _) as [root'|]; [|discriminate].
    apply IH.
  - cbv zeta. intros H. injection H as <- <- <-.
    apply ScanIgnoreWhitespace_spec in E1.
    destruct E1 as (j & _ & _ & N & -> & P & _).
    rewrite Unscan_pos, P. cbn [Nat.pred]. now split.
Qed.

Lemma ParseExpr_next env input fuel p e lit q :
  ParseExpr env input fuel p = Ok (e, lit) q ->
  Tok (tokenAt input (pos q)) <> WS /\
  IsOperator (Tok (tokenAt input (pos q))) = false.
Proof.
  destruct fuel as [|fuel]; [discriminate|].
  cbn [ParseExpr]. unfold parseExprBody.
  destruct (parseUnaryExpr _ _ _ _ _) as [e0 p1| | |];
    cbn [bind]; try (destruct (buf p); discriminate).
  destruct (parseExprLoop env input (ParseExpr env input fuel) fuel fuel
              e0 p1) as [[e' lit'] q'| | |] eqn:EL;
    try (destruct (buf p); discriminate).
  apply parseExprLoop_stops in EL.
  destruct (buf p); cbn [release]; intros H; injection H as <- <- <-;
    exact EL.
Qed.

(** X8.  Where a successful [ParseExpr] stops: at least one token further
    than it started, not past the end of the input, and before a token
    that is neither white space nor an operator, which is the next token
    the parser delivers. *)
Theorem ParseExpr_stops env input fuel p e lit q :
  ParseExpr env input fuel p = Ok (e, lit) q ->
  pos p < pos q <= List.length input /\
  Tok (tokenAt input (pos q)) <> WS /\
  IsOperator (Tok (tokenAt input (pos q))) = false /\
  fst (ScanIgnoreWhitespace input q) = tokenAt input (pos q).
Proof.
  intros H.
  destruct (ParseExpr_next _ _ _ _ _ _ _ H) as (N & O).
  split; [|split; [exact N|split; [exact O|]]].
  - destruct (Nat.le_gt_cases (pos p) (List.length input)) as [Hp|Hp].
    + pose proof (ParseExpr_settles env input
                    (fuel + S (List.length input)) p Hp ltac:(lia)) as HS.
      rewrite (ParseExpr_more env input fuel _ p _ H) in HS
        by discriminate.
      cbn [settles] in HS. lia.
    + destruct fuel as [|fuel]; [discriminate|].
      destruct (ParseExpr_past_end env input fuel p ltac:(lia))
        as (e' & q' & F).
      rewrite F in H. discriminate.
  - rewrite (ScanIgnoreWhitespace_Scan input q (tokenAt input (pos q))
               (snd (Scan input q))); [reflexivity| |exact N].
    reflexivity.
Qed.

(** ** Nothing to parse *)

(** X9.  On an input of white space alone, the empty input among them,
    [ParseExpr] fails at the end of the input: the error names the end of
    the input as what was found, and the parser has read every token and
    the end of the input. *)
Theorem ParseExpr_blank env input fuel :
  Forall (fun ti => Tok ti = WS) input ->
  ParseExpr env input (S fuel) NewParser
  = Fail (expected env eofToken ["identifier"; "string"; "number"; "bool"])
         (mkParser (S (List.length input)) 0 0 None).
Proof.
  intros Hw.
  destruct (ScanIgnoreWhitespace input NewParser) as [tj q1] eqn:E.
  rewrite (ParseExpr_fails_at env input fuel NewParser tj q1 E).
  - apply ScanIgnoreWhitespace_spec in E.
    destruct E as (j & _ & W & N & -> & P & So & Sn & Sb).
    assert (j = List.length input) as ->.
    { destruct (Nat.lt_trichotomy j (List.length input)) as [L|[L|L]]; auto.
      - exfalso. apply N. unfold tokenAt.
        rewrite Forall_forall in Hw. apply Hw. now apply nth_In.
      - specialize (W (List.length input) ltac:(cbn; lia)).
        rewrite tokenAt_beyond in W by lia. discriminate. }
    rewrite tokenAt_beyond by lia.
    destruct q1 as [a b c d]. cbn in *. subst.
    destruct d; [|reflexivity].
    destruct Sb as [_ Sb]. now specialize (Sb eq_refl).
  - apply ScanIgnoreWhitespace_spec in E.
    destruct E as (j & _ & W & N & -> & _).
    destruct (Nat.lt_ge_cases j (List.length input)) as [L|L].
    + exfalso. apply N. unfold tokenAt.
      rewrite Forall_forall in Hw. apply Hw. now apply nth_In.
    + rewrite tokenAt_beyond by lia. reflexivity.
Qed.

(** ** How lists, documents and calls end *)

Lemma parseExprListLoop_last input recur : forall p l q,
  commaSeparated input (element recur) p l q ->
  forall fuel acc r q' tj q1,
  recur q = Ok r q' ->
  ScanIgnoreWhitespace input q' = (tj, q1) -> Tok tj <> COMMA ->
  List.length l < fuel ->
  parseExprListLoop input recur fuel acc p
  = Ok (acc ++ l ++ [fst r]) (Unscan input q1).
Proof.
  induction 1 as [p a p1 ti p2 Ha HS HT | p a p1 ti p2 l q Ha HS HT Hl IH];
    intros fuel acc r q' tj q1 Hq Hj Hc Hlen;
    (destruct fuel as [|fuel]; [cbn in Hlen; lia|]);
    cbn [parseExprListLoop];
    unfold element in Ha; destruct (recur p) as [r0 p1'| | |];
    try discriminate;
    cbn [bind] in Ha; injection Ha as <- <-;
    rewrite HS, HT, Token_eqb_refl; cbn [negb].
  - destruct fuel as [|fuel]; [cbn in Hlen; lia|].
    cbn [parseExprListLoop]. rewrite Hq, Hj.
    apply Token_eqb_neq in Hc. rewrite Hc. cbn [negb].
    now rewrite <- app_assoc.
  - rewrite (IH fuel (acc ++ [fst r0]) r q' tj q1 Hq Hj Hc);
      [|cbn in Hlen; lia].
    now rewrite <- app_assoc.
Qed.

(** The loop of a list from the items that a comma follows on. *)
Lemma parseExprListLoop_prefix input recur p l q fuel :
  (l = [] /\ q = p) \/ commaSeparated input (element recur) p l q ->
  List.length l < fuel ->
  (forall r q' tj q1,
     recur q = Ok r q' ->
     ScanIgnoreWhitespace input q' = (tj, q1) -> Tok tj <> COMMA ->
     parseExprListLoop input recur fuel [] p
     = Ok (l ++ [fst r]) (Unscan input q1)) /\
  (forall e qf,
     recur q = Fail e qf ->
     parseExprListLoop input recur fuel [] p = Ok l (Unscan input qf)).
Proof.
  intros [[-> ->]|H] Hf; split.
  - intros r q' tj q1 Hq Hj Hc.
    destruct fuel as [|fuel]; [cbn in Hf; lia|].
    cbn [parseExprListLoop]. rewrite Hq, Hj.
    apply Token_eqb_neq in Hc. now rewrite Hc.
  - intros e qf Hq.
    destruct fuel as [|fuel]; [cbn in Hf; lia|].
    cbn [parseExprListLoop]. now rewrite Hq.
  - intros r q' tj q1 Hq Hj Hc.
    exact (parseExprListLoop_last _ _ _ _ _ H fuel [] _ _ _ _ Hq Hj Hc Hf).
  - intros e qf Hq.
    exact (parseExprListLoop_items _ _ _ _ _ H fuel [] _ _ Hq Hf).
Qed.

(** X10.  How a list ends.  After the opening delimiter and elements that
    a comma follows, an element that no comma follows ends the list, and
    so does an element that fails to parse, whose error is dropped and
    whose last token is pushed back.  The token that comes next must be
    the closing delimiter: then the list is the elements that parsed,
    else the error names that token and expects the closing delimiter. *)
Theorem parseExprList_ends env input recur bound leftToken rightToken
    p ti p1 l q :
  ScanIgnoreWhitespace input p = (ti, p1) -> Tok ti = leftToken ->
  (l = [] /\ q = p1) \/ commaSeparated input (element recur) p1 l q ->
  List.length l < bound ->
  (forall r q' tj q1,
     recur q = Ok r q' ->
     ScanIgnoreWhitespace input q' = (tj, q1) -> Tok tj <> COMMA ->
     parseExprList env input recur bound leftToken rightToken p
     = if Token_eqb (Tok tj) rightToken
       then Ok (l ++ [fst r]) q1
       else Fail (expected env tj [tokenString env rightToken]) q1) /\
  (forall e qf tj q1,
     recur q = Fail e qf ->
     ScanIgnoreWhitespace input (Unscan input qf) = (tj, q1) ->
     parseExprList env input recur bound leftToken rightToken p
     = if Token_eqb (Tok tj) rightToken
       then Ok l q1
       else Fail (expected env tj [tokenString env rightToken]) q1).
Proof.
  intros HS HT Hl Hlen.
  destruct (parseExprListLoop_prefix input recur p1 l q bound Hl Hlen)
    as (L1 & L2).
  split.
  - intros r q' tj q1 Hq Hj Hc.
    unfold parseExprList. rewrite HS, HT, Token_eqb_refl. cbn [negb].
    rewrite (L1 r q' tj q1 Hq Hj Hc). cbn [bind].
    destruct (ScanIgnoreWhitespace_spec _ _ _ _ Hj)
      as (j & _ & _ & N & E & _).
    rewrite <- E in N.
    rewrite (ScanIgnoreWhitespace_again _ _ _ _ Hj N).
    now destruct (Token_eqb (Tok tj) rightToken).
  - intros e qf tj q1 Hq Hj.
    unfold parseExprList. rewrite HS, HT, Token_eqb_refl. cbn [negb].
    rewrite (L2 e qf Hq). cbn [bind]. rewrite Hj.
    now destruct (Token_eqb (Tok tj) rightToken).
Qed.

Lemma parseDocumentLoop_last env input recur : forall p l q,
  commaSeparated input (parseKV env input recur) p l q ->
  forall fuel acc kv q' tj q1,
  parseKV env input recur q = Ok kv q' ->
  ScanIgnoreWhitespace input q' = (tj, q1) -> Tok tj <> COMMA ->
  List.length l < fuel ->
  parseDocumentLoop env input recur fuel acc p
  = Ok (acc ++ l ++ [kv]) (Unscan input q1).
Proof.
  induction 1 as [p a p1 ti p2 Ha HS HT | p a p1 ti p2 l q Ha HS HT Hl IH];
    intros fuel acc kv q' tj q1 Hq Hj Hc Hlen;
    (destruct fuel as [|fuel]; [cbn in Hlen; lia|]);
    cbn [parseDocumentLoop]; rewrite Ha, HS, HT, Token_eqb_refl; cbn [negb].
  - destruct fuel as [|fuel]; [cbn in Hlen; lia|].
    cbn [parseDocumentLoop]. rewrite Hq, Hj.
    apply Token_eqb_neq in Hc. rewrite Hc. cbn [negb].
    now rewrite <- app_assoc.
  - rewrite (IH fuel (acc ++ [a]) kv q' tj q1 Hq Hj Hc);
      [|cbn in Hlen; lia].
    now rewrite <- app_assoc.
Qed.

(** The loop of a document from the pairs that a comma follows on. *)
Lemma parseDocumentLoop_prefix env input recur p l q fuel :
  (l = [] /\ q = p) \/ commaSeparated input (parseKV env input recur) p l q ->
  List.length l < fuel ->
  (forall kv q' tj q1,
     parseKV env input recur q = Ok kv q' ->
     ScanIgnoreWhitespace input q' = (tj, q1) -> Tok tj <> COMMA ->
     parseDocumentLoop env input recur fuel [] p
     = Ok (l ++ [kv]) (Unscan input q1)) /\
  (forall e qf,
     parseKV env input recur q = Fail e qf ->
     parseDocumentLoop env input recur fuel [] p = Ok l (Unscan input qf)).
Proof.
  intros [[-> ->]|H] Hf; split.
  - intros kv q' tj q1 Hq Hj Hc.
    destruct fuel as [|fuel]; [cbn in Hf; lia|].
    cbn [parseDocumentLoop]. rewrite Hq, Hj.
    apply Token_eqb_neq in Hc. now rewrite Hc.
  - intros e qf Hq.
    destruct fuel as [|fuel]; [cbn in Hf; lia|].
    cbn [parseDocumentLoop]. now rewrite Hq.
  - intros kv q' tj q1 Hq Hj Hc.
    exact (parseDocumentLoop_last _ _ _ _ _ _ H fuel [] _ _ _ _ Hq Hj Hc Hf).
  - intros e qf Hq.
    exact (parseDocumentLoop_items _ _ _ _ _ _ H fuel [] _ _ Hq Hf).
Qed.

(** X11.  How a document ends.  After the opening brace and pairs that a
    comma follows, a pair that no comma follows ends the document, and so
    does a pair that fails to parse, whose error is dropped and whose
    last token is pushed back.  The token that comes next must be the
    closing brace: then the document is the pairs that parsed, else the
    error names that token and expects the closing brace, whatever was
    missing in the pair. *)
Theorem parseDocument_ends env input recur bound p ti p1 l q :
  ScanIgnoreWhitespace input p = (ti, p1) -> Tok ti = LBRACKET ->
  (l = [] /\ q = p1) \/
    commaSeparated input (parseKV env input recur) p1 l q ->
  List.length l < bound ->
  (forall kv q' tj q1,
     parseKV env input recur q = Ok kv q' ->
     ScanIgnoreWhitespace input q' = (tj, q1) -> Tok tj <> COMMA ->
     parseDocument env input recur bound p
     = if Token_eqb (Tok tj) RBRACKET
       then Ok (KVPairs (l ++ [kv]), true) q1
       else Fail (expected env tj ["}"]) q1) /\
  (forall e qf tj q1,
     parseKV env input recur q = Fail e qf ->
     ScanIgnoreWhitespace input (Unscan input qf) = (tj, q1) ->
     parseDocument env input recur bound p
     = if Token_eqb (Tok tj) RBRACKET
       then Ok (KVPairs l, true) q1
       else Fail (expected env tj ["}"]) q1).
Proof.
  intros HS HT Hl Hlen.
  destruct (parseDocumentLoop_prefix env input recur p1 l q bound Hl Hlen)
    as (L1 & L2).
  split.
  - intros kv q' tj q1 Hq Hj Hc.
    unfold parseDocument. rewrite HS, HT, Token_eqb_refl. cbn [negb].
    rewrite (L1 kv q' tj q1 Hq Hj Hc). cbn [bind].
    destruct (ScanIgnoreWhitespace_spec _ _ _ _ Hj)
      as (j & _ & _ & N & E & _).
    rewrite <- E in N.
    rewrite (ScanIgnoreWhitespace_again _ _ _ _ Hj N).
    now destruct (Token_eqb (Tok tj) RBRACKET).
  - intros e qf tj q1 Hq Hj.
    unfold parseDocument. rewrite HS, HT, Token_eqb_refl. cbn [negb].
    rewrite (L2 e qf Hq). cbn [bind]. rewrite Hj.
    now destruct (Token_eqb (Tok tj) RBRACKET).
Qed.

Lemma parseFunctionLoop_last env input recur name : forall p l q,
  commaSeparated input (element recur) p l q ->
  forall fuel acc r q' tj q1,
  recur q = Ok r q' ->
  ScanIgnoreWhitespace input q' = (tj, q1) -> Tok tj <> COMMA ->
  List.length l < fuel ->
  parseFunctionLoop env input recur fuel name acc p
  = resolve env name (acc ++ l ++ [fst r]) (Unscan input q1).
Proof.
  induction 1 as [p a p1 ti p2 Ha HS HT | p a p1 ti p2 l q Ha HS HT Hl IH];
    intros fuel acc r q' tj q1 Hq Hj Hc Hlen;
    (destruct fuel as [|fuel]; [cbn in Hlen; lia|]);
    cbn [parseFunctionLoop];
    unfold element in Ha; destruct (recur p) as [r0 p1'| | |];
    try discriminate;
    cbn [bind] in Ha; injection Ha as <- <-; cbn [bind];
    rewrite HS, HT, Token_eqb_refl; cbn [negb].
  - destruct fuel as [|fuel]; [cbn in Hlen; lia|].
    cbn [parseFunctionLoop]. rewrite Hq. cbn [bind]. rewrite Hj.
    apply Token_eqb_neq in Hc. rewrite Hc. cbn [negb].
    now rewrite <- app_assoc.
  - rewrite (IH fuel (acc ++ [fst r0]) r q' tj q1 Hq Hj Hc);
      [|cbn in Hlen; lia].
    now rewrite <- app_assoc.
Qed.

(** X12.  How a call ends.  After the name, the opening parenthesis and a
    token that is not the closing one, the arguments are expressions
    separated by commas, and the first token after an argument that is no
    comma ends the call: it is pushed back, whatever it is, and the name
    is resolved with the arguments.  A closing parenthesis after the
    arguments is neither asked for nor read: count(a) parses to the call
    of count on a with the literal count(a and the closing parenthesis
    left in the input.  An argument that fails to parse fails the call
    with its own error. *)
Theorem parseFunction_ends env input recur bound p name p1 ti p2 ti3 p3 l q :
  parseIdent env input p = Ok name p1 ->
  ScanIgnoreWhitespace input p1 = (ti, p2) -> Tok ti = LPAREN ->
  ScanIgnoreWhitespace input p2 = (ti3, p3) -> Tok ti3 <> RPAREN ->
  (l = [] /\ q = Unscan input p3) \/
    commaSeparated input (element recur) (Unscan input p3) l q ->
  List.length l < bound ->
  (forall r q' tj q1,
     recur q = Ok r q' ->
     ScanIgnoreWhitespace input q' = (tj, q1) -> Tok tj <> COMMA ->
     parseFunction env input recur bound p
     = resolve env name (l ++ [fst r]) (Unscan input q1) /\
     ScanIgnoreWhitespace input (Unscan input q1) = (tj, q1)) /\
  (forall e qf,
     recur q = Fail e qf ->
     parseFunction env input recur bound p = Fail e qf) /\
  (forall k,
     ParseExpr countExtern callInput (3 + k) NewParser
     = Ok (FuncCall "count" [FieldSelector ["a"]], "count(a")
          (mkParser 3 0 0 None)).
Proof.
  intros HI HS HT HS3 HT3 Hl Hlen.
  apply Token_eqb_neq in HT3.
  split; [|split];
    [| |intros k; apply ParseExpr_more;
         [vm_compute; reflexivity|discriminate]].
  - intros r q' tj q1 Hq Hj Hc. split.
    + unfold parseFunction. rewrite HI. cbn [bind].
      rewrite HS, HT, Token_eqb_refl. cbn [negb]. rewrite HS3, HT3.
      destruct Hl as [[-> ->]|Hl].
      * destruct bound as [|b]; [cbn in Hlen; lia|].
        cbn [parseFunctionLoop]. rewrite Hq. cbn [bind]. rewrite Hj.
        apply Token_eqb_neq in Hc. now rewrite Hc.
      * exact (parseFunctionLoop_last env input recur name _ _ _ Hl
                 bound [] _ _ _ _ Hq Hj Hc Hlen).
    + destruct (ScanIgnoreWhitespace_spec _ _ _ _ Hj)
        as (j & _ & _ & N & E & _).
      rewrite <- E in N.
      exact (ScanIgnoreWhitespace_again _ _ _ _ Hj N).
  - intros e qf Hq.
    unfold parseFunction. rewrite HI. cbn [bind].
    rewrite HS, HT, Token_eqb_refl. cbn [negb]. rewrite HS3, HT3.
    destruct Hl as [[-> ->]|Hl].
    + destruct bound as [|b]; [cbn in Hlen; lia|].
      cbn [parseFunctionLoop]. now rewrite Hq.
    + revert Hlen. generalize (@nil Expr) as acc. generalize bound as fuel.
      induction Hl as [p0 a p1' ti' p2' Ha HS' HT'
                      |p0 a p1' ti' p2' l q Ha HS' HT' Hl IH];
        intros fuel acc Hlen;
        (destruct fuel as [|fuel]; [cbn in Hlen; lia|]);
        cbn [parseFunctionLoop];
        unfold element in Ha; destruct (recur p0) as [r0 p1''| | |];
        try discriminate;
        cbn [bind] in Ha; injection Ha as <- <-; cbn [bind];
        rewrite HS', HT', Token_eqb_refl; cbn [negb].
      * destruct fuel as [|fuel]; [cbn in Hlen; lia|].
        cbn [parseFunctionLoop]. now rewrite Hq.
      * apply IH; [exact Hq|]. cbn in Hlen. lia.
Qed.

(** ** The numbers of the positional parameters *)

Lemma numbered_le lo l : forall hi, numbered lo l hi -> (lo <= hi)%Z.
Proof.
  revert lo. induction l as [|x l IH]; intros lo hi; cbn; [auto|].
  intros (H1 & H2). apply IH in H2. lia.
Qed.

Lemma numbered_app l : forall lo mid l' hi,
  numbered lo l mid -> numbered mid l' hi -> numbered lo (l ++ l') hi.
Proof.
  induction l as [|x l IH]; intros lo mid l' hi; cbn.
  - intros H1 H2. destruct l' as [|y l']; cbn in *; [lia|].
    destruct H2. split; [lia|assumption].
  - intros (H1 & H2) H3. split; [exact H1|]. eapply IH; eauto.
Qed.

Lemma numbered_raise lo l : forall hi hi',
  numbered lo l hi -> (hi <= hi')%Z -> numbered lo l hi'.
Proof.
  revert lo. induction l as [|x l IH]; intros lo hi hi'; cbn; [lia|].
  intros (H1 & H2) H3. split; [exact H1|]. eapply IH; eauto.
Qed.

Lemma numbered_length lo l : forall hi,
  numbered lo l hi -> (Z.of_nat (List.length l) <= hi - lo)%Z.
Proof.
  revert lo. induction l as [|x l IH]; intros lo hi; cbn [numbered].
  - intros H. cbn. lia.
  - intros (H1 & H2). apply IH in H2. cbn [List.length]. lia.
Qed.

Lemma climb_positionals op rhs : forall root root',
  climb op rhs root = Some root' ->
  positionals root' = positionals root ++ positionals rhs.
Proof.
  induction root; intros root' H; cbn [climb] in H;
    try (apply opToExpr_node in H; destruct H as (o' & -> & _);
         reflexivity; fail).
  destruct (_ <=? _)%Z.
  - apply opToExpr_node in H. destruct H as (o' & -> & _). reflexivity.
  - destruct (climb op rhs root2) as [r'|]; [|discriminate].
    injection H as <-. cbn [positionals].
    rewrite (IHroot2 r' eq_refl). now rewrite app_assoc.
Qed.

Lemma Unscan_ordered input p :
  orderedParams (Unscan input p) = orderedParams p.
Proof. reflexivity. Qed.

Lemma ScanIgnoreWhitespace_ordered input p ti q :
  ScanIgnoreWhitespace input p = (ti, q) -> orderedParams q = orderedParams p.
Proof.
  intros H. apply ScanIgnoreWhitespace_sameState in H. exact (proj1 H).
Qed.

Lemma Scan_ordered input p ti q :
  Scan input p = (ti, q) -> orderedParams q = orderedParams p.
Proof.
  intros H. apply Scan_facts in H. destruct H as (_ & _ & H). exact (proj1 H).
Qed.

(** Turns what is known of the scans into facts on the counter of the
    positional parameters, and decides. *)
Ltac counters :=
  repeat match goal with
  | H : ScanIgnoreWhitespace _ _ = (_, _) |- _ =>
      apply ScanIgnoreWhitespace_ordered in H
  | H : Scan _ _ = (_, _) |- _ => apply Scan_ordered in H
  end;
  cbn [counts numbered positionals flat_map app fst snd] in *;
  rewrite ?Unscan_ordered in *; cbn [orderedParams] in *;
  try exact I; try assumption;
  repeat match goal with
  | H : numbered _ _ _ |- _ => apply numbered_le in H
  end;
  try lia.

Lemma counts_bind {A B : Type} (f : A -> list Z) (g : B -> list Z)
    lo p' p (m : Outcome A) (k : A -> Parser -> Outcome B) :
  counts f (orderedParams p') p' m ->
  (orderedParams p <= orderedParams p')%Z ->
  (forall a q, m = Ok a q ->
     numbered (orderedParams p') (f a) (orderedParams q) ->
     counts g lo p (k a q)) ->
  counts g lo p (bind m k).
Proof.
  destruct m as [a q|e q|msg|]; cbn [bind counts]; auto. lia.
Qed.

Lemma flat_map_last {A B : Type} (f : A -> list B) l a :
  flat_map f (l ++ [a]) = flat_map f l ++ f a.
Proof. rewrite flat_map_app. cbn. now rewrite app_nil_r. Qed.

Section Counts.

Variable env : Extern.
Variable input : list TokenInfo.

Lemma parseIdent_counts p :
  counts (fun _ : string => []) (orderedParams p) p (parseIdent env input p).
Proof. unfold parseIdent. repeat brk0; counters. Qed.

Lemma parseType_ordered p o q :
  parseType input p = (o, q) -> orderedParams q = orderedParams p.
Proof.
  unfold parseType.
  destruct (ScanIgnoreWhitespace input p) as [ti p1] eqn:E.
  destruct (Tok ti); intros H; injection H as <- <-; counters.
Qed.

Lemma parseFieldRefLoop_counts fuel : forall l p,
  counts (fun _ : list string => []) (orderedParams p) p
    (parseFieldRefLoop input fuel l p).
Proof.
  induction fuel as [|fuel IH]; intros l p; [exact I|].
  cbn [parseFieldRefLoop].
  destruct (Scan input p) as [ti p1] eqn:E1.
  destruct (Tok ti); try (counters; fail).
  - destruct (Lit ti); [exact I|].
    destruct (negb _); [counters|].
    specialize (IH (l ++ [s]) p1).
    destruct (parseFieldRefLoop input fuel _ p1); counters.
  - destruct (Scan input p1) as [ti2 p2] eqn:E2.
    destruct (negb _); [counters|].
    specialize (IH (l ++ [Lit ti2]) p2).
    destruct (parseFieldRefLoop input fuel _ p2); counters.
Qed.

Lemma parseFieldRef_counts fuel p :
  counts (fun _ : list string => []) (orderedParams p) p
    (parseFieldRef env input fuel p).
Proof.
  unfold parseFieldRef.
  apply (counts_bind _ _ _ p p _ _ (parseIdent_counts p)); [lia|].
  intros chunk p1 _ H1.
  pose proof (parseFieldRefLoop_counts fuel [chunk] p1) as HL.
  destruct (parseFieldRefLoop input fuel _ p1); counters.
Qed.

Variable recur : Parser -> Outcome (Expr * string).
Variable bound : nat.
Hypothesis Hrecur : forall q,
  counts (fun r => positionals (fst r)) (orderedParams q) q (recur q).

Lemma parseKV_counts p :
  counts (fun kv : KVPair => positionals (snd kv)) (orderedParams p) p
    (parseKV env input recur p).
Proof.
  unfold parseKV.
  destruct (ScanIgnoreWhitespace input p) as [ti p1] eqn:E1.
  destruct (_ || _); [|counters].
  destruct (ScanIgnoreWhitespace input p1) as [ti2 p2] eqn:E2.
  destruct (negb _); [counters|].
  apply (counts_bind _ _ _ p2 p _ _ (Hrecur p2)); [counters|].
  intros r p3 _ H3.
  apply ScanIgnoreWhitespace_ordered in E1, E2.
  cbn [counts snd fst]. now rewrite <- E1, <- E2.
Qed.

Lemma parseDocumentLoop_counts lo fuel : forall l p,
  numbered lo (flat_map (fun kv : KVPair => positionals (snd kv)) l)
    (orderedParams p) ->
  counts (flat_map (fun kv : KVPair => positionals (snd kv))) lo p
    (parseDocumentLoop env input recur fuel l p).
Proof.
  induction fuel as [|fuel IH]; intros l p Hl; [exact I|].
  cbn [parseDocumentLoop].
  pose proof (parseKV_counts p) as HK.
  destruct (parseKV env input recur p) as [kv p1|e p1|msg|];
    try exact I.
  - cbv zeta.
    destruct (ScanIgnoreWhitespace input p1) as [ti p2] eqn:E2.
    assert (Hl' : numbered lo
              (flat_map (fun kv : KVPair => positionals (snd kv))
                 (l ++ [kv])) (orderedParams p2)).
    { rewrite flat_map_last. apply ScanIgnoreWhitespace_ordered in E2.
      rewrite E2. eapply numbered_app; [exact Hl|exact HK]. }
    destruct (negb _); [exact Hl'|].
    specialize (IH (l ++ [kv]) p2 Hl').
    destruct (parseDocumentLoop env input recur fuel _ p2); counters.
  - cbn [counts] in *. rewrite Unscan_ordered.
    eapply numbered_raise; [exact Hl|exact HK].
Qed.

Lemma parseDocument_counts p :
  counts (fun r : Expr * bool => positionals (fst r)) (orderedParams p) p
    (parseDocument env input recur bound p).
Proof.
  unfold parseDocument.
  destruct (ScanIgnoreWhitespace input p) as [ti p1] eqn:E1.
  destruct (negb _); [counters|].
  pose proof (parseDocumentLoop_counts (orderedParams p) bound [] p1) as HL.
  apply ScanIgnoreWhitespace_ordered in E1.
  specialize (HL ltac:(cbn; lia)).
  destruct (parseDocumentLoop env input recur bound [] p1) as [l p2| | |];
    cbn [bind]; try exact I; [|counters].
  destruct (ScanIgnoreWhitespace input p2) as [ti3 p3] eqn:E3.
  apply ScanIgnoreWhitespace_ordered in E3.
  destruct (negb _); cbn [counts fst positionals] in *.
  - apply numbered_le in HL. lia.
  - now rewrite E3.
Qed.

Lemma parseExprListLoop_counts lo fuel : forall l p,
  numbered lo (flat_map positionals l) (orderedParams p) ->
  counts (flat_map positionals) lo p
    (parseExprListLoop input recur fuel l p).
Proof.
  induction fuel as [|fuel IH]; intros l p Hl; [exact I|].
  cbn [parseExprListLoop].
  pose proof (Hrecur p) as HK.
  destruct (recur p) as [r p1|e p1|msg|]; try exact I.
  - cbv zeta.
    destruct (ScanIgnoreWhitespace input p1) as [ti p2] eqn:E2.
    assert (Hl' : numbered lo (flat_map positionals (l ++ [fst r]))
                    (orderedParams p2)).
    { rewrite flat_map_last. apply ScanIgnoreWhitespace_ordered in E2.
      rewrite E2. eapply numbered_app; [exact Hl|exact HK]. }
    destruct (negb _); [exact Hl'|].
    specialize (IH (l ++ [fst r]) p2 Hl').
    destruct (parseExprListLoop input recur fuel _ p2); counters.
  - cbn [counts] in *. rewrite Unscan_ordered.
    eapply numbered_raise; [exact Hl|exact HK].
Qed.

Lemma parseExprList_counts a b p :
  counts (flat_map positionals) (orderedParams p) p
    (parseExprList env input recur bound a b p).
Proof.
  unfold parseExprList.
  destruct (ScanIgnoreWhitespace input p) as [ti p1] eqn:E1.
  destruct (negb _); [counters|].
  pose proof (parseExprListLoop_counts (orderedParams p) bound [] p1) as HL.
  apply ScanIgnoreWhitespace_ordered in E1.
  specialize (HL ltac:(cbn; lia)).
  destruct (parseExprListLoop input recur bound [] p1) as [l p2| | |];
    cbn [bind]; try exact I; [|counters].
  destruct (ScanIgnoreWhitespace input p2) as [ti3 p3] eqn:E3.
  apply ScanIgnoreWhitespace_ordered in E3.
  destruct (negb _); cbn [counts] in *.
  - apply numbered_le in HL. lia.
  - now rewrite E3.
Qed.

Lemma resolve_counts lo name args p p' :
  numbered lo (flat_map positionals args) (orderedParams p) ->
  (orderedParams p' <= orderedParams p)%Z ->
  counts positionals lo p' (resolve env name args p).
Proof.
  intros H Hp. unfold resolve, GetFunc.
  destruct (String.eqb name "pk").
  - destruct args; cbn [counts]; [exact H|exact Hp].
  - destruct (registered env name _); cbn [counts]; [exact H|exact Hp].
Qed.

Lemma parseFunctionLoop_counts lo fuel : forall name l p,
  numbered lo (flat_map positionals l) (orderedParams p) ->
  counts positionals lo p (parseFunctionLoop env input recur fuel name l p).
Proof.
  induction fuel as [|fuel IH]; intros name l p Hl; [exact I|].
  cbn [parseFunctionLoop].
  apply (counts_bind _ _ _ p p _ _ (Hrecur p)); [lia|].
  intros r p1 _ H1.
  destruct (ScanIgnoreWhitespace input p1) as [ti p2] eqn:E2.
  assert (Hl' : numbered lo (flat_map positionals (l ++ [fst r]))
                  (orderedParams p2)).
  { rewrite flat_map_last. apply ScanIgnoreWhitespace_ordered in E2.
    rewrite E2. eapply numbered_app; [exact Hl|exact H1]. }
  apply ScanIgnoreWhitespace_ordered in E2.
  apply numbered_le in H1.
  destruct (negb _).
  - apply resolve_counts; [exact Hl'|]. rewrite Unscan_ordered. lia.
  - specialize (IH name (l ++ [fst r]) p2 Hl').
    destruct (parseFunctionLoop env input recur fuel _ _ p2); counters.
Qed.

Lemma parseFunction_counts p :
  counts positionals (orderedParams p) p
    (parseFunction env input recur bound p).
Proof.
  unfold parseFunction.
  apply (counts_bind _ _ _ p p _ _ (parseIdent_counts p)); [lia|].
  intros name p1 _ H1. cbn [numbered] in H1.
  destruct (ScanIgnoreWhitespace input p1) as [ti p2] eqn:E2.
  apply ScanIgnoreWhitespace_ordered in E2.
  destruct (negb _); [counters|].
  destruct (ScanIgnoreWhitespace input p2) as [ti3 p3] eqn:E3.
  apply ScanIgnoreWhitespace_ordered in E3.
  destruct (Token_eqb _ _).
  - apply resolve_counts; cbn [flat_map numbered]; lia.
  - pose proof (parseFunctionLoop_counts (orderedParams p) bound name []
                  (Unscan input p3)) as HL.
    rewrite Unscan_ordered in HL. specialize (HL ltac:(cbn; lia)).
    destruct (parseFunctionLoop _ _ _ _ _ _ _); counters.
Qed.

Lemma parseCastExpression_counts p :
  counts positionals (orderedParams p) p
    (parseCastExpression env input recur p).
Proof.
  unfold parseCastExpression.
  destruct (ScanIgnoreWhitespace input p) as [ti p1] eqn:E1.
  destruct (negb _); [counters|].
  destruct (ScanIgnoreWhitespace input p1) as [ti2 p2] eqn:E2.
  destruct (negb _); [counters|].
  apply (counts_bind _ _ _ p2 p _ _ (Hrecur p2)); [counters|].
  intros r p3 _ H3.
  destruct (ScanIgnoreWhitespace input p3) as [ti4 p4] eqn:E4.
  destruct (negb _); [counters|].
  destruct (parseType input p4) as [o p5] eqn:ET.
  apply parseType_ordered in ET.
  pose proof (numbered_le _ _ _ H3) as L3.
  destruct o; destruct (ScanIgnoreWhitespace input p5) as [ti6 p6] eqn:E6;
    apply ScanIgnoreWhitespace_ordered in E1, E2, E4, E6;
    [destruct (negb _)|]; cbn [counts positionals]; rewrite ?Unscan_ordered;
    try lia.
  rewrite E6, ET, E4. now rewrite <- E1, <- E2.
Qed.

Lemma parseUnaryExpr_counts p :
  counts positionals (orderedParams p) p
    (parseUnaryExpr env input recur bound p).
Proof.
  unfold parseUnaryExpr.
  destruct (ScanIgnoreWhitespace input p) as [ti p1] eqn:E1.
  apply ScanIgnoreWhitespace_ordered in E1.
  destruct (Tok ti) eqn:ET; try (counters; fail).
  - destruct (Scan input p1) as [ti1 p2] eqn:E2.
    rewrite (Unscan_Scan _ _ _ _ E2).
    destruct (Token_eqb _ _).
    + pose proof (parseFunction_counts (Unscan input p1)) as HF.
      rewrite Unscan_ordered, E1 in HF.
      destruct (parseFunction _ _ _ _ _); counters.
    + pose proof (parseFieldRef_counts bound (Unscan input p1)) as HF.
      rewrite Unscan_ordered, E1 in HF.
      destruct (parseFieldRef _ _ _ _); cbn [bind]; counters.
  - repeat brk0; counters.
  - repeat brk0; counters.
  - repeat brk0; counters.
  - repeat brk0; counters.
  - repeat brk0; counters.
  - pose proof (parseExprList_counts LPAREN RPAREN (Unscan input p1)) as HF.
    rewrite Unscan_ordered, E1 in HF.
    destruct (parseExprList _ _ _ _ _ _ _); cbn [bind]; counters.
  - pose proof (parseDocument_counts (Unscan input p1)) as HF.
    rewrite Unscan_ordered, E1 in HF.
    destruct (parseDocument _ _ _ _ _); cbn [bind]; counters.
  - pose proof (parseExprList_counts LSBRACKET RSBRACKET (Unscan input p1))
      as HF.
    rewrite Unscan_ordered, E1 in HF.
    destruct (parseExprList _ _ _ _ _ _ _); cbn [bind]; counters.
  - pose proof (parseCastExpression_counts (Unscan input p1)) as HF.
    rewrite Unscan_ordered, E1 in HF.
    destruct (parseCastExpression _ _ _ _); counters.
Qed.

Lemma parseExprLoop_counts lo fuel : forall root p,
  numbered lo (positionals root) (orderedParams p) ->
  counts (fun r : Expr * string => positionals (fst r)) lo p
    (parseExprLoop env input recur bound fuel root p).
Proof.
  induction fuel as [|fuel IH]; intros root p Hr; [exact I|].
  cbn [parseExprLoop].
  destruct (ScanIgnoreWhitespace input p) as [op p1] eqn:E1.
  apply ScanIgnoreWhitespace_ordered in E1.
  destruct (negb _); [cbn [counts fst]; now rewrite Unscan_ordered, E1|].
  apply (counts_bind _ _ _ p1 p _ _ (parseUnaryExpr_counts p1)); [lia|].
  intros rhs p2 _ H2.
  destruct (climb _ _ _) as [root'|] eqn:EC; [|exact I].
  apply climb_positionals in EC.
  specialize (IH root' p2).
  rewrite EC in IH. rewrite E1 in H2.
  specialize (IH (numbered_app _ _ _ _ _ Hr H2)).
  apply numbered_le in H2.
  destruct (parseExprLoop env input recur bound fuel root' p2); counters.
Qed.

Lemma release_counts {A : Type} (f : A -> list Z) lo p own (o : Outcome A) :
  counts f lo p o -> counts f lo p (release own o).
Proof. destruct own, o; cbn; auto. Qed.

Lemma parseExprBody_counts p :
  counts (fun r : Expr * string => positionals (fst r)) (orderedParams p) p
    (parseExprBody env input recur bound p).
Proof.
  unfold parseExprBody. apply release_counts.
  set (p0 := if match buf p with Some _ => false | None => true end
             then setBuf p (Some EmptyString) else p).
  assert (Hp0 : orderedParams p0 = orderedParams p)
    by (subst p0; destruct (buf p); reflexivity).
  rewrite <- Hp0.
  apply (counts_bind _ _ _ p0 p _ _ (parseUnaryExpr_counts p0)); [lia|].
  intros e p1 _ H1.
  pose proof (parseExprLoop_counts (orderedParams p0) bound e p1 H1) as HL.
  apply numbered_le in H1.
  destruct (parseExprLoop env input recur bound bound e p1); counters.
Qed.

End Counts.

Lemma ParseExpr_counts env input fuel : forall p,
  counts (fun r : Expr * string => positionals (fst r)) (orderedParams p) p
    (ParseExpr env input fuel p).
Proof.
  induction fuel as [|fuel IH]; intros p; [exact I|].
  cbn [ParseExpr]. apply parseExprBody_counts. exact IH.
Qed.

(** X13.  The positional parameters of the expression that [ParseExpr]
    returns bear numbers that go up strictly in the order of the source,
    all of them above the counter the parser started with and none above
    the counter it ends with; so no two of them bear the same number, and
    there are no more of them than the counter has gone up. *)
Theorem positional_numbers_increase env input fuel p e lit q :
  ParseExpr env input fuel p = Ok (e, lit) q ->
  numbered (orderedParams p) (positionals e) (orderedParams q) /\
  NoDup (positionals e) /\
  (Z.of_nat (List.length (positionals e))
   <= orderedParams q - orderedParams p)%Z.
Proof.
  intros H. pose proof (ParseExpr_counts env input fuel p) as HC.
  rewrite H in HC. cbn [counts fst] in HC.
  split; [exact HC|]. split; [|now apply numbered_length].
  revert HC. generalize (orderedParams p) as lo.
  induction (positionals e) as [|x l IH]; intros lo; cbn [numbered].
  - constructor.
  - intros (H1 & H2). constructor; [|now apply (IH x)].
    clear IH H1. revert x H2.
    induction l as [|y l IH]; intros x; cbn [numbered]; [auto|].
    intros (H1 & H2) [->|Hin]; [lia|].
    apply (IH x); [|exact Hin].
    destruct l as [|z l]; cbn [numbered] in *; [lia|].
    destruct H2. split; [lia|assumption].
Qed.

(** X14.  [ParseExpr] never takes a parameter back: whatever it answers,
    a value or an error, either counter of the parser is at least what it
    was. *)
Theorem counters_never_decrease env input fuel p :
  leaves (fun q => (orderedParams p <= orderedParams q)%Z /\
                   (namedParams p <= namedParams q)%Z)
    (ParseExpr env input fuel p).
Proof.
  apply ParseExpr_leaves.
  - intros p0 ti q H. apply Scan_facts in H.
    destruct H as (_ & _ & -> & -> & _). auto.
  - intros p0. unfold Unscan. cbn. auto.
  - intros p0 (H1 & H2) _. cbn. lia.
  - intros p0 (H1 & H2) _. cbn. lia.
  - intros p0 _ _ q b. cbn. auto.
  - lia.
Qed.

(** ** The order of operands and operators *)

Lemma climb_inorder_leaf op rhs : forall root root',
  climb op rhs root = Some root' ->
  exists o, opToken o = op /\
    inorder root' = inorder root ++ inl o :: inorder rhs.
Proof.
  induction root; intros root' H; cbn [climb] in H;
    try (apply opToExpr_node in H; destruct H as (o' & -> & Ho);
         exists o'; split; [exact Ho|reflexivity]; fail).
  destruct (_ <=? _)%Z.
  - apply opToExpr_node in H. destruct H as (o' & -> & Ho).
    exists o'. split; [exact Ho|reflexivity].
  - destruct (climb op rhs root2) as [r'|]; [|discriminate].
    injection H as <-.
    destruct (IHroot2 r' eq_refl) as (o' & Ho & E).
    exists o'. split; [exact Ho|]. cbn [inorder]. rewrite E.
    rewrite <- app_assoc. reflexivity.
Qed.

Lemma inorder_leaf e : isLeaf e -> inorder e = [inr e].
Proof. destruct e; cbn; tauto. Qed.

Lemma parseExprLoop_inorder env input recur bound fuel : forall root p e lit q,
  parseExprLoop env input recur bound fuel root p = Ok (e, lit) q ->
  exists l q',
    operatorChain input (parseUnaryExpr env input recur bound) p l q' /\
    inorder e = inorder root ++ l.
Proof.
  induction fuel as [|fuel IH]; intros root p e lit q; [discriminate|].
  cbn [parseExprLoop].
  destruct (ScanIgnoreWhitespace input p) as [op p1] eqn:E1.
  destruct (negb _).
  - cbv zeta. intros H. injection H as <- _ _.
    exists [], p. split; [constructor|now rewrite app_nil_r].
  - destruct (parseUnaryExpr env input recur bound p1) as [rhs p2| | |]
      eqn:EU; cbn [bind]; try discriminate.
    destruct (climb _ _ _) as [root'|] eqn:EC; [|discriminate].
    intros H. apply IH in H. destruct H as (l & q' & Hc & Hi).
    apply climb_inorder_leaf in EC. destruct EC as (o & Ho & Er).
    rewrite (inorder_leaf rhs) in Er
      by (eapply parseUnaryExpr_leaf; exact EU).
    exists (inl o :: inr rhs :: l), q'. split.
    + econstructor; eauto.
    + rewrite Hi, Er, <- app_assoc. reflexivity.
Qed.

(** X15.  [ParseExpr] changes how the operands are grouped, never their
    order.  The walk down the right spine returns a tree that reads, from
    left to right, as the tree it was given, then the new operator, then
    the new operand; and the expression of a successful [ParseExpr]
    reads, from left to right, as the first operand and then the
    operators and the operands in the order in which the loop has read
    them. *)
Theorem operands_in_order env input fuel p e lit q :
  ParseExpr env input (S fuel) p = Ok (e, lit) q ->
  (forall op rhs root root',
     climb op rhs root = Some root' ->
     exists o, opToken o = op /\
       inorder root' = inorder root ++ inl o :: inorder rhs) /\
  exists first p1 l q',
    parseUnaryExpr env input (ParseExpr env input fuel) fuel (buffered p)
    = Ok first p1 /\
    operatorChain input
      (parseUnaryExpr env input (ParseExpr env input fuel) fuel) p1 l q' /\
    inorder e = inr first :: l.
Proof.
  intros H. split; [intros op rhs; apply climb_inorder_leaf|].
  cbn [ParseExpr] in H. unfold parseExprBody in H.
  assert (Hp0 : (if match buf p with Some _ => false | None => true end
                 then setBuf p (Some EmptyString) else p) = buffered p)
    by (unfold buffered; destruct (buf p); reflexivity).
  rewrite Hp0 in H.
  destruct (parseUnaryExpr _ _ _ _ (buffered p)) as [first p1| | |] eqn:EU;
    cbn [bind] in H; try (destruct (buf p); discriminate).
  destruct (parseExprLoop env input (ParseExpr env input fuel) fuel fuel
              first p1) as [[e' lit'] q0| | |] eqn:EL;
    try (destruct (buf p); discriminate).
  assert (e' = e) as -> by (destruct (buf p); cbn in H; congruence).
  apply parseExprLoop_inorder in EL. destruct EL as (l & q' & Hc & Hi).
  exists first, p1, l, q'. split; [reflexivity|]. split; [exact Hc|].
  rewrite Hi, (inorder_leaf first) by (eapply parseUnaryExpr_leaf; exact EU).
  reflexivity.
Qed.

(** ** What a value can be *)

Section NotNil.

Variable env : Extern.
Variable input : list TokenInfo.
Variable recur : Parser -> Outcome (Expr * string).
Variable bound : nat.

Lemma resolve_value name args p e q :
  resolve env name args p = Ok e q -> e <> NilExpr.
Proof.
  unfold resolve, GetFunc.
  destruct (String.eqb name "pk").
  - destruct args; intros H; try discriminate.
    injection H as <- _. discriminate.
  - destruct (registered env name _); intros H; try discriminate.
    injection H as <- _. discriminate.
Qed.

Lemma parseFunctionLoop_value fuel : forall name args p e q,
  parseFunctionLoop env input recur fuel name args p = Ok e q ->
  e <> NilExpr.
Proof.
  induction fuel as [|fuel IH]; intros name args p e q; [discriminate|].
  cbn [parseFunctionLoop].
  destruct (recur p) as [r p1| | |]; cbn [bind]; try discriminate.
  destruct (ScanIgnoreWhitespace input p1) as [ti p2].
  destruct (negb _); [apply resolve_value|apply IH].
Qed.

Lemma parseUnaryExpr_value p e q :
  parseUnaryExpr env input recur bound p = Ok e q -> e <> NilExpr.
Proof.
  unfold parseUnaryExpr.
  destruct (ScanIgnoreWhitespace input p) as [ti p1] eqn:E1.
  destruct (Tok ti) eqn:ET; try discriminate;
    try (intros H; injection H as <- _; discriminate).
  - destruct (Scan input p1) as [ti1 p2].
    destruct (Token_eqb (Tok ti1) LPAREN).
    + unfold parseFunction.
      destruct (parseIdent env input _); cbn [bind]; try discriminate.
      destruct (ScanIgnoreWhitespace input p0) as [ti2 p3].
      destruct (negb _); [discriminate|].
      destruct (ScanIgnoreWhitespace input p3) as [ti3 p4].
      destruct (Token_eqb _ _);
        [apply resolve_value|apply parseFunctionLoop_value].
    + destruct (parseFieldRef _ _ _ _); cbn [bind]; try discriminate.
      intros H; injection H as <- _; discriminate.
  - repeat brk0; try discriminate;
      intros H; injection H as <- _; discriminate.
  - repeat brk0; try discriminate;
      intros H; injection H as <- _; discriminate.
  - repeat brk0; try discriminate;
      intros H; injection H as <- _; discriminate.
  - repeat brk0; try discriminate;
      intros H; injection H as <- _; discriminate.
  - repeat brk0; try discriminate;
      intros H; injection H as <- _; discriminate.
  - destruct (parseExprList _ _ _ _ _ _ _); cbn [bind]; try discriminate.
    intros H; injection H as <- _; discriminate.
  - unfold parseDocument.
    rewrite (ScanIgnoreWhitespace_again _ _ _ _ E1)
      by (rewrite ET; discriminate).
    rewrite ET. change (Token_eqb LBRACKET LBRACKET) with true. cbn [negb].
    destruct (parseDocumentLoop _ _ _ _ _ _); cbn [bind]; try discriminate.
    destruct (ScanIgnoreWhitespace input p0) as [ti3 p3].
    destruct (negb _); cbn [bind]; try discriminate.
    intros H; injection H as <- _; discriminate.
  - destruct (parseExprList _ _ _ _ _ _ _); cbn [bind]; try discriminate.
    intros H; injection H as <- _; discriminate.
  - unfold parseCastExpression.
    repeat brk0; try discriminate.
    destruct (recur _) as [r p3| | |]; cbn [bind]; try discriminate.
    repeat brk0; try discriminate.
    intros H; injection H as <- _; discriminate.
Qed.

Lemma climb_value op rhs root root' :
  climb op rhs root = Some root' -> root' <> NilExpr.
Proof.
  intros H. apply climb_inorder_leaf in H. destruct H as (o & _ & H).
  intros ->. cbn [inorder] in H.
  destruct (inorder root) as [|x [|y l]]; cbn in H; discriminate.
Qed.

Lemma parseExprLoop_value fuel : forall root p e lit q,
  root <> NilExpr ->
  parseExprLoop env input recur bound fuel root p = Ok (e, lit) q ->
  e <> NilExpr.
Proof.
  induction fuel as [|fuel IH]; intros root p e lit q Hr; [discriminate|].
  cbn [parseExprLoop].
  destruct (ScanIgnoreWhitespace input p) as [op p1].
  destruct (negb _).
  - cbv zeta. intros H. injection H as <- _ _. exact Hr.
  - destruct (parseUnaryExpr env input recur bound p1) as [rhs p2| | |];
      cbn [bind]; try discriminate.
    destruct (climb _ _ _) as [root'|] eqn:EC; [|discriminate].
    apply IH. eapply climb_value. exact EC.
Qed.

End NotNil.

(** X16.  A successful [ParseExpr] returns an expression: never the nil
    expression that [parseParam] returns on a token that is no
    parameter. *)
Theorem ParseExpr_value env input fuel p e lit q :
  ParseExpr env input fuel p = Ok (e, lit) q -> e <> NilExpr.
Proof.
  destruct fuel as [|fuel]; [discriminate|].
  cbn [ParseExpr]. unfold parseExprBody.
  destruct (parseUnaryExpr _ _ _ _ _) as [e0 p1| | |] eqn:EU;
    cbn [bind]; try (destruct (buf p); discriminate).
  destruct (parseExprLoop env input (ParseExpr env input fuel) fuel fuel
              e0 p1) as [[e' lit'] q0| | |] eqn:EL;
    try (destruct (buf p); discriminate).
  intros H.
  assert (e' = e) as -> by (destruct (buf p); cbn in H; congruence).
  eapply parseExprLoop_value; [|exact EL].
  eapply parseUnaryExpr_value. exact EU.
Qed.

(** ** The type of a CAST *)

(** X17.  After CAST, the parenthesis, the expression and AS, the next
    token must name a type.  If it does not, [parseCastExpression] fails
    with an error that names that token and expects a type, and leaves
    the token unread.  If it does,
    the closing parenthesis must follow: then the result is the cast of
    the expression to that type, else the error names the token found
    and expects the parenthesis. *)
Theorem cast_type env input recur p ti p1 ti2 p2 r p3 ti4 p4 tt p5 :
  ScanIgnoreWhitespace input p = (ti, p1) -> Tok ti = CAST ->
  ScanIgnoreWhitespace input p1 = (ti2, p2) -> Tok ti2 = LPAREN ->
  recur p2 = Ok r p3 ->
  ScanIgnoreWhitespace input p3 = (ti4, p4) -> Tok ti4 = AS ->
  ScanIgnoreWhitespace input p4 = (tt, p5) ->
  (fst (parseType input p4) = None ->
   parseCastExpression env input recur p
   = Fail (expected env tt ["type"]) (Unscan input p5) /\
   ScanIgnoreWhitespace input (Unscan input p5) = (tt, p5)) /\
  (forall tp, fst (parseType input p4) = Some tp ->
   forall tc p6, ScanIgnoreWhitespace input p5 = (tc, p6) ->
   parseCastExpression env input recur p
   = if Token_eqb (Tok tc) RPAREN
     then Ok (Cast (fst r) tp) p6
     else Fail (expected env tc [")"]) p6).
Proof.
  intros H1 T1 H2 T2 H3 H4 T4 H5.
  assert (N : Tok tt <> WS).
  { destruct (ScanIgnoreWhitespace_spec _ _ _ _ H5)
      as (j & _ & _ & N & -> & _). exact N. }
  pose proof (ScanIgnoreWhitespace_again _ _ _ _ H5 N) as Hag.
  assert (HP : parseType input p4
               = match fst (parseType input p4) with
                 | Some tp => (Some tp, p5)
                 | None => (None, Unscan input p5)
                 end).
  { unfold parseType. rewrite H5. destruct (Tok tt); reflexivity. }
  split.
  - intros Hn. split; [|exact Hag].
    unfold parseCastExpression.
    rewrite H1, T1, H2, T2.
    change (Token_eqb CAST CAST) with true.
    change (Token_eqb LPAREN LPAREN) with true. cbn [negb].
    rewrite H3. cbn [bind]. rewrite H4, T4.
    change (Token_eqb AS AS) with true. cbn [negb].
    rewrite HP, Hn, Hag. reflexivity.
  - intros tp Hs tc p6 H6.
    unfold parseCastExpression.
    rewrite H1, T1, H2, T2.
    change (Token_eqb CAST CAST) with true.
    change (Token_eqb LPAREN LPAREN) with true. cbn [negb].
    rewrite H3. cbn [bind]. rewrite H4, T4.
    change (Token_eqb AS AS) with true. cbn [negb].
    rewrite HP, Hs, H6.
    now destruct (Token_eqb (Tok tc) RPAREN).
Qed.

(** ** Where an error leaves the parser *)

(** X18.  Where a failed [ParseExpr] stops: started within the input, it
    has read at least one token, and at most the end of the input after
    the last token. *)
Theorem ParseExpr_fails_within env input fuel p e q :
  ParseExpr env input fuel p = Fail e q ->
  pos p <= List.length input ->
  pos p < pos q <= S (List.length input).
Proof.
  intros H Hp.
  pose proof (ParseExpr_advances env input fuel p) as HA.
  pose proof (ParseExpr_settles env input
                (fuel + S (List.length input)) p Hp ltac:(lia)) as HS.
  rewrite (ParseExpr_more env input fuel _ p _ H) in HS by discriminate.
  rewrite H in HA. cbn [settles advances] in *. lia.
Qed.

(** ** Identifiers *)

(** X19.  An identifier begins a call only when the opening parenthesis
    follows it at once.  Followed by any token that is neither that
    parenthesis, a dot nor a number, white space among them, it is a
    field of one segment, and the parser stops right after it: count (a),
    with a blank before the parenthesis, parses to the field count and
    leaves the parenthesis in the input. *)
Theorem identifier_alone env input recur bound p ti p1 ti1 p2 :
  ScanIgnoreWhitespace input p = (ti, p1) -> Tok ti = IDENT ->
  Scan input p1 = (ti1, p2) ->
  Tok ti1 <> LPAREN -> Tok ti1 <> DOT -> Tok ti1 <> NUMBER ->
  0 < bound ->
  parseUnaryExpr env input recur bound p = Ok (FieldSelector [Lit ti]) p1 /\
  (forall k,
     ParseExpr countExtern spacedCallInput (2 + k) NewParser
     = Ok (FieldSelector ["count"], "count") (mkParser 2 0 0 None)).
Proof.
  intros H1 T1 H2 N1 N2 N3 Hb. split.
  - assert (N : Tok ti <> WS) by (rewrite T1; discriminate).
    unfold parseUnaryExpr. rewrite H1, T1, H2.
    apply Token_eqb_neq in N1. rewrite N1.
    rewrite (Unscan_Scan _ _ _ _ H2).
    unfold parseFieldRef, parseIdent.
    rewrite (ScanIgnoreWhitespace_again _ _ _ _ H1 N), T1.
    change (Token_eqb IDENT IDENT) with true. cbn [negb bind].
    destruct bound as [|b]; [lia|].
    cbn [parseFieldRefLoop]. rewrite H2.
    rewrite (Unscan_Scan _ _ _ _ H2).
    destruct (Tok ti1); try reflexivity; congruence.
  - intros k. apply ParseExpr_more; [vm_compute; reflexivity|discriminate].
Qed.

(** ** Field references are runs of adjacent tokens *)

Lemma parseFieldRefLoop_adjacent input fuel : forall l p l' q,
  parseFieldRefLoop input fuel l p = Ok l' q ->
  pos p <= pos q /\
  (forall i, pos p <= i < pos q ->
     pathToken (Tok (tokenAt input i)) = true) /\
  Tok (tokenAt input (pos q)) <> DOT /\
  List.length l <= List.length l'.
Proof.
  induction fuel as [|fuel IH]; intros l p l' q; [discriminate|].
  cbn [parseFieldRefLoop].
  destruct (Scan input p) as [ti p1] eqn:E1.
  apply Scan_facts in E1. destruct E1 as (-> & P1 & _).
  assert (Stop : Tok (tokenAt input (pos p)) <> DOT ->
            Ok l (Unscan input p1) = Ok l' q ->
            pos p <= pos q /\
            (forall i, pos p <= i < pos q ->
               pathToken (Tok (tokenAt input i)) = true) /\
            Tok (tokenAt input (pos q)) <> DOT /\
            List.length l <= List.length l').
  { intros N H. injection H as <- <-. rewrite Unscan_pos, P1. cbn [Nat.pred].
    split; [lia|]. split; [intros i Hi; lia|]. split; [exact N|lia]. }
  destruct (Tok (tokenAt input (pos p))) eqn:ET;
    try (apply Stop; discriminate).
  - destruct (Lit (tokenAt input (pos p))) as [|c lit']; [discriminate|].
    destruct (negb _); [apply Stop; discriminate|].
    intros H. apply IH in H. destruct H as (L & A & N & Len).
    rewrite length_app in Len. cbn [List.length] in Len.
    split; [lia|]. split; [|split; [exact N|lia]].
    intros i Hi. destruct (Nat.eq_dec i (pos p)) as [->|Hne].
    + now rewrite ET.
    + apply A. lia.
  - destruct (Scan input p1) as [ti2 p2] eqn:E2.
    apply Scan_facts in E2. destruct E2 as (-> & P2 & _).
    destruct (Token_eqb (Tok (tokenAt input (pos p1))) IDENT) eqn:T2;
      cbn [negb]; [|discriminate].
    apply Token_eqb_eq in T2.
    intros H. apply IH in H. destruct H as (L & A & N & Len).
    rewrite length_app in Len. cbn [List.length] in Len.
    split; [lia|]. split; [|split; [exact N|lia]].
    intros i Hi. destruct (Nat.eq_dec i (pos p)) as [->|Hne].
    + now rewrite ET.
    + destruct (Nat.eq_dec i (pos p1)) as [->|Hne1].
      * now rewrite T2.
      * apply A. lia.
Qed.

(** X20.  A field reference is a run of adjacent tokens.  What
    [parseFieldRef] returns begins with the lexeme of the first token
    that is not white space, an identifier; from that token to where the
    parser stops there are only identifiers, dots and numbers, no white
    space among them; and the parser stops before a token that is not a
    dot. *)
Theorem field_path_adjacent env input fuel p path q :
  parseFieldRef env input fuel p = Ok path q ->
  exists j,
    pos p <= j < pos q /\
    (forall i, pos p <= i < j -> Tok (tokenAt input i) = WS) /\
    Tok (tokenAt input j) = IDENT /\
    hd_error path = Some (Lit (tokenAt input j)) /\
    (forall i, j <= i < pos q -> pathToken (Tok (tokenAt input i)) = true) /\
    Tok (tokenAt input (pos q)) <> DOT.
Proof.
  unfold parseFieldRef, parseIdent.
  destruct (ScanIgnoreWhitespace input p) as [ti p1] eqn:E1.
  apply ScanIgnoreWhitespace_spec in E1.
  destruct E1 as (j & L & W & _ & -> & P1 & _).
  destruct (Token_eqb (Tok (tokenAt input j)) IDENT) eqn:T; cbn [negb bind];
    [|discriminate].
  apply Token_eqb_eq in T.
  intros H.
  pose proof (parseFieldRefLoop_extends _ _ _ _ _ _ H) as (more & ->).
  apply parseFieldRefLoop_adjacent in H. destruct H as (Lq & A & N & _).
  exists j. split; [lia|]. split; [exact W|]. split; [exact T|].
  split; [reflexivity|]. split; [|exact N].
  intros i Hi. destruct (Nat.eq_dec i j) as [->|Hne].
  - now rewrite T.
  - apply A. lia.
Qed.

(** ** The panic of an unknown operator *)

Lemma ParseExprWith_IsOperator env input fuel : forall p,
  ParseExprWith IsOperator env input fuel p = ParseExpr env input fuel p.
Proof. reflexivity. Qed.

(** The walk down the right spine ends in the panic only for a token
    that [opToExpr] does not know. *)
Lemma climb_known op rhs : forall root,
  (forall lhs, opToExpr op lhs rhs <> None) -> climb op rhs root <> None.
Proof.
  intros root Hk. induction root; cbn [climb]; try apply Hk.
  destruct (_ <=? _)%Z; [apply Hk|].
  destruct (climb op rhs root2); [discriminate|contradiction].
Qed.

Section KnownOperators.

Variable isOperator : Token -> bool.
Variable env : Extern.
Variable input : list TokenInfo.
Hypothesis Hknown : forall op,
  isOperator op = true -> forall lhs rhs, opToExpr op lhs rhs <> None.

Variable recur : Parser -> Outcome (Expr * string).
Variable bound : nat.
Hypothesis Hrecur : forall p msg,
  recur p = Panicked msg -> lexemePanic input msg.

Lemma parseExprLoopWith_panic fuel : forall root p msg,
  parseExprLoopWith isOperator env input recur bound fuel root p
  = Panicked msg ->
  lexemePanic input msg.
Proof.
  induction fuel as [|fuel IH]; intros root p msg; [discriminate|].
  cbn [parseExprLoopWith].
  destruct (ScanIgnoreWhitespace input p) as [op p1].
  destruct (isOperator (Tok op)) eqn:Eop; cbn [negb]; calm.
  destruct (parseUnaryExpr env input recur bound p1) eqn:E; cbn [bind]; calm.
  - destruct (climb (Tok op) a root) eqn:Ec.
    + apply IH.
    + exfalso. revert Ec. apply climb_known. intros lhs.
      now apply Hknown.
  - intros H. injection H as <-.
    eapply parseUnaryExpr_panic; [exact Hrecur|exact E].
Qed.

Lemma parseExprBodyWith_panic p msg :
  parseExprBodyWith isOperator env input recur bound p = Panicked msg ->
  lexemePanic input msg.
Proof.
  unfold parseExprBodyWith.
  destruct (parseUnaryExpr _ _ _ _ _) eqn:E; cbn [bind].
  - destruct (parseExprLoopWith _ _ _ _ _ _ _ _) eqn:EL;
      try (destruct (buf p); discriminate).
    intros H. apply (parseExprLoopWith_panic _ _ _ msg0) in EL.
    destruct (buf p); cbn [release] in H; injection H as <-; exact EL.
  - destruct (buf p); discriminate.
  - intros H.
    assert (msg0 = msg) as -> by (destruct (buf p); cbn in H; congruence).
    eapply parseUnaryExpr_panic; [exact Hrecur|exact E].
  - destruct (buf p); discriminate.
Qed.

End KnownOperators.

Lemma ParseExprWith_panic isOperator env input
    (Hknown : forall op, isOperator op = true ->
                forall lhs rhs, opToExpr op lhs rhs <> None) fuel :
  forall p msg,
  ParseExprWith isOperator env input fuel p = Panicked msg ->
  lexemePanic input msg.
Proof.
  induction fuel as [|fuel IH]; intros p msg; [discriminate|].
  cbn [ParseExprWith]. apply parseExprBodyWith_panic; assumption.
Qed.

(** C10 does not hold of the code when the scanner takes for an operator
    a token that [opToExpr] has no case for.  [ParseExpr] is the parse
    with the test that accepts the eighteen operators alone; with a test
    that accepts only tokens that [opToExpr] knows, whatever it is, the
    parse never ends in the panic "unknown operator", and on an input in
    which every NUMBER and NAMEDPARAM token has a lexeme it ends in no
    panic at all; with a test that accepts the regular-expression
    operator as well, for which [opToExpr] has no case, the parse of
    a =~ b ends in that panic, at every fuel from 2 on. *)
Theorem unknown_operator_panic env :
  (forall input fuel p,
     ParseExprWith IsOperator env input fuel p = ParseExpr env input fuel p)
  /\
  (forall isOperator input fuel p,
     (forall op, isOperator op = true ->
        forall lhs rhs, opToExpr op lhs rhs <> None) ->
     ParseExprWith isOperator env input fuel p <> Panicked "unknown operator"
     /\
     (~ emptyLexeme input ->
      forall msg, ParseExprWith isOperator env input fuel p <> Panicked msg))
  /\
  (withRegex EQREGEX = true /\
   forall lhs rhs, opToExpr EQREGEX lhs rhs = None) /\
  (forall k,
     ParseExprWith withRegex env regexInput (2 + k) NewParser
     = Panicked "unknown operator").
Proof.
  split; [reflexivity|]. split; [|split].
  - intros isOperator input fuel p Hk. split.
    + intros H. apply (ParseExprWith_panic _ _ _ Hk) in H.
      destruct H as [_ H]. now apply H.
    + intros Hwf msg H. apply (ParseExprWith_panic _ _ _ Hk) in H.
      destruct H as [H _]. now apply Hwf.
  - split; reflexivity.
  - intros k. cbv. reflexivity.
Qed.

(** ** The pairs of a document *)

(** A pair is the lexeme of its key token and the expression after its
    colon. *)
Lemma parseKV_pair env input recur p key p1 colon p2 r p3 :
  ScanIgnoreWhitespace input p = (key, p1) ->
  Tok key = IDENT \/ Tok key = STRING ->
  ScanIgnoreWhitespace input p1 = (colon, p2) ->
  Tok colon = COLON ->
  recur p2 = Ok r p3 ->
  parseKV env input recur p = Ok (Lit key, fst r) p3.
Proof.
  intros H1 T1 H2 T2 H3. unfold parseKV. rewrite H1.
  assert (Token_eqb (Tok key) IDENT || Token_eqb (Tok key) STRING = true)
    as ->.
  { destruct T1 as [-> | ->]; reflexivity. }
  rewrite H2, T2. change (Token_eqb COLON COLON) with true. cbn [negb].
  rewrite H3. reflexivity.
Qed.

Lemma parseDocumentLoop_pairs env input recur : forall p l q,
  pairsFrom input recur p l q ->
  forall fuel acc tj q1,
  ScanIgnoreWhitespace input q = (tj, q1) -> Tok tj <> COMMA ->
  List.length l <= fuel ->
  parseDocumentLoop env input recur fuel acc p
  = Ok (acc ++ l) (Unscan input q1).
Proof.
  induction 1 as [p key p1 colon p2 r p3 H1 T1 H2 T2 H3
                 |p key p1 colon p2 r p3 comma p4 l q H1 T1 H2 T2 H3 H4 T4
                    _ IH];
    intros fuel acc tj q1 Hj Hc Hlen;
    (destruct fuel as [|fuel]; [cbn in Hlen; lia|]);
    cbn [parseDocumentLoop];
    rewrite (parseKV_pair env input recur _ _ _ _ _ _ _ H1 T1 H2 T2 H3);
    cbv zeta.
  - rewrite Hj. apply Token_eqb_neq in Hc. now rewrite Hc.
  - rewrite H4, T4, Token_eqb_refl. cbn [negb].
    rewrite (IH fuel _ tj q1 Hj Hc) by (cbn in Hlen; lia).
    now rewrite <- app_assoc.
Qed.

(** C7.  A document keeps every pair, in the order of the source and
    with the key and the value it has there.  [parseKV] returns the
    lexeme of the key token with the expression parsed after the colon.
    The loop of [parseDocument] appends every pair that parses to the
    pairs it already has, whatever its key: with a comma after the pair
    it goes on with the longer list, without one it returns the longer
    list, and the pairs it returns begin with the pairs it was given, in
    their order.  So a document of pairs separated by commas, between
    braces, parses to exactly these pairs: as many of them, each with the
    lexeme of its own key and its own value, in their order, pairs under
    one key included.  The document of the three pairs a: 1, a: 2 and
    a: 3 parses to exactly these three pairs, in this order, at every
    fuel from 5 on, and the document of x: 1, y: 2 and x: 3 to the pairs
    under x, y and x with the values 1, 2 and 3. *)
Theorem document_keeps_pairs env input recur fuel pairs p :
  (forall key p1 colon p2 r p3,
     ScanIgnoreWhitespace input p = (key, p1) ->
     Tok key = IDENT \/ Tok key = STRING ->
     ScanIgnoreWhitespace input p1 = (colon, p2) ->
     Tok colon = COLON ->
     recur p2 = Ok r p3 ->
     parseKV env input recur p = Ok (Lit key, fst r) p3) /\
  (forall kv p1 ti p2,
     parseKV env input recur p = Ok kv p1 ->
     ScanIgnoreWhitespace input p1 = (ti, p2) ->
     (Tok ti = COMMA ->
      parseDocumentLoop env input recur (S fuel) pairs p
      = parseDocumentLoop env input recur fuel (pairs ++ [kv]) p2) /\
     (Tok ti <> COMMA ->
      parseDocumentLoop env input recur (S fuel) pairs p
      = Ok (pairs ++ [kv]) (Unscan input p2))) /\
  (forall l q,
     parseDocumentLoop env input recur fuel pairs p = Ok l q ->
     exists more, l = pairs ++ more) /\
  (forall bound p0 open l q close q1,
     ScanIgnoreWhitespace input p0 = (open, p) -> Tok open = LBRACKET ->
     pairsFrom input recur p l q ->
     ScanIgnoreWhitespace input q = (close, q1) -> Tok close = RBRACKET ->
     List.length l <= bound ->
     parseDocument env input recur bound p0 = Ok (KVPairs l, true) q1) /\
  (forall k,
     ParseExpr env sameKeyInput (5 + k) NewParser
     = Ok (KVPairs [("a", IntValue 1); ("a", IntValue 2); ("a", IntValue 3)],
           "{a: 1, a: 2, " ++ quoted "a" ++ ": 3}")%string
          (mkParser 18 0 0 None)) /\
  (forall k,
     ParseExpr env mixedKeysInput (5 + k) NewParser
     = Ok (KVPairs [("x", IntValue 1); ("y", IntValue 2); ("x", IntValue 3)],
           "{x: 1, " ++ quoted "y" ++ ": 2, x: 3}")%string
          (mkParser 18 0 0 None)).
Proof.
  refine (conj _ (conj _ (conj _ (conj _ (conj _ _))))).
  - intros key p1 colon p2 r p3. apply parseKV_pair.
  - intros kv p1 ti p2 HK HS. cbn [parseDocumentLoop]. rewrite HK, HS.
    split; intros H.
    + rewrite H. reflexivity.
    + apply Token_eqb_neq in H. rewrite H. reflexivity.
  - intros l q. apply parseDocumentLoop_extends.
  - intros bound p0 open l q close q1 HO TO HP HC TC Hlen.
    assert (Nc : Tok close <> COMMA) by (rewrite TC; discriminate).
    assert (Nw : Tok close <> WS) by (rewrite TC; discriminate).
    unfold parseDocument. rewrite HO, TO.
    change (Token_eqb LBRACKET LBRACKET) with true. cbn [negb].
    rewrite (parseDocumentLoop_pairs env input recur _ _ _ HP bound []
               close q1 HC Nc Hlen).
    cbn [bind app].
    rewrite (ScanIgnoreWhitespace_again _ _ _ _ HC Nw), TC.
    reflexivity.
  - intros k. apply ParseExpr_more; [vm_compute; reflexivity | discriminate].
  - intros k. apply ParseExpr_more; [vm_compute; reflexivity | discriminate].
Qed.

(** ** Bind parameters in the whole of a parse *)










(** ** The theorems at concrete inputs *)


Lemma integer_literal_witness :
  ScanIgnoreWhitespace [integer "10"] NewParser
  = (integer "10", mkParser 1 0 0 None) /\
  parseUnaryExpr bareExtern [integer "10"] (fun _ => OutOfFuel) 0 NewParser
  = Ok (IntValue 10) (mkParser 1 0 0 None).
Proof.
  split; [reflexivity|].
  refine (proj1 (integer_literal bareExtern [integer "10"] _ 0 NewParser
                   (integer "10") (mkParser 1 0 0 None) eq_refl eq_refl)
            false 10%N eq_refl _).
  unfold strconv.minInt64, strconv.maxInt64, strconv.signed. lia.
Defined.

Lemma field_path_segments_witness :
  Scan castInput (mkParser 3 0 0 None) = (sym DOT ".", mkParser 4 0 0 None) /\
  parseFieldRefLoop castInput 5 ["a"] (mkParser 3 0 0 None)
  = parseFieldRefLoop castInput 4 ["a"; "b"] (mkParser 5 0 0 None).
Proof.
  split; [reflexivity|].
  exact (proj1 (proj1 (field_path_segments bareExtern castInput 4 ["a"]
                         (mkParser 3 0 0 None) (sym DOT ".")
                         (mkParser 4 0 0 None) eq_refl)
                  eq_refl (ident "b") (mkParser 5 0 0 None) eq_refl)
           eq_refl).
Defined.

Lemma list_trailing_comma_witness :
  ScanIgnoreWhitespace trailingCommaList (mkParser 6 0 0 None)
  = (sym RPAREN ")", mkParser 7 0 0 None) /\
  parseExprList bareExtern trailingCommaList
    (ParseExpr bareExtern trailingCommaList 3) 3 LPAREN RPAREN NewParser
  = Ok [IntValue 1; IntValue 2] (mkParser 7 0 0 None).
Proof.
  split; [reflexivity|].
  refine (proj1 (proj2 (proj2
    (list_trailing_comma bareExtern trailingCommaList 2 3 LPAREN RPAREN
       NewParser (sym LPAREN "(") (mkParser 1 0 0 None)
       [IntValue 1; IntValue 2] (mkParser 6 0 0 None)
       (sym RPAREN ")") (mkParser 7 0 0 None)
       (or_introl (conj eq_refl eq_refl)) eq_refl eq_refl _
       eq_refl eq_refl (le_n 3))))).
  refine (cs_more trailingCommaList
            (element (ParseExpr bareExtern trailingCommaList 3))
            (mkParser 1 0 0 None) (IntValue 1) (mkParser 2 0 0 None)
            (sym COMMA ",") (mkParser 3 0 0 None) [IntValue 2]
            (mkParser 6 0 0 None) eq_refl eq_refl eq_refl _).
  exact (cs_last trailingCommaList
           (element (ParseExpr bareExtern trailingCommaList 3))
           (mkParser 3 0 0 None) (IntValue 2) (mkParser 5 0 0 None)
           (sym COMMA ",") (mkParser 6 0 0 None) eq_refl eq_refl eq_refl).
Defined.

Lemma document_trailing_comma_witness :
  ScanIgnoreWhitespace trailingCommaDocument (mkParser 6 0 0 None)
  = (sym RBRACKET "}", mkParser 7 0 0 None) /\
  parseDocument bareExtern trailingCommaDocument
    (ParseExpr bareExtern trailingCommaDocument 2) 2 NewParser
  = Ok (KVPairs [("a", IntValue 1)], true) (mkParser 7 0 0 None).
Proof.
  split; [reflexivity|].
  refine (proj1 (proj2 (proj2
    (document_trailing_comma bareExtern trailingCommaDocument
       (ParseExpr bareExtern trailingCommaDocument 2) 2
       NewParser (sym LBRACKET "{") (mkParser 1 0 0 None)
       [("a", IntValue 1)] (mkParser 6 0 0 None)
       (sym RBRACKET "}") (mkParser 7 0 0 None)
       eq_refl eq_refl _ eq_refl eq_refl (le_n 2))))).
  exact (cs_last trailingCommaDocument
           (parseKV bareExtern trailingCommaDocument
              (ParseExpr bareExtern trailingCommaDocument 2))
           (mkParser 1 0 0 None) ("a", IntValue 1) (mkParser 5 0 0 None)
           (sym COMMA ",") (mkParser 6 0 0 None) eq_refl eq_refl eq_refl).
Defined.

Lemma operator_tree_shape_witness :
  ParseExpr bareExtern precedenceInput 4 NewParser
  = Ok (Gt (IntValue 4) (Add (IntValue 1) (IntValue 2)), "4 > 1 + 2")
       (mkParser 9 0 0 None) /\
  climbed (Gt (IntValue 4) (Add (IntValue 1) (IntValue 2))).
Proof.
  split; [reflexivity|].
  exact (proj1 (operator_tree_shape bareExtern precedenceInput 4 NewParser
                  (Gt (IntValue 4) (Add (IntValue 1) (IntValue 2)))
                  "4 > 1 + 2" (mkParser 9 0 0 None) eq_refl)).
Defined.

Lemma round_trip_witness :
  ParseExpr bareExtern roundTripInput 3 NewParser
  = Ok (Gt (IntValue 4) (IntValue 1), "4 > 1") (mkParser 7 0 0 None) /\
  "4 > 1" = strings.TrimSpace (raws (consumed roundTripInput 7)) /\
  exists lit' q',
    ParseExpr bareExtern (trimTokens (consumed roundTripInput 7)) 3
      NewParser
    = Ok (Gt (IntValue 4) (IntValue 1), lit') q'.
Proof.
  split; [reflexivity|].
  exact (round_trip bareExtern roundTripInput 3
           (Gt (IntValue 4) (IntValue 1)) "4 > 1" (mkParser 7 0 0 None)
           eq_refl).
Defined.

Lemma parseIdentList_items_witness :
  parseIdent bareExtern identListInput (mkParser 2 0 0 None)
  = Ok "b" (mkParser 4 0 0 None) /\
  parseIdentList bareExtern identListInput 2 NewParser
  = Ok ["a"; "b"] (mkParser 5 0 0 None).
Proof.
  split; [reflexivity|].
  refine (proj1 (parseIdentList_items bareExtern identListInput 2 NewParser
                   ["a"] (mkParser 2 0 0 None) "b" (mkParser 4 0 0 None)
                   (tk (KEYWORD "FROM") "FROM" "FROM") (mkParser 6 0 0 None)
                   (or_intror _) eq_refl eq_refl _ (le_n 2))).
  - exact (cs_last identListInput (parseIdent bareExtern identListInput)
             NewParser "a" (mkParser 1 0 0 None) (sym COMMA ",")
             (mkParser 2 0 0 None) eq_refl eq_refl eq_refl).
  - cbn. discriminate.
Defined.

Lemma parseIdentList_expects_identifier_witness :
  ScanIgnoreWhitespace [ident "a"; sym COMMA ","] (mkParser 2 0 0 None)
  = (eofToken, mkParser 3 0 0 None) /\
  parseIdentList bareExtern [ident "a"; sym COMMA ","] 1 NewParser
  = Fail (expected bareExtern eofToken ["identifier"]) (mkParser 3 0 0 None).
Proof.
  split; [reflexivity|].
  refine (parseIdentList_expects_identifier bareExtern
            [ident "a"; sym COMMA ","] 1 NewParser ["a"]
            (mkParser 2 0 0 None) eofToken (mkParser 3 0 0 None)
            (or_intror _) eq_refl _ (le_n 1)).
  - exact (cs_last [ident "a"; sym COMMA ","]
             (parseIdent bareExtern [ident "a"; sym COMMA ","])
             NewParser "a" (mkParser 1 0 0 None) (sym COMMA ",")
             (mkParser 2 0 0 None) eq_refl eq_refl eq_refl).
  - cbn. discriminate.
Defined.

Lemma parseIdentList_sound_witness :
  parseIdentList bareExtern identListInput 2 NewParser
  = Ok ["a"; "b"] (mkParser 5 0 0 None) /\
  ["a"; "b"] <> [] /\
  Tok (tokenAt identListInput 5) <> COMMA.
Proof.
  split; [reflexivity|].
  pose (H := parseIdentList_sound bareExtern identListInput 2 NewParser
               ["a"; "b"] (mkParser 5 0 0 None) eq_refl).
  exact (conj (proj1 H) (proj1 (proj2 (proj2 H)))).
Defined.

Lemma parseIdentList_terminates_witness :
  List.length identListInput - pos NewParser < 7 /\
  ((exists l q, parseIdentList bareExtern identListInput 7 NewParser = Ok l q)
   \/
   (exists e q,
      parseIdentList bareExtern identListInput 7 NewParser = Fail e q)).
Proof.
  split; [cbn; lia|].
  apply (parseIdentList_terminates bareExtern identListInput 7 NewParser).
  cbn. lia.
Defined.

Lemma parseParam_token_witness :
  ScanIgnoreWhitespace [integer "1"] NewParser
  = (integer "1", mkParser 1 0 0 None) /\
  parseParam [integer "1"] NewParser = Ok NilExpr (mkParser 1 0 0 None).
Proof.
  split; [reflexivity|].
  refine (proj1 (proj2 (parseParam_token bareExtern [integer "1"]
                          (fun _ => OutOfFuel) 0 NewParser (integer "1")
                          (mkParser 1 0 0 None) eq_refl) _ _));
    cbn; discriminate.
Defined.

Lemma parseParam_exclusive_witness :
  ScanIgnoreWhitespace [tk NAMEDPARAM "$a" "$a"] (mkParser 0 1 0 None)
  = (tk NAMEDPARAM "$a" "$a", mkParser 1 1 0 None) /\
  parseParam [tk NAMEDPARAM "$a" "$a"] (mkParser 0 1 0 None)
  = Fail (messageError mixedParams) (mkParser 1 1 0 None).
Proof.
  split; [reflexivity|].
  refine (proj1 (parseParam_exclusive [tk NAMEDPARAM "$a" "$a"]
                   (mkParser 0 1 0 None) (tk NAMEDPARAM "$a" "$a")
                   (mkParser 1 1 0 None) eq_refl) eq_refl _ _).
  - cbn. discriminate.
  - cbn. lia.
Defined.

Lemma ParseExpr_terminates_witness :
  List.length precedenceInput - pos NewParser < 10 /\
  ParseExpr bareExtern precedenceInput 10 NewParser <> OutOfFuel.
Proof.
  split; [cbn; lia|].
  apply (ParseExpr_terminates bareExtern precedenceInput 10 NewParser).
  cbn. lia.
Defined.

Lemma ParseExpr_stops_witness :
  ParseExpr countExtern callInput 3 NewParser
  = Ok (FuncCall "count" [FieldSelector ["a"]], "count(a")
       (mkParser 3 0 0 None) /\
  0 < 3 <= List.length callInput /\
  Tok (tokenAt callInput 3) <> WS.
Proof.
  split; [reflexivity|].
  pose (H := ParseExpr_stops countExtern callInput 3 NewParser
               (FuncCall "count" [FieldSelector ["a"]]) "count(a"
               (mkParser 3 0 0 None) eq_refl).
  exact (conj (proj1 H) (proj1 (proj2 H))).
Defined.

Lemma ParseExpr_blank_witness :
  Forall (fun ti => Tok ti = WS) [blank; blank] /\
  ParseExpr bareExtern [blank; blank] 1 NewParser
  = Fail (expected bareExtern eofToken
            ["identifier"; "string"; "number"; "bool"])
         (mkParser 3 0 0 None).
Proof.
  assert (H : Forall (fun ti => Tok ti = WS) [blank; blank])
    by (repeat constructor).
  split; [exact H|].
  exact (ParseExpr_blank bareExtern [blank; blank] 0 H).
Defined.

Lemma parseExprList_ends_witness :
  ScanIgnoreWhitespace noCommaList NewParser
  = (sym LPAREN "(", mkParser 1 0 0 None) /\
  parseExprList bareExtern noCommaList (ParseExpr bareExtern noCommaList 2) 2
    LPAREN RPAREN NewParser
  = Fail (expected bareExtern (integer "2") [tokenString bareExtern RPAREN])
         (mkParser 4 0 0 None).
Proof.
  split; [reflexivity|].
  refine (proj1 (parseExprList_ends bareExtern noCommaList
                   (ParseExpr bareExtern noCommaList 2) 2 LPAREN RPAREN
                   NewParser (sym LPAREN "(") (mkParser 1 0 0 None)
                   [] (mkParser 1 0 0 None)
                   eq_refl eq_refl (or_introl (conj eq_refl eq_refl))
                   (le_n_S 0 1 (le_S 0 0 (le_n 0))))
            (IntValue 1, "1") (mkParser 3 0 0 None)
            (integer "2") (mkParser 4 0 0 None) eq_refl eq_refl _).
  cbn. discriminate.
Defined.

Lemma parseDocument_ends_witness :
  ScanIgnoreWhitespace noCommaDocument NewParser
  = (sym LBRACKET "{", mkParser 1 0 0 None) /\
  parseDocument bareExtern noCommaDocument
    (ParseExpr bareExtern noCommaDocument 2) 2 NewParser
  = Fail (expected bareExtern (ident "b") ["}"]) (mkParser 7 0 0 None).
Proof.
  split; [reflexivity|].
  refine (proj1 (parseDocument_ends bareExtern noCommaDocument
                   (ParseExpr bareExtern noCommaDocument 2) 2
                   NewParser (sym LBRACKET "{") (mkParser 1 0 0 None)
                   [] (mkParser 1 0 0 None)
                   eq_refl eq_refl (or_introl (conj eq_refl eq_refl))
                   (le_n_S 0 1 (le_S 0 0 (le_n 0))))
            ("a", IntValue 1) (mkParser 6 0 0 None)
            (ident "b") (mkParser 7 0 0 None) eq_refl eq_refl _).
  cbn. discriminate.
Defined.

Lemma parseFunction_ends_witness :
  parseIdent countExtern callInput NewParser
  = Ok "count" (mkParser 1 0 0 None) /\
  parseFunction countExtern callInput (ParseExpr countExtern callInput 2) 2
    NewParser
  = Ok (FuncCall "count" [FieldSelector ["a"]]) (mkParser 3 0 0 None) /\
  ScanIgnoreWhitespace callInput (mkParser 3 0 0 None)
  = (sym RPAREN ")", mkParser 4 0 0 None).
Proof.
  split; [reflexivity|].
  refine (proj1 (parseFunction_ends countExtern callInput
                   (ParseExpr countExtern callInput 2) 2 NewParser
                   "count" (mkParser 1 0 0 None)
                   (sym LPAREN "(") (mkParser 2 0 0 None)
                   (ident "a") (mkParser 3 0 0 None)
                   [] (mkParser 2 0 0 None)
                   eq_refl eq_refl eq_refl eq_refl _
                   (or_introl (conj eq_refl eq_refl))
                   (le_n_S 0 1 (le_S 0 0 (le_n 0))))
            (FieldSelector ["a"], "a") (mkParser 3 0 0 None)
            (sym RPAREN ")") (mkParser 4 0 0 None) eq_refl eq_refl _);
    cbn; discriminate.
Defined.

Lemma positional_numbers_increase_witness :
  ParseExpr bareExtern gapInput 5 NewParser
  = Ok (LiteralExprList [LiteralExprList []; PositionalParam 2],
        "[(? + ), ?]") (mkParser 11 2 0 None) /\
  numbered 0 [2%Z] 2.
Proof.
  split; [reflexivity|].
  exact (proj1 (positional_numbers_increase bareExtern gapInput 5 NewParser
                  (LiteralExprList [LiteralExprList []; PositionalParam 2])
                  "[(? + ), ?]" (mkParser 11 2 0 None) eq_refl)).
Defined.

Lemma operands_in_order_witness :
  ParseExpr bareExtern precedenceInput 4 NewParser
  = Ok (Gt (IntValue 4) (Add (IntValue 1) (IntValue 2)), "4 > 1 + 2")
       (mkParser 9 0 0 None) /\
  exists first p1 l q',
    parseUnaryExpr bareExtern precedenceInput
      (ParseExpr bareExtern precedenceInput 3) 3 (buffered NewParser)
    = Ok first p1 /\
    operatorChain precedenceInput
      (parseUnaryExpr bareExtern precedenceInput
         (ParseExpr bareExtern precedenceInput 3) 3) p1 l q' /\
    inorder (Gt (IntValue 4) (Add (IntValue 1) (IntValue 2)))
    = inr first :: l.
Proof.
  split; [reflexivity|].
  exact (proj2 (operands_in_order bareExtern precedenceInput 3 NewParser
                  (Gt (IntValue 4) (Add (IntValue 1) (IntValue 2)))
                  "4 > 1 + 2" (mkParser 9 0 0 None) eq_refl)).
Defined.

Lemma ParseExpr_value_witness :
  ParseExpr bareExtern precedenceInput 4 NewParser
  = Ok (Gt (IntValue 4) (Add (IntValue 1) (IntValue 2)), "4 > 1 + 2")
       (mkParser 9 0 0 None) /\
  Gt (IntValue 4) (Add (IntValue 1) (IntValue 2)) <> NilExpr.
Proof.
  split; [reflexivity|].
  exact (ParseExpr_value bareExtern precedenceInput 4 NewParser
           (Gt (IntValue 4) (Add (IntValue 1) (IntValue 2)))
           "4 > 1 + 2" (mkParser 9 0 0 None) eq_refl).
Defined.

Lemma cast_type_witness :
  ScanIgnoreWhitespace castMissingType (mkParser 5 0 0 None)
  = (sym RPAREN ")", mkParser 6 0 0 None) /\
  parseCastExpression bareExtern castMissingType
    (ParseExpr bareExtern castMissingType 2) NewParser
  = Fail (expected bareExtern (sym RPAREN ")") ["type"])
         (mkParser 5 0 0 None).
Proof.
  split; [reflexivity|].
  exact (proj1 (proj1 (cast_type bareExtern castMissingType
                         (ParseExpr bareExtern castMissingType 2) NewParser
                         (sym CAST "CAST") (mkParser 1 0 0 None)
                         (sym LPAREN "(") (mkParser 2 0 0 None)
                         (IntValue 1, "1") (mkParser 4 0 0 None)
                         (sym AS "AS") (mkParser 5 0 0 None)
                         (sym RPAREN ")") (mkParser 6 0 0 None)
                         eq_refl eq_refl eq_refl eq_refl eq_refl
                         eq_refl eq_refl eq_refl)
                  eq_refl)).
Defined.

Lemma ParseExpr_fails_within_witness :
  ParseExpr bareExtern noCommaList 3 NewParser
  = Fail (expected bareExtern (integer "2") [tokenString bareExtern RPAREN])
         (mkParser 4 0 0 None) /\
  pos NewParser <= List.length noCommaList /\
  0 < 4 <= S (List.length noCommaList).
Proof.
  split; [reflexivity|]. split; [cbn; lia|].
  apply (ParseExpr_fails_within bareExtern noCommaList 3 NewParser
           (expected bareExtern (integer "2") [tokenString bareExtern RPAREN])
           (mkParser 4 0 0 None) eq_refl).
  cbn. lia.
Defined.

Lemma identifier_alone_witness :
  ScanIgnoreWhitespace spacedCallInput NewParser
  = (ident "count", mkParser 1 0 0 None) /\
  parseUnaryExpr countExtern spacedCallInput (fun _ => OutOfFuel) 1 NewParser
  = Ok (FieldSelector ["count"]) (mkParser 1 0 0 None).
Proof.
  split; [reflexivity|].
  refine (proj1 (identifier_alone countExtern spacedCallInput
                   (fun _ => OutOfFuel) 1 NewParser
                   (ident "count") (mkParser 1 0 0 None)
                   blank (mkParser 2 0 0 None)
                   eq_refl eq_refl eq_refl _ _ _ (le_n 1)));
    cbn; discriminate.
Defined.

Lemma field_path_adjacent_witness :
  parseFieldRef bareExtern castInput 5 (mkParser 2 0 0 None)
  = Ok ["a"; "b"; "1"; "0"] (mkParser 7 0 0 None) /\
  exists j,
    2 <= j < 7 /\
    (forall i, 2 <= i < j -> Tok (tokenAt castInput i) = WS) /\
    Tok (tokenAt castInput j) = IDENT /\
    hd_error ["a"; "b"; "1"; "0"] = Some (Lit (tokenAt castInput j)) /\
    (forall i, j <= i < 7 -> pathToken (Tok (tokenAt castInput i)) = true) /\
    Tok (tokenAt castInput 7) <> DOT.
Proof.
  split; [reflexivity|].
  exact (field_path_adjacent bareExtern castInput 5 (mkParser 2 0 0 None)
           ["a"; "b"; "1"; "0"] (mkParser 7 0 0 None) eq_refl).
Defined.
